(** * The incremental WebSocket frame reader

    A shallow embedding of [aiohttp/_websocket/reader_py.py]
    (class [WebSocketReader]) together with the properties of its three
    layers: the frame parser [parse_frame], the message assembler and
    payload finalizer [_feed_data], and the latching entry point
    [feed_data]. *)

From Stdlib Require Import ZArith List Bool Lia String.
From Stdlib.Strings Require Import Byte.
Import ListNotations.
Local Open Scope Z_scope.

(** ** Bytes and Python integers *)

Abbreviation bytes := (list byte).

(** [data[i]] of a Python [bytes] object is an [int] in [0, 255]. *)
Definition byte_val (b : byte) : Z := Z.of_N (Byte.to_N b).

Definition byte_of_Z (z : Z) : byte :=
  match Byte.of_N (Z.to_N (z mod 256)) with
  | Some b => b
  | None => x00
  end.

(** [len(x)] *)
Definition len {A : Type} (l : list A) : Z := Z.of_nat (List.length l).

(** Truth value of a Python [int]. *)
Definition truthy (z : Z) : bool := negb (z =? 0).

(** Truth value of a sequence ([bytes], [bytearray]): non-empty. *)
Definition nonempty {A : Type} (l : list A) : bool :=
  match l with [] => false | _ :: _ => true end.

Definition is_None {A : Type} (o : option A) : bool :=
  match o with None => true | Some _ => false end.

(** Truth value of an [Optional[bool]]. *)
Definition opt_truthy (o : option bool) : bool :=
  match o with Some b => b | None => false end.

(** ** Collaborators that are imported by the reader *)

(** Modelled from the spec: the members of the [WSCloseCode] enumeration
    (declared in [models.py]); the spec lists their integer values as the
    concrete set of registered close codes and names the three codes the
    reader raises. *)
Module WSCloseCode.
Definition PROTOCOL_ERROR : Z := 1002.
Definition INVALID_TEXT : Z := 1007.
Definition MESSAGE_TOO_BIG : Z := 1009.
Definition members : list Z :=
  [1000; 1001; 1002; 1003; 1007; 1008; 1009; 1010; 1011; 1012; 1013; 1014;
   1015].
End WSCloseCode.

(** [ALLOWED_CLOSE_CODES = {int(i) for i in WSCloseCode}] *)
Definition ALLOWED_CLOSE_CODES : list Z := WSCloseCode.members.

Definition in_codes (c : Z) (s : list Z) : bool := existsb (Z.eqb c) s.

(** Modelled from the spec: the opcode values of [WSMsgType]
    ([0x0] continuation, [0x1] text, [0x2] binary, [0x8] close, [0x9] ping,
    [0xA] pong). *)
Definition OP_CODE_CONTINUATION : Z := 0.
Definition OP_CODE_TEXT : Z := 1.
Definition OP_CODE_BINARY : Z := 2.
Definition OP_CODE_CLOSE : Z := 8.
Definition OP_CODE_PING : Z := 9.
Definition OP_CODE_PONG : Z := 10.

(** Modelled from the spec: the message variants of [models.py].  The
    message-type field of each tuple is the constructor.  [B] is the type
    of a [bytearray] as the reader holds it: its content ([bytes]) where
    only values matter, its identity (a location of the store) where
    sharing is followed.  A ping or a pong is built on the payload
    bytearray of its frame; text and binary messages hold immutable
    copies. *)
Inductive WSMessage (B : Type) : Type :=
| WSMessageText (data : string) (extra : string)
| WSMessageBinary (data : bytes) (extra : string)
| WSMessagePing (data : B) (extra : string)
| WSMessagePong (data : B) (extra : string)
| WSMessageClose (data : Z) (extra : string).

Arguments WSMessageText {B} data extra.
Arguments WSMessageBinary {B} data extra.
Arguments WSMessagePing {B} data extra.
Arguments WSMessagePong {B} data extra.
Arguments WSMessageClose {B} data extra.

(** The texts of the errors the reader raises, with the values that are
    formatted into them. *)
Inductive error_text : Type :=
| Msg_size_exceeds_limit (size limit : Z)
    (* "Message size {} exceeds limit {}" *)
| Msg_continuation_non_started
    (* "Continuation frame for non started message" *)
| Msg_opcode_expected_zero (opcode : Z)
    (* "The opcode in non-fin frame is expected to be zero, got {!r}" *)
| Msg_decompressed_size_exceeds_limit (size limit : Z)
    (* "Decompressed message size {} exceeds limit {}" *)
| Msg_invalid_utf8
    (* "Invalid UTF-8 text message" *)
| Msg_invalid_close_code (close_code : Z)
    (* "Invalid close code: {close_code}" *)
| Msg_invalid_close_frame (fin : bool) (opcode : Z) (payload : bytes)
    (* "Invalid close frame: {fin} {opcode} {payload!r}" *)
| Msg_unexpected_opcode (opcode : option Z)
    (* "Unexpected opcode={opcode!r}" *)
| Msg_nonzero_reserved_bits
    (* "Received frame with non-zero reserved bits" *)
| Msg_fragmented_control_frame
    (* "Received fragmented control frame" *)
| Msg_control_frame_too_large
    (* "Control frame payload cannot be larger than 125 bytes" *).

(** Exceptions that can reach the [except Exception] of [feed_data]. *)
Inductive exn : Type :=
| WebSocketError (code : Z) (message : error_text)
| AssertionError
| zlib_error.

Definition protocol_error (t : error_text) : exn :=
  WebSocketError WSCloseCode.PROTOCOL_ERROR t.

Definition message_too_big (size limit : Z) : exn :=
  WebSocketError WSCloseCode.MESSAGE_TOO_BIG
    (Msg_size_exceeds_limit size limit).

Definition invalid_text : exn :=
  WebSocketError WSCloseCode.INVALID_TEXT Msg_invalid_utf8.

(** The sink.  A [DataQueue] is observed through the calls the reader
    makes on it, oldest first. *)
Inductive queue_call (B : Type) : Type :=
| q_feed_data (msg : WSMessage B)
| q_set_exception (exc : exn)
| q_feed_eof.

Arguments q_feed_data {B} msg.
Arguments q_set_exception {B} exc.
Arguments q_feed_eof {B}.

Definition DataQueue (B : Type) : Type := list (queue_call B).

(** [set_exception(queue, exc)] of [helpers.py]. *)
Definition set_exception {B : Type} (q : DataQueue B) (exc : exn)
  : DataQueue B :=
  q ++ [q_set_exception exc].

(** The Python runtime and the zlib wrapper of [compression_utils.py]:
    strict UTF-8 decoding ([None] is [UnicodeDecodeError]) and a raw
    inflater.  [decompress_sync d data max_length] gives the inflater after
    the call, the output and its [unconsumed_tail]; [None] is an exception
    raised by zlib. *)
Class Runtime : Type := {
  utf8_decode : bytes -> option string;
  ZLibDecompressor : Type;
  new_ZLibDecompressor : ZLibDecompressor;
  decompress_sync :
    ZLibDecompressor -> bytes -> Z ->
    option (ZLibDecompressor * bytes * bytes)
}.

(** Modelled from the spec: the trailer [00 00 FF FF] appended before
    inflation ([WS_DEFLATE_TRAILING] of [models.py]). *)
Definition WS_DEFLATE_TRAILING : bytes := [x00; x00; xff; xff].

(** Modelled from the spec: [UNPACK_CLOSE_CODE] and [UNPACK_LEN3] of
    [helpers.py] read an unsigned big-endian number of two and of eight
    bytes. *)
Definition unpack_be (data : bytes) : Z :=
  fold_left (fun acc b => acc * 256 + byte_val b) data 0.

Definition UNPACK_CLOSE_CODE (data : bytes) : Z := unpack_be data.
Definition UNPACK_LEN3 (data : bytes) : Z := unpack_be data.

Definition byte_xor (a b : byte) : byte :=
  byte_of_Z (Z.lxor (byte_val a) (byte_val b)).

(** Modelled from the spec: [websocket_mask] of [helpers.py], the in-place
    [payload[i] ^= key[i % 4]]. *)
Fixpoint mask_from (i : nat) (mask data : bytes) : bytes :=
  match data with
  | [] => []
  | b :: data' =>
      byte_xor b (nth (i mod 4) mask x00) :: mask_from (S i) mask data'
  end.

Definition websocket_mask (mask data : bytes) : bytes := mask_from 0 mask data.

(** ** Reader state *)

Inductive ParseState : Type :=
| READ_HEADER | READ_PAYLOAD_LENGTH | READ_PAYLOAD_MASK | READ_PAYLOAD.

Definition state_eqb (a b : ParseState) : bool :=
  match a, b with
  | READ_HEADER, READ_HEADER
  | READ_PAYLOAD_LENGTH, READ_PAYLOAD_LENGTH
  | READ_PAYLOAD_MASK, READ_PAYLOAD_MASK
  | READ_PAYLOAD, READ_PAYLOAD => true
  | _, _ => false
  end.

Definition EMPTY_FRAME_ERROR : bool * bytes := (true, []).
Definition EMPTY_FRAME : bool * bytes := (false, []).

(** A raw frame, the tuple [(fin, opcode, payload, compressed)]. *)
Record Frame (B : Type) : Type := mkFrame {
  f_fin : bool;
  f_opcode : option Z;
  f_payload : B;
  f_compressed : option bool
}.

Arguments mkFrame {B} f_fin f_opcode f_payload f_compressed.
Arguments f_fin {B} f.
Arguments f_opcode {B} f.
Arguments f_payload {B} f.
Arguments f_compressed {B} f.

Section State.

Context {RT : Runtime}.
Variable B : Type.

Record WebSocketReader : Type := mkReader {
  queue : DataQueue B;
  _max_msg_size : Z;
  _exc : option exn;
  _partial : B;
  _state : ParseState;
  _opcode : option Z;
  _frame_fin : bool;
  _frame_opcode : option Z;
  _frame_payload : B;
  _tail : bytes;
  _has_mask : bool;
  _frame_mask : option bytes;
  _payload_length : Z;
  _payload_length_flag : Z;
  _compressed : option bool;
  _decompressobj : option ZLibDecompressor;
  _compress : bool
}.

(** Attribute assignments. *)
Definition set_queue (v : DataQueue B) (r : WebSocketReader)
  : WebSocketReader :=
  mkReader v (_max_msg_size r) (_exc r) (_partial r) (_state r) (_opcode r)
    (_frame_fin r) (_frame_opcode r) (_frame_payload r) (_tail r) (_has_mask
    r) (_frame_mask r) (_payload_length r) (_payload_length_flag r)
    (_compressed r) (_decompressobj r) (_compress r).

Definition set__exc (v : option exn) (r : WebSocketReader) : WebSocketReader :=
  mkReader (queue r) (_max_msg_size r) v (_partial r) (_state r) (_opcode r)
    (_frame_fin r) (_frame_opcode r) (_frame_payload r) (_tail r) (_has_mask
    r) (_frame_mask r) (_payload_length r) (_payload_length_flag r)
    (_compressed r) (_decompressobj r) (_compress r).

Definition set__partial (v : B) (r : WebSocketReader) : WebSocketReader :=
  mkReader (queue r) (_max_msg_size r) (_exc r) v (_state r) (_opcode r)
    (_frame_fin r) (_frame_opcode r) (_frame_payload r) (_tail r) (_has_mask
    r) (_frame_mask r) (_payload_length r) (_payload_length_flag r)
    (_compressed r) (_decompressobj r) (_compress r).

Definition set__state (v : ParseState) (r : WebSocketReader)
  : WebSocketReader :=
  mkReader (queue r) (_max_msg_size r) (_exc r) (_partial r) v (_opcode r)
    (_frame_fin r) (_frame_opcode r) (_frame_payload r) (_tail r) (_has_mask
    r) (_frame_mask r) (_payload_length r) (_payload_length_flag r)
    (_compressed r) (_decompressobj r) (_compress r).

Definition set__opcode (v : option Z) (r : WebSocketReader) : WebSocketReader :=
  mkReader (queue r) (_max_msg_size r) (_exc r) (_partial r) (_state r) v
    (_frame_fin r) (_frame_opcode r) (_frame_payload r) (_tail r) (_has_mask
    r) (_frame_mask r) (_payload_length r) (_payload_length_flag r)
    (_compressed r) (_decompressobj r) (_compress r).

Definition set__frame_fin (v : bool) (r : WebSocketReader) : WebSocketReader :=
  mkReader (queue r) (_max_msg_size r) (_exc r) (_partial r) (_state r)
    (_opcode r) v (_frame_opcode r) (_frame_payload r) (_tail r) (_has_mask
    r) (_frame_mask r) (_payload_length r) (_payload_length_flag r)
    (_compressed r) (_decompressobj r) (_compress r).

Definition set__frame_opcode (v : option Z) (r : WebSocketReader)
  : WebSocketReader :=
  mkReader (queue r) (_max_msg_size r) (_exc r) (_partial r) (_state r)
    (_opcode r) (_frame_fin r) v (_frame_payload r) (_tail r) (_has_mask r)
    (_frame_mask r) (_payload_length r) (_payload_length_flag r)
    (_compressed r) (_decompressobj r) (_compress r).

Definition set__frame_payload (v : B) (r : WebSocketReader) : WebSocketReader :=
  mkReader (queue r) (_max_msg_size r) (_exc r) (_partial r) (_state r)
    (_opcode r) (_frame_fin r) (_frame_opcode r) v (_tail r) (_has_mask r)
    (_frame_mask r) (_payload_length r) (_payload_length_flag r)
    (_compressed r) (_decompressobj r) (_compress r).

Definition set__tail (v : bytes) (r : WebSocketReader) : WebSocketReader :=
  mkReader (queue r) (_max_msg_size r) (_exc r) (_partial r) (_state r)
    (_opcode r) (_frame_fin r) (_frame_opcode r) (_frame_payload r) v
    (_has_mask r) (_frame_mask r) (_payload_length r) (_payload_length_flag
    r) (_compressed r) (_decompressobj r) (_compress r).

Definition set__has_mask (v : bool) (r : WebSocketReader) : WebSocketReader :=
  mkReader (queue r) (_max_msg_size r) (_exc r) (_partial r) (_state r)
    (_opcode r) (_frame_fin r) (_frame_opcode r) (_frame_payload r) (_tail
    r) v (_frame_mask r) (_payload_length r) (_payload_length_flag r)
    (_compressed r) (_decompressobj r) (_compress r).

Definition set__frame_mask (v : option bytes) (r : WebSocketReader)
  : WebSocketReader :=
  mkReader (queue r) (_max_msg_size r) (_exc r) (_partial r) (_state r)
    (_opcode r) (_frame_fin r) (_frame_opcode r) (_frame_payload r) (_tail
    r) (_has_mask r) v (_payload_length r) (_payload_length_flag r)
    (_compressed r) (_decompressobj r) (_compress r).

Definition set__payload_length (v : Z) (r : WebSocketReader)
  : WebSocketReader :=
  mkReader (queue r) (_max_msg_size r) (_exc r) (_partial r) (_state r)
    (_opcode r) (_frame_fin r) (_frame_opcode r) (_frame_payload r) (_tail
    r) (_has_mask r) (_frame_mask r) v (_payload_length_flag r) (_compressed
    r) (_decompressobj r) (_compress r).

Definition set__payload_length_flag (v : Z) (r : WebSocketReader)
  : WebSocketReader :=
  mkReader (queue r) (_max_msg_size r) (_exc r) (_partial r) (_state r)
    (_opcode r) (_frame_fin r) (_frame_opcode r) (_frame_payload r) (_tail
    r) (_has_mask r) (_frame_mask r) (_payload_length r) v (_compressed r)
    (_decompressobj r) (_compress r).

Definition set__compressed (v : option bool) (r : WebSocketReader)
  : WebSocketReader :=
  mkReader (queue r) (_max_msg_size r) (_exc r) (_partial r) (_state r)
    (_opcode r) (_frame_fin r) (_frame_opcode r) (_frame_payload r) (_tail
    r) (_has_mask r) (_frame_mask r) (_payload_length r)
    (_payload_length_flag r) v (_decompressobj r) (_compress r).

Definition set__decompressobj (v : option ZLibDecompressor) (r : WebSocketReader)
  : WebSocketReader :=
  mkReader (queue r) (_max_msg_size r) (_exc r) (_partial r) (_state r)
    (_opcode r) (_frame_fin r) (_frame_opcode r) (_frame_payload r) (_tail
    r) (_has_mask r) (_frame_mask r) (_payload_length r)
    (_payload_length_flag r) (_compressed r) v (_compress r).

(** ** L1: the frame parser, header fields *)

(** Control flow of one pass through the body of [while True:].  The pair
    [(buf, start_pos)] of the source is carried as the unread suffix
    [buf[start_pos:]]: every read of the source is relative to
    [start_pos], and [buf_length - start_pos] is the length of that
    suffix. *)
Inductive flow (A : Type) : Type :=
| Next (a : A) (r : WebSocketReader) (buf : bytes)
| Break (r : WebSocketReader) (buf : bytes)
| Throw (e : exn) (r : WebSocketReader).

Arguments Next {A}.
Arguments Break {A}.
Arguments Throw {A}.

Definition flow_bind {X Y : Type} (m : flow X)
  (k : X -> WebSocketReader -> bytes -> flow Y) : flow Y :=
  match m with
  | Next a r buf => k a r buf
  | Break r buf => Break r buf
  | Throw e r => Throw e r
  end.

(** [if self._state == READ_HEADER:].  [buf_length - start_pos < 2] is the
    case of a suffix with fewer than two bytes. *)
Definition read_header (r : WebSocketReader) (buf : bytes) : flow unit :=
  if state_eqb (_state r) READ_HEADER then
    match buf with
    | b0 :: b1 :: rest =>
        let first_byte := byte_val b0 in
        let second_byte := byte_val b1 in
        let fin := Z.land (Z.shiftr first_byte 7) 1 in
        let rsv1 := Z.land (Z.shiftr first_byte 6) 1 in
        let rsv2 := Z.land (Z.shiftr first_byte 5) 1 in
        let rsv3 := Z.land (Z.shiftr first_byte 4) 1 in
        let opcode := Z.land first_byte 15 in
        if truthy rsv2 || truthy rsv3 || (truthy rsv1 && negb (_compress r))
        then Throw (protocol_error Msg_nonzero_reserved_bits) r
        else if (opcode >? 7) && (fin =? 0)
        then Throw (protocol_error Msg_fragmented_control_frame) r
        else
          let has_mask := Z.land (Z.shiftr second_byte 7) 1 in
          let length := Z.land second_byte 127 in
          if (opcode >? 7) && (length >? 125)
          then Throw (protocol_error Msg_control_frame_too_large) r
          else
            let commit (r : WebSocketReader) :=
              Next tt
                (set__state READ_PAYLOAD_LENGTH
                   (set__payload_length_flag length
                      (set__has_mask (truthy has_mask)
                         (set__frame_opcode (Some opcode)
                            (set__frame_fin (truthy fin) r)))))
                rest in
            if _frame_fin r || is_None (_compressed r)
            then commit (set__compressed (Some (truthy rsv1)) r)
            else if truthy rsv1
            then Throw (protocol_error Msg_nonzero_reserved_bits) r
            else commit r
    | _ => Break r buf
    end
  else Next tt r buf.

(** [if self._state == READ_PAYLOAD_LENGTH:] *)
Definition read_payload_length (r : WebSocketReader) (buf : bytes)
  : flow unit :=
  if state_eqb (_state r) READ_PAYLOAD_LENGTH then
    let length_flag := _payload_length_flag r in
    let leave (r : WebSocketReader) (buf : bytes) :=
      Next tt
        (set__state (if _has_mask r then READ_PAYLOAD_MASK else READ_PAYLOAD)
           r)
        buf in
    if length_flag =? 126 then
      match buf with
      | b0 :: b1 :: rest =>
          leave
            (set__payload_length
               (Z.lor (Z.shiftl (byte_val b0) 8) (byte_val b1)) r)
            rest
      | _ => Break r buf
      end
    else if length_flag >? 126 then
      if len buf <? 8 then Break r buf
      else leave (set__payload_length (UNPACK_LEN3 (firstn 8 buf)) r)
             (skipn 8 buf)
    else leave (set__payload_length length_flag r) buf
  else Next tt r buf.

(** [if self._state == READ_PAYLOAD_MASK:] *)
Definition read_payload_mask (r : WebSocketReader) (buf : bytes)
  : flow unit :=
  if state_eqb (_state r) READ_PAYLOAD_MASK then
    if len buf <? 4 then Break r buf
    else
      Next tt
        (set__state READ_PAYLOAD (set__frame_mask (Some (firstn 4 buf)) r))
        (skipn 4 buf)
  else Next tt r buf.

Inductive parsed : Type :=
| Frames (frames : list (Frame B)) (r : WebSocketReader)
| ParseError (e : exn) (r : WebSocketReader).

Definition add_frame (frames : list (Frame B)) (f : option (Frame B))
  : list (Frame B) :=
  match f with
  | Some f => frames ++ [f]
  | None => frames
  end.

Inductive result : Type :=
| Done (r : WebSocketReader)
| Raised (e : exn) (r : WebSocketReader).

Definition _queue_feed_data (msg : WSMessage B) (r : WebSocketReader)
  : WebSocketReader :=
  set_queue (queue r ++ [q_feed_data msg]) r.

(** [WebSocketReader.feed_eof] *)
Definition feed_eof (r : WebSocketReader) : WebSocketReader :=
  set_queue (queue r ++ [q_feed_eof]) r.

End State.

Arguments mkReader {RT B}.
Arguments queue {RT B}.
Arguments _max_msg_size {RT B}.
Arguments _exc {RT B}.
Arguments _partial {RT B}.
Arguments _state {RT B}.
Arguments _opcode {RT B}.
Arguments _frame_fin {RT B}.
Arguments _frame_opcode {RT B}.
Arguments _frame_payload {RT B}.
Arguments _tail {RT B}.
Arguments _has_mask {RT B}.
Arguments _frame_mask {RT B}.
Arguments _payload_length {RT B}.
Arguments _payload_length_flag {RT B}.
Arguments _compressed {RT B}.
Arguments _decompressobj {RT B}.
Arguments _compress {RT B}.
Arguments set_queue {RT B}.
Arguments set__exc {RT B}.
Arguments set__partial {RT B}.
Arguments set__state {RT B}.
Arguments set__opcode {RT B}.
Arguments set__frame_fin {RT B}.
Arguments set__frame_opcode {RT B}.
Arguments set__frame_payload {RT B}.
Arguments set__tail {RT B}.
Arguments set__has_mask {RT B}.
Arguments set__frame_mask {RT B}.
Arguments set__payload_length {RT B}.
Arguments set__payload_length_flag {RT B}.
Arguments set__compressed {RT B}.
Arguments set__decompressobj {RT B}.
Arguments WebSocketReader {RT}.
Arguments flow {RT}.
Arguments Next {RT B A}.
Arguments Break {RT B A}.
Arguments Throw {RT B A}.
Arguments flow_bind {RT B X Y}.
Arguments read_header {RT B}.
Arguments read_payload_length {RT B}.
Arguments read_payload_mask {RT B}.
Arguments parsed {RT}.
Arguments Frames {RT B}.
Arguments ParseError {RT B}.
Arguments add_frame {B}.
Arguments result {RT}.
Arguments Done {RT B}.
Arguments Raised {RT B}.
Arguments _queue_feed_data {RT B}.
Arguments feed_eof {RT B}.

(** Lines 157-174, on the value of [assembled_payload]: inflate the
    payload of a compressed message, or copy it.  The inflater is created
    on first use and kept. *)
Definition merge_payload {RT : Runtime} {B : Type}
  (compressed : option bool) (assembled_payload : bytes)
  (r : WebSocketReader B) : (exn + bytes) * WebSocketReader B :=
  if opt_truthy compressed then
    let d :=
      match _decompressobj r with
      | Some d => d
      | None => new_ZLibDecompressor
      end in
    match
      decompress_sync d (assembled_payload ++ WS_DEFLATE_TRAILING)
        (_max_msg_size r)
    with
    | None => (inl zlib_error, set__decompressobj (Some d) r)
    | Some (d, payload_merged, unconsumed_tail) =>
        let r := set__decompressobj (Some d) r in
        if nonempty unconsumed_tail then
          let left := len unconsumed_tail in
          (inl
             (WebSocketError WSCloseCode.MESSAGE_TOO_BIG
                (Msg_decompressed_size_exceeds_limit
                   (_max_msg_size r + left) (_max_msg_size r))),
           r)
        else (inr payload_merged, r)
    end
  else (inr assembled_payload, r).

(** Lines 176-194: decode a text message and hand the message to the
    queue. *)
Definition deliver_data {RT : Runtime} {B : Type} (opcode : Z)
  (payload_merged : bytes) (r : WebSocketReader B) : result B :=
  if opcode =? OP_CODE_TEXT then
    match utf8_decode payload_merged with
    | None => Raised invalid_text r
    | Some text => Done (_queue_feed_data (WSMessageText text EmptyString) r)
    end
  else Done (_queue_feed_data (WSMessageBinary payload_merged EmptyString) r).

(** Lines 195-218, on the value of [payload]: a close frame. *)
Definition handle_close {RT : Runtime} {B : Type} (fin : bool) (opcode : Z)
  (payload : bytes) (r : WebSocketReader B) : result B :=
  if len payload >=? 2 then
    let close_code := UNPACK_CLOSE_CODE (firstn 2 payload) in
    if (close_code <? 3000) && negb (in_codes close_code ALLOWED_CLOSE_CODES)
    then Raised (protocol_error (Msg_invalid_close_code close_code)) r
    else
      match utf8_decode (skipn 2 payload) with
      | None => Raised invalid_text r
      | Some close_message =>
          Done (_queue_feed_data (WSMessageClose close_code close_message) r)
      end
  else if nonempty payload then
    Raised (protocol_error (Msg_invalid_close_frame fin opcode payload)) r
  else Done (_queue_feed_data (WSMessageClose 0 EmptyString) r).

(** The reader as a call of [parse_frame] leaves it, and as the handling
    of a frame leaves it, whether it returned or raised. *)
Definition parsed_reader {RT : Runtime} {B : Type} (p : parsed B)
  : WebSocketReader B :=
  match p with
  | Frames _ r => r
  | ParseError _ r => r
  end.

Definition flow_reader {RT : Runtime} {B A : Type} (x : flow B A)
  : WebSocketReader B :=
  match x with
  | Next _ r _ => r
  | Break r _ => r
  | Throw _ r => r
  end.

Definition result_reader {RT : Runtime} {B : Type} (x : result B)
  : WebSocketReader B :=
  match x with
  | Done r => r
  | Raised _ r => r
  end.

(** Passes that the loop of [parse_frame] can make over [buf]: every pass
    that starts in [READ_HEADER] and goes on reads two bytes, and every
    other pass that goes on ends in [READ_HEADER]. *)
Definition passes (buf : bytes) : nat := S (S (List.length buf)).

(** ** The reader on byte values

    Here a bytearray is its content. *)

Abbreviation Reader := (WebSocketReader bytes).

Section Reader.

Context {RT : Runtime}.

(** [WebSocketReader.__init__] *)
Definition init (q : DataQueue bytes) (max_msg_size : Z) (compress : bool)
  : Reader :=
  {| queue := q;
     _max_msg_size := max_msg_size;
     _exc := None;
     _partial := [];
     _state := READ_HEADER;
     _opcode := None;
     _frame_fin := false;
     _frame_opcode := None;
     _frame_payload := [];
     _tail := [];
     _has_mask := false;
     _frame_mask := None;
     _payload_length := 0;
     _payload_length_flag := 0;
     _compressed := None;
     _decompressobj := None;
     _compress := compress |}.

(** ** L1: the frame parser *)

(** [if self._state == READ_PAYLOAD:].  [payload] is the bytearray
    [self._frame_payload]; [+=] and [websocket_mask] change it in place
    until the attribute is bound to a new bytearray. *)
Definition read_payload (r : Reader) (buf : bytes)
  : flow bytes (option (Frame bytes)) :=
  if state_eqb (_state r) READ_PAYLOAD then
    let length := _payload_length r in
    let payload := _frame_payload r in
    let chunk_len := len buf in
    let '(r, buf) :=
      if length >=? chunk_len
      then (set__frame_payload (payload ++ buf)
              (set__payload_length (length - chunk_len) r),
            [])
      else (set__frame_payload (payload ++ firstn (Z.to_nat length) buf)
              (set__payload_length 0 r),
            skipn (Z.to_nat length) buf) in
    if negb (_payload_length r =? 0) then Break r buf
    else
      let emit (r : Reader) :=
        Next
          (Some
             (mkFrame (_frame_fin r) (_frame_opcode r) (_frame_payload r)
                (_compressed r)))
          (set__state READ_HEADER (set__frame_payload [] r))
          buf in
      if _has_mask r then
        match _frame_mask r with
        | None => Throw AssertionError r
        | Some mask =>
            emit
              (set__frame_payload (websocket_mask mask (_frame_payload r)) r)
        end
      else emit r
  else Next None r buf.

(** One pass through the loop body. *)
Definition parse_pass (r : Reader) (buf : bytes)
  : flow bytes (option (Frame bytes)) :=
  flow_bind (read_header r buf) (fun _ r buf =>
  flow_bind (read_payload_length r buf) (fun _ r buf =>
  flow_bind (read_payload_mask r buf) (fun _ r buf =>
  read_payload r buf))).

(** [while True:] with a bound on the number of passes; [None] when the
    bound is reached.  After [break], [self._tail = buf[start_pos:]]. *)
Fixpoint parse_loop (fuel : nat) (r : Reader) (buf : bytes)
  (frames : list (Frame bytes)) : option (parsed bytes) :=
  match fuel with
  | O => None
  | S fuel =>
      match parse_pass r buf with
      | Next f r buf => parse_loop fuel r buf (add_frame frames f)
      | Break r buf => Some (Frames frames (set__tail buf r))
      | Throw e r => Some (ParseError e r)
      end
  end.

(** [WebSocketReader.parse_frame].  The loop always ends within
    [passes buf] passes, so the last case is never taken. *)
Definition parse_frame (r : Reader) (buf : bytes) : parsed bytes :=
  let frames : list (Frame bytes) := [] in
  let '(r, buf) :=
    if nonempty (_tail r) then (set__tail [] r, _tail r ++ buf)
    else (r, buf) in
  match parse_loop (passes buf) r buf frames with
  | Some res => res
  | None => Frames frames r
  end.

(** ** L2 and L3: message assembly and payload finalization *)

(** Lines 123-194: a final data frame. *)
Definition finish_message (r : Reader) (opcode : Z) (is_continuation : bool)
  (payload : bytes) (compressed : option bool) : result bytes :=
  let has_partial := nonempty (_partial r) in
  let sequenced : exn + (Z * Reader) :=
    if is_continuation then
      match _opcode r with
      | None => inl (protocol_error Msg_continuation_non_started)
      | Some message_opcode => inr (message_opcode, set__opcode None r)
      end
    else if has_partial
    then inl (protocol_error (Msg_opcode_expected_zero opcode))
    else inr (opcode, r) in
  match sequenced with
  | inl e => Raised e r
  | inr (opcode, r) =>
      let '(assembled_payload, r) :=
        if has_partial
        then (_partial r ++ payload, set__partial [] r)
        else (payload, r) in
      if truthy (_max_msg_size r)
         && (len assembled_payload >=? _max_msg_size r)
      then Raised
             (message_too_big (len assembled_payload) (_max_msg_size r)) r
      else
        match merge_payload compressed assembled_payload r with
        | (inl e, r) => Raised e r
        | (inr payload_merged, r) => deliver_data opcode payload_merged r
        end
  end.

(** The body of [for frame in self.parse_frame(data):].  A frame whose
    opcode is [None] compares unequal to every opcode and reaches the last
    [else]. *)
Definition handle_frame (r : Reader) (frame : Frame bytes) : result bytes :=
  let fin := f_fin frame in
  let payload := f_payload frame in
  let compressed := f_compressed frame in
  match f_opcode frame with
  | None => Raised (protocol_error (Msg_unexpected_opcode None)) r
  | Some opcode =>
      let is_continuation := opcode =? OP_CODE_CONTINUATION in
      if (opcode =? OP_CODE_TEXT) || (opcode =? OP_CODE_BINARY)
         || is_continuation
      then
        if negb fin then
          let r := if negb is_continuation
                   then set__opcode (Some opcode) r else r in
          let r := set__partial (_partial r ++ payload) r in
          if truthy (_max_msg_size r)
             && (len (_partial r) >=? _max_msg_size r)
          then Raised
                 (message_too_big (len (_partial r)) (_max_msg_size r)) r
          else Done r
        else finish_message r opcode is_continuation payload compressed
      else if opcode =? OP_CODE_CLOSE then handle_close fin opcode payload r
      else if opcode =? OP_CODE_PING then
        Done (_queue_feed_data (WSMessagePing payload EmptyString) r)
      else if opcode =? OP_CODE_PONG then
        Done (_queue_feed_data (WSMessagePong payload EmptyString) r)
      else Raised (protocol_error (Msg_unexpected_opcode (Some opcode))) r
  end.

Fixpoint handle_frames (r : Reader) (frames : list (Frame bytes))
  : result bytes :=
  match frames with
  | [] => Done r
  | frame :: frames =>
      match handle_frame r frame with
      | Done r => handle_frames r frames
      | Raised e r => Raised e r
      end
  end.

(** [WebSocketReader._feed_data] *)
Definition _feed_data (r : Reader) (data : bytes) : result bytes :=
  match parse_frame r data with
  | ParseError e r => Raised e r
  | Frames frames r => handle_frames r frames
  end.

(** [WebSocketReader.feed_data].  The argument is already of type
    [bytes]: [bytes(data)] keeps the content of a bytearray or a
    memoryview. *)
Definition feed_data (r : Reader) (data : bytes) : (bool * bytes) * Reader :=
  match _exc r with
  | Some _ => ((true, data), r)
  | None =>
      match _feed_data r data with
      | Raised exc r =>
          let r := set__exc (Some exc) r in
          let r := set_queue (set_exception (queue r) exc) r in
          (EMPTY_FRAME_ERROR, r)
      | Done r => (EMPTY_FRAME, r)
      end
  end.

(** Feeding the chunks of a partitioned stream in order; the results of
    the calls are collected. *)
Fixpoint feed_all (r : Reader) (chunks : list bytes)
  : list (bool * bytes) * Reader :=
  match chunks with
  | [] => ([], r)
  | c :: chunks =>
      let '(res, r) := feed_data r c in
      let '(ress, r) := feed_all r chunks in
      (res :: ress, r)
  end.

End Reader.

(** ** The wire format *)

(** Modelled from the spec: a frame as it is laid out on the wire
    (section 6), used to describe the streams the reader is fed.  [w_mask]
    is the masking key of a masked frame and [w_payload] the payload of the
    application, before masking. *)
Record WireFrame : Type := mkWire {
  w_fin : bool;
  w_rsv1 : bool;
  w_opcode : Z;
  w_mask : option (byte * byte * byte * byte);
  w_payload : bytes
}.

Definition key_bytes (k : byte * byte * byte * byte) : bytes :=
  let '(k0, k1, k2, k3) := k in [k0; k1; k2; k3].

(** The [n] low bytes of [z], most significant first. *)
Fixpoint pack_be (n : nat) (z : Z) : bytes :=
  match n with
  | O => []
  | S n => pack_be n (z / 256) ++ [byte_of_Z z]
  end.

Definition encode_length (has_mask : bool) (n : Z) : bytes :=
  let m := if has_mask then 128 else 0 in
  if n <? 126 then [byte_of_Z (m + n)]
  else if n <? 65536 then byte_of_Z (m + 126) :: pack_be 2 n
  else byte_of_Z (m + 127) :: pack_be 8 n.

Definition encode_frame (w : WireFrame) : bytes :=
  byte_of_Z
    ((if w_fin w then 128 else 0) + (if w_rsv1 w then 64 else 0)
     + w_opcode w)
  :: encode_length
       (match w_mask w with Some _ => true | None => false end)
       (len (w_payload w))
  ++ match w_mask w with
     | Some k => key_bytes k ++ websocket_mask (key_bytes k) (w_payload w)
     | None => w_payload w
     end.

Definition encode_frames (ws : list WireFrame) : bytes :=
  List.concat (map encode_frame ws).

(** The raw frame the parser makes of a wire frame of a message that is
    not compressed. *)
Definition raw_frame (w : WireFrame) : Frame bytes :=
  mkFrame (w_fin w) (Some (w_opcode w)) (w_payload w) (Some false).

(** A data message that is not compressed, as the frames that carry it:
    one frame, or a first frame with the opcode of the message followed by
    continuation frames, the last one with fin = 1.  Each piece of the
    payload comes with the masking key of its frame, if any. *)
Definition piece : Type := option (byte * byte * byte * byte) * bytes.

Definition fragment (fin : bool) (opcode : Z) (p : piece) : WireFrame :=
  mkWire fin false opcode (fst p) (snd p).

Fixpoint continuations (pieces : list piece) : list WireFrame :=
  match pieces with
  | [] => []
  | p :: ps =>
      match ps with
      | [] => [fragment true OP_CODE_CONTINUATION p]
      | _ :: _ => fragment false OP_CODE_CONTINUATION p :: continuations ps
      end
  end.

Definition data_message (opcode : Z) (first : piece) (more : list piece)
  : list WireFrame :=
  match more with
  | [] => [fragment true opcode first]
  | _ :: _ => fragment false opcode first :: continuations more
  end.

Definition message_payload (first : piece) (more : list piece) : bytes :=
  snd first ++ List.concat (map snd more).

(** ** A concrete runtime *)

(** Strict UTF-8 as [bytes.decode("utf-8")] accepts it: shortest form
    only, no surrogates, nothing above U+10FFFF. *)
Definition in_range (lo hi : Z) (b : byte) : bool :=
  (lo <=? byte_val b) && (byte_val b <=? hi).

Fixpoint utf8_valid (l : bytes) : bool :=
  match l with
  | [] => true
  | b0 :: t0 =>
      if in_range 0 127 b0 then utf8_valid t0
      else
        match t0 with
        | [] => false
        | b1 :: t1 =>
            if in_range 194 223 b0 then in_range 128 191 b1 && utf8_valid t1
            else
              match t1 with
              | [] => false
              | b2 :: t2 =>
                  if in_range 224 239 b0 then
                    in_range
                      (if byte_val b0 =? 224 then 160 else 128)
                      (if byte_val b0 =? 237 then 159 else 191) b1
                    && in_range 128 191 b2 && utf8_valid t2
                  else
                    match t2 with
                    | [] => false
                    | b3 :: t3 =>
                        in_range 240 244 b0
                        && in_range
                             (if byte_val b0 =? 240 then 144 else 128)
                             (if byte_val b0 =? 244 then 143 else 191) b1
                        && in_range 128 191 b2 && in_range 128 191 b3
                        && utf8_valid t3
                    end
              end
        end
  end.

(** A Python [str] is held as its UTF-8 encoding. *)
Definition py_utf8_decode (data : bytes) : option string :=
  if utf8_valid data then Some (string_of_list_byte data) else None.

(** A runtime for concrete runs: Python's UTF-8 decoder, and an inflater
    that raises on every input. *)
Definition py_runtime : Runtime :=
  {| utf8_decode := py_utf8_decode;
     ZLibDecompressor := unit;
     new_ZLibDecompressor := tt;
     decompress_sync := fun _ _ _ => None |}.

(** The calls a run leaves on the queue. *)
Definition run {RT : Runtime} (max_msg_size : Z) (compress : bool)
  (chunks : list bytes) : list (bool * bytes) * DataQueue bytes :=
  let '(res, r) := feed_all (init [] max_msg_size compress) chunks in
  (res, queue r).

(** ** The reader on a store of bytearrays

    The same methods with every [bytearray] held by identity: [heap] lists
    the content of the bytearray objects the reader has created, and an
    attribute, a frame or a message that refers to one holds its index.
    Reads of header fields are the ones above; what differs is every
    place where a bytearray is created, changed in place, or read. *)

Module Store.

Abbreviation loc := nat.
Abbreviation heap := (list bytes).

(** The content of the bytearray object [l]. *)
Definition content (h : heap) (l : loc) : bytes := nth l h [].

(** In-place change of the content of the bytearray object [l]. *)
Fixpoint assign (h : heap) (l : loc) (v : bytes) : heap :=
  match h, l with
  | [], _ => []
  | _ :: h, O => v :: h
  | x :: h, S l => x :: assign h l v
  end.

(** [bytearray()] *)
Definition bytearray (h : heap) : loc * heap := (List.length h, h ++ [[]]).

(** [b += data] *)
Definition iadd (h : heap) (b : loc) (data : bytes) : heap :=
  assign h b (content h b ++ data).

Abbreviation SReader := (WebSocketReader loc).

Section Methods.

Context {RT : Runtime}.

(** [WebSocketReader.__init__] *)
Definition init (q : DataQueue loc) (max_msg_size : Z) (compress : bool)
  : SReader * heap :=
  let h : heap := [] in
  let '(partial, h) := bytearray h in
  let '(frame_payload, h) := bytearray h in
  ({| queue := q;
      _max_msg_size := max_msg_size;
      _exc := None;
      _partial := partial;
      _state := READ_HEADER;
      _opcode := None;
      _frame_fin := false;
      _frame_opcode := None;
      _frame_payload := frame_payload;
      _tail := [];
      _has_mask := false;
      _frame_mask := None;
      _payload_length := 0;
      _payload_length_flag := 0;
      _compressed := None;
      _decompressobj := None;
      _compress := compress |}, h).

(** [if self._state == READ_PAYLOAD:] *)
Definition read_payload (r : SReader) (buf : bytes) (h : heap)
  : flow loc (option (Frame loc)) * heap :=
  if state_eqb (_state r) READ_PAYLOAD then
    let length := _payload_length r in
    let payload := _frame_payload r in
    let chunk_len := len buf in
    let '(r, h, buf) :=
      if length >=? chunk_len
      then (set__payload_length (length - chunk_len) r, iadd h payload buf,
            [])
      else (set__payload_length 0 r,
            iadd h payload (firstn (Z.to_nat length) buf),
            skipn (Z.to_nat length) buf) in
    if negb (_payload_length r =? 0) then (Break r buf, h)
    else
      let emit (h : heap) :=
        let frame :=
          mkFrame (_frame_fin r) (_frame_opcode r) payload (_compressed r) in
        let '(fresh, h) := bytearray h in
        (Next (Some frame)
           (set__state READ_HEADER (set__frame_payload fresh r)) buf,
         h) in
      if _has_mask r then
        match _frame_mask r with
        | None => (Throw AssertionError r, h)
        | Some mask =>
            emit (assign h payload (websocket_mask mask (content h payload)))
        end
      else emit h
  else (Next None r buf, h).

(** One pass through the loop body. *)
Definition parse_pass (r : SReader) (buf : bytes) (h : heap)
  : flow loc (option (Frame loc)) * heap :=
  match
    flow_bind (read_header r buf) (fun _ r buf =>
    flow_bind (read_payload_length r buf) (fun _ r buf =>
    read_payload_mask r buf))
  with
  | Next _ r buf => read_payload r buf h
  | Break r buf => (Break r buf, h)
  | Throw e r => (Throw e r, h)
  end.

Fixpoint parse_loop (fuel : nat) (r : SReader) (buf : bytes) (h : heap)
  (frames : list (Frame loc)) : option (parsed loc * heap) :=
  match fuel with
  | O => None
  | S fuel =>
      match parse_pass r buf h with
      | (Next f r buf, h) => parse_loop fuel r buf h (add_frame frames f)
      | (Break r buf, h) => Some (Frames frames (set__tail buf r), h)
      | (Throw e r, h) => Some (ParseError e r, h)
      end
  end.

(** [WebSocketReader.parse_frame] *)
Definition parse_frame (r : SReader) (buf : bytes) (h : heap)
  : parsed loc * heap :=
  let frames : list (Frame loc) := [] in
  let '(r, buf) :=
    if nonempty (_tail r) then (set__tail [] r, _tail r ++ buf)
    else (r, buf) in
  match parse_loop (passes buf) r buf h frames with
  | Some res => res
  | None => (Frames frames r, h)
  end.

(** Lines 123-194: a final data frame. *)
Definition finish_message (r : SReader) (h : heap) (opcode : Z)
  (is_continuation : bool) (payload : loc) (compressed : option bool)
  : result loc * heap :=
  let has_partial := nonempty (content h (_partial r)) in
  let sequenced : exn + (Z * SReader) :=
    if is_continuation then
      match _opcode r with
      | None => inl (protocol_error Msg_continuation_non_started)
      | Some message_opcode => inr (message_opcode, set__opcode None r)
      end
    else if has_partial
    then inl (protocol_error (Msg_opcode_expected_zero opcode))
    else inr (opcode, r) in
  match sequenced with
  | inl e => (Raised e r, h)
  | inr (opcode, r) =>
      let '(assembled_payload, h) :=
        if has_partial
        then (content h (_partial r) ++ content h payload,
              assign h (_partial r) [])
        else (content h payload, h) in
      if truthy (_max_msg_size r)
         && (len assembled_payload >=? _max_msg_size r)
      then (Raised
              (message_too_big (len assembled_payload) (_max_msg_size r)) r,
            h)
      else
        match merge_payload compressed assembled_payload r with
        | (inl e, r) => (Raised e r, h)
        | (inr payload_merged, r) => (deliver_data opcode payload_merged r, h)
        end
  end.

(** The body of [for frame in self.parse_frame(data):]. *)
Definition handle_frame (r : SReader) (h : heap) (frame : Frame loc)
  : result loc * heap :=
  let fin := f_fin frame in
  let payload := f_payload frame in
  let compressed := f_compressed frame in
  match f_opcode frame with
  | None => (Raised (protocol_error (Msg_unexpected_opcode None)) r, h)
  | Some opcode =>
      let is_continuation := opcode =? OP_CODE_CONTINUATION in
      if (opcode =? OP_CODE_TEXT) || (opcode =? OP_CODE_BINARY)
         || is_continuation
      then
        if negb fin then
          let r := if negb is_continuation
                   then set__opcode (Some opcode) r else r in
          let h := iadd h (_partial r) (content h payload) in
          if truthy (_max_msg_size r)
             && (len (content h (_partial r)) >=? _max_msg_size r)
          then (Raised
                  (message_too_big (len (content h (_partial r)))
                     (_max_msg_size r)) r,
                h)
          else (Done r, h)
        else finish_message r h opcode is_continuation payload compressed
      else if opcode =? OP_CODE_CLOSE
      then (handle_close fin opcode (content h payload) r, h)
      else if opcode =? OP_CODE_PING then
        (Done (_queue_feed_data (WSMessagePing payload EmptyString) r), h)
      else if opcode =? OP_CODE_PONG then
        (Done (_queue_feed_data (WSMessagePong payload EmptyString) r), h)
      else
        (Raised (protocol_error (Msg_unexpected_opcode (Some opcode))) r, h)
  end.

Fixpoint handle_frames (r : SReader) (h : heap) (frames : list (Frame loc))
  : result loc * heap :=
  match frames with
  | [] => (Done r, h)
  | frame :: frames =>
      match handle_frame r h frame with
      | (Done r, h) => handle_frames r h frames
      | (Raised e r, h) => (Raised e r, h)
      end
  end.

(** [WebSocketReader._feed_data] *)
Definition _feed_data (r : SReader) (data : bytes) (h : heap)
  : result loc * heap :=
  match parse_frame r data h with
  | (ParseError e r, h) => (Raised e r, h)
  | (Frames frames r, h) => handle_frames r h frames
  end.

(** [WebSocketReader.feed_data] *)
Definition feed_data (r : SReader) (data : bytes) (h : heap)
  : (bool * bytes) * SReader * heap :=
  match _exc r with
  | Some _ => ((true, data), r, h)
  | None =>
      match _feed_data r data h with
      | (Raised exc r, h) =>
          let r := set__exc (Some exc) r in
          let r := set_queue (set_exception (queue r) exc) r in
          (EMPTY_FRAME_ERROR, r, h)
      | (Done r, h) => (EMPTY_FRAME, r, h)
      end
  end.

(** A bytearray the reader no longer refers to. *)
Definition detached (r : SReader) (h : heap) (l : loc) : Prop :=
  (l < List.length h)%nat /\ l <> _frame_payload r /\ l <> _partial r.

(** The two bytearrays of the reader are distinct objects of the store. *)
Definition well_formed (r : SReader) (h : heap) : Prop :=
  (_frame_payload r < List.length h)%nat
  /\ (_partial r < List.length h)%nat
  /\ _frame_payload r <> _partial r.

(** A later state of the reader: any number of calls of its methods, and
    of the handling of a frame inside [_feed_data]. *)
Inductive later : SReader * heap -> SReader * heap -> Prop :=
| later_now : forall s, later s s
| later_feed_data : forall r h data res r1 h1 s,
    feed_data r data h = (res, r1, h1) -> later (r1, h1) s -> later (r, h) s
| later_parse_frame : forall r h buf p h1 s,
    parse_frame r buf h = (p, h1) ->
    later (parsed_reader p, h1) s -> later (r, h) s
| later_handle_frame : forall r h frame x h1 s,
    handle_frame r h frame = (x, h1) ->
    later (result_reader x, h1) s -> later (r, h) s
| later_feed_eof : forall r h s,
    later (feed_eof r, h) s -> later (r, h) s.

(** From [(r, h)] to [(r', h')] the reader stays well formed, the store
    only grows, and every bytearray the reader does not refer to stays
    that way and keeps its content. *)
Definition keeps (r : SReader) (h : heap) (r' : SReader) (h' : heap)
  : Prop :=
  well_formed r' h'
  /\ (List.length h <= List.length h')%nat
  /\ forall l, detached r h l ->
               detached r' h' l /\ content h' l = content h l.

(** The bytearrays that the messages on the queue are built on: a ping
    or a pong holds the payload bytearray of its frame. *)
Definition message_buffer (c : queue_call loc) : list loc :=
  match c with
  | q_feed_data (WSMessagePing data _) => [data]
  | q_feed_data (WSMessagePong data _) => [data]
  | _ => []
  end.

Definition queue_buffers (q : DataQueue loc) : list loc :=
  List.concat (map message_buffer q).

(** Feeding the chunks of a partitioned stream in order. *)
Fixpoint feed_all (r : SReader) (chunks : list bytes) (h : heap)
  : list (bool * bytes) * SReader * heap :=
  match chunks with
  | [] => ([], r, h)
  | c :: chunks =>
      let '(res, r, h) := feed_data r c h in
      let '(ress, r, h) := feed_all r chunks h in
      (res :: ress, r, h)
  end.

(** The reader on byte values that a reader on the store stands for:
    every bytearray is replaced by its content. *)
Definition message_value (h : heap) (m : WSMessage loc) : WSMessage bytes :=
  match m with
  | WSMessageText data extra => WSMessageText data extra
  | WSMessageBinary data extra => WSMessageBinary data extra
  | WSMessagePing data extra => WSMessagePing (content h data) extra
  | WSMessagePong data extra => WSMessagePong (content h data) extra
  | WSMessageClose data extra => WSMessageClose data extra
  end.

Definition call_value (h : heap) (c : queue_call loc) : queue_call bytes :=
  match c with
  | q_feed_data msg => q_feed_data (message_value h msg)
  | q_set_exception exc => q_set_exception exc
  | q_feed_eof => q_feed_eof
  end.

Definition frame_value (h : heap) (f : Frame loc) : Frame bytes :=
  mkFrame (f_fin f) (f_opcode f) (content h (f_payload f)) (f_compressed f).

Definition value (h : heap) (r : SReader) : Reader :=
  {| queue := map (call_value h) (queue r);
     _max_msg_size := _max_msg_size r;
     _exc := _exc r;
     _partial := content h (_partial r);
     _state := _state r;
     _opcode := _opcode r;
     _frame_fin := _frame_fin r;
     _frame_opcode := _frame_opcode r;
     _frame_payload := content h (_frame_payload r);
     _tail := _tail r;
     _has_mask := _has_mask r;
     _frame_mask := _frame_mask r;
     _payload_length := _payload_length r;
     _payload_length_flag := _payload_length_flag r;
     _compressed := _compressed r;
     _decompressobj := _decompressobj r;
     _compress := _compress r |}.

Definition flow_value {A C : Type} (g : A -> C) (h : heap) (x : flow loc A)
  : flow bytes C :=
  match x with
  | Next a r buf => Next (g a) (value h r) buf
  | Break r buf => Break (value h r) buf
  | Throw e r => Throw e (value h r)
  end.

Definition parsed_value (h : heap) (p : parsed loc) : parsed bytes :=
  match p with
  | Frames frames r => Frames (map (frame_value h) frames) (value h r)
  | ParseError e r => ParseError e (value h r)
  end.

Definition result_value (h : heap) (x : result loc) : result bytes :=
  match x with
  | Done r => Done (value h r)
  | Raised e r => Raised e (value h r)
  end.

(** The reader is well formed and the messages on its queue are built on
    bytearrays it no longer refers to. *)
Definition sound (r : SReader) (h : heap) : Prop :=
  well_formed r h /\ Forall (detached r h) (queue_buffers (queue r)).

End Methods.

End Store.

(** ** Auxiliary definitions for the proofs *)

Section Auxiliary.

Context {RT : Runtime}.

(** The loop body from its second and from its third block on. *)
Definition from_length (r : Reader) (buf : bytes)
  : flow bytes (option (Frame bytes)) :=
  flow_bind (read_payload_length r buf) (fun _ r buf =>
  flow_bind (read_payload_mask r buf) (fun _ r buf =>
  read_payload r buf)).

Definition from_mask (r : Reader) (buf : bytes)
  : flow bytes (option (Frame bytes)) :=
  flow_bind (read_payload_mask r buf) (fun _ r buf => read_payload r buf).

(** The end of the last block: the frame is complete once [taken] is
    added to its payload, and [rest] is left in the buffer. *)
Definition emit_frame (r : Reader) (taken rest : bytes)
  : flow bytes (option (Frame bytes)) :=
  let r :=
    set__frame_payload (_frame_payload r ++ taken) (set__payload_length 0 r)
  in
  let emit (r : Reader) :=
    Next
      (Some
         (mkFrame (_frame_fin r) (_frame_opcode r) (_frame_payload r)
            (_compressed r)))
      (set__state READ_HEADER (set__frame_payload [] r))
      rest in
  if _has_mask r then
    match _frame_mask r with
    | None => Throw AssertionError r
    | Some mask =>
        emit (set__frame_payload (websocket_mask mask (_frame_payload r)) r)
    end
  else emit r.

(** The part of the payload that is in the buffer is added to the frame
    in progress. *)
Definition take_payload (r : Reader) (buf : bytes) : Reader :=
  set__frame_payload (_frame_payload r ++ buf)
    (set__payload_length (_payload_length r - len buf) r).

(** A bound on the passes that are left: the unread bytes, and one more
    pass when the reader is inside a frame. *)
Definition weight (r : Reader) (buf : bytes) : nat :=
  (List.length buf
   + match _state r with READ_HEADER => 0 | _ => 1 end)%nat.

(** The loop of [parse_frame] gives [x] for some bound on its passes. *)
Definition parses (r : Reader) (buf : bytes) (frames : list (Frame bytes))
  (x : parsed bytes) : Prop :=
  exists fuel, parse_loop fuel r buf frames = Some x.

(** Frames put in front of the frames of a result. *)
Definition prepend (pre : list (Frame bytes)) (x : parsed bytes)
  : parsed bytes :=
  match x with
  | Frames frames r => Frames (pre ++ frames) r
  | ParseError e r => ParseError e r
  end.

(** The reader with the parser attributes of [a] and the other attributes
    (queue, limits, message assembly, latch) of [b]. *)
Definition graft (a b : Reader) : Reader :=
  {| queue := queue b;
     _max_msg_size := _max_msg_size b;
     _exc := _exc b;
     _partial := _partial b;
     _state := _state a;
     _opcode := _opcode b;
     _frame_fin := _frame_fin a;
     _frame_opcode := _frame_opcode a;
     _frame_payload := _frame_payload a;
     _tail := _tail a;
     _has_mask := _has_mask a;
     _frame_mask := _frame_mask a;
     _payload_length := _payload_length a;
     _payload_length_flag := _payload_length_flag a;
     _compressed := _compressed a;
     _decompressobj := _decompressobj b;
     _compress := _compress a |}.

Definition flow_map {A : Type} (g : Reader -> Reader)
  (m : flow bytes A) : flow bytes A :=
  match m with
  | Next a r buf => Next a (g r) buf
  | Break r buf => Break (g r) buf
  | Throw e r => Throw e (g r)
  end.

Definition parsed_map (g : Reader -> Reader) (x : parsed bytes)
  : parsed bytes :=
  match x with
  | Frames frames r => Frames frames (g r)
  | ParseError e r => ParseError e (g r)
  end.

Definition result_map (g : Reader -> Reader) (x : result bytes)
  : result bytes :=
  match x with
  | Done r => Done (g r)
  | Raised e r => Raised e (g r)
  end.

(** What the caller and the sink can see of a reader: the calls made on
    the queue and the latched error. *)
Definition observe (r : Reader) : DataQueue bytes * option exn :=
  (queue r, _exc r).

(** The reader as the [except] clause of [feed_data] leaves it. *)
Definition latch (exc : exn) (r : Reader) : Reader :=
  set_queue (set_exception (queue r) exc) (set__exc (Some exc) r).

(** A reader whose tail holds nothing the parser can go on with. *)
Definition settled (r : Reader) : Prop := parse_frame r [] = Frames [] r.

(** A wire frame the header checks accept, from a stream that is not
    compressed. *)
Definition wire_ok (w : WireFrame) : Prop :=
  w_rsv1 w = false
  /\ 0 <= w_opcode w < 16
  /\ (7 < w_opcode w -> w_fin w = true /\ len (w_payload w) <= 125)
  /\ len (w_payload w) < 2 ^ 64.

(** A reader between two frames of a stream that is not compressed. *)
Definition idle (r : Reader) : Prop :=
  _state r = READ_HEADER /\ _frame_payload r = [] /\ _tail r = []
  /\ _compressed r <> Some true.

(** The attributes of the frame in progress that the blocks after the
    header block only read. *)
Definition frame_fields (r : Reader)
  : bool * option Z * bool * option bool * bytes * bytes :=
  (_frame_fin r, _frame_opcode r, _has_mask r, _compressed r,
   _frame_payload r, _tail r).

(** The reader with the calls [q] put in front of its queue. *)
Definition requeue (q : DataQueue bytes) (r : Reader) : Reader :=
  set_queue (q ++ queue r) r.

(** A data frame with fin = 0. *)
Definition nonfin_data (f : Frame bytes) : Prop :=
  f_fin f = false
  /\ (f_opcode f = Some OP_CODE_CONTINUATION \/ f_opcode f = Some OP_CODE_TEXT
      \/ f_opcode f = Some OP_CODE_BINARY).

(** The payload length flag of a frame with a payload of [n] bytes. *)
Definition length_flag (n : Z) : Z :=
  if n <? 126 then n else if n <? 65536 then 126 else 127.

Definition has_key (w : WireFrame) : bool :=
  match w_mask w with Some _ => true | None => false end.

End Auxiliary.

(** ** Invariants of the reader *)

Section Invariants.

Context {RT : Runtime}.

(** A reader between two passes of the parser loop: the masking key is
    there when the payload of a masked frame is read, and the payload
    bytearray is empty until then. *)
Definition coherent (r : Reader) : Prop :=
  (_state r = READ_PAYLOAD -> _has_mask r = true -> _frame_mask r <> None)
  /\ (_state r <> READ_PAYLOAD -> _frame_payload r = []).

(** The three errors of the header block. *)
Definition header_error (e : exn) : Prop :=
  e = protocol_error Msg_nonzero_reserved_bits
  \/ e = protocol_error Msg_fragmented_control_frame
  \/ e = protocol_error Msg_control_frame_too_large.

(** The errors a reader can latch: a WebSocket error with one of three
    close codes, or what the inflater raises. *)
Definition reader_error (e : exn) : Prop :=
  match e with
  | WebSocketError code _ =>
      code = WSCloseCode.PROTOCOL_ERROR \/ code = WSCloseCode.MESSAGE_TOO_BIG
      \/ code = WSCloseCode.INVALID_TEXT
  | AssertionError => False
  | zlib_error => True
  end.

(** A reader for which compression is not negotiated and that has
    neither marked a frame compressed nor made an inflater. *)
Definition plain (r : Reader) : Prop :=
  _compress r = false /\ _compressed r <> Some true
  /\ _decompressobj r = None.

(** The end of the queue of a reader: the error it has latched, reported
    by [set_exception]. *)
Definition reported (r : Reader) : DataQueue bytes :=
  match _exc r with
  | Some exc => [q_set_exception exc]
  | None => []
  end.

(** An opcode that is none of the six the reader knows. *)
Definition unknown_opcode (opcode : Z) : bool :=
  negb ((opcode =? OP_CODE_CONTINUATION) || (opcode =? OP_CODE_TEXT)
        || (opcode =? OP_CODE_BINARY) || (opcode =? OP_CODE_CLOSE)
        || (opcode =? OP_CODE_PING) || (opcode =? OP_CODE_PONG)).

(** What the reader holds when the loop of [parse_frame] breaks with
    [buf] unread: a part of a header field, or nothing when it is inside a
    payload. *)
Definition short_tail (r : Reader) (buf : bytes) : Prop :=
  match _state r with
  | READ_HEADER => len buf < 2
  | READ_PAYLOAD_LENGTH =>
      126 <= _payload_length_flag r
      /\ len buf < (if _payload_length_flag r =? 126 then 2 else 8)
  | READ_PAYLOAD_MASK => len buf < 4
  | READ_PAYLOAD => buf = [] /\ 0 < _payload_length r
  end.

(** The inflater a compressed message is given to: the one the reader
    has kept, or a new one. *)
Definition inflater (r : Reader) : ZLibDecompressor :=
  match _decompressobj r with
  | Some d => d
  | None => new_ZLibDecompressor
  end.

End Invariants.

(** A runtime for concrete runs of the path of compressed messages: its
    inflater gives back its input and counts its calls. *)
Definition copy_runtime : Runtime :=
  {| utf8_decode := py_utf8_decode;
     ZLibDecompressor := nat;
     new_ZLibDecompressor := O;
     decompress_sync := fun d data _ => Some (S d, data, []) |}.

(** * Properties *)

(** ** Records and control flow *)

(** Attribute assignments are evaluated on a reader that is given by its
    attributes, innermost first. *)
Ltac reader_cbv :=
  cbv beta iota zeta delta
    [set_queue set__exc set__partial set__state set__opcode set__frame_fin
     set__frame_opcode set__frame_payload set__tail set__has_mask
     set__frame_mask set__payload_length set__payload_length_flag
     set__compressed set__decompressobj _queue_feed_data feed_eof
     queue _max_msg_size _exc _partial _state _opcode _frame_fin
     _frame_opcode _frame_payload _tail _has_mask _frame_mask
     _payload_length _payload_length_flag _compressed _decompressobj
     _compress] in *.

Ltac crush_reader r := destruct r; reader_cbv.

Lemma len_app {A : Type} (a b : list A) : len (a ++ b) = len a + len b.
Proof. unfold len. rewrite length_app. lia. Qed.

Lemma len_nonneg {A : Type} (a : list A) : 0 <= len a.
Proof. unfold len. lia. Qed.

Lemma len_nil {A : Type} : len (@nil A) = 0.
Proof. reflexivity. Qed.

Lemma len_cons {A : Type} (x : A) (l : list A) : len (x :: l) = 1 + len l.
Proof. unfold len. cbn [List.length]. lia. Qed.

Lemma nonempty_false {A : Type} (l : list A) : nonempty l = false -> l = [].
Proof. destruct l; [reflexivity | discriminate]. Qed.

Section ParserResumption.

Context {RT : Runtime}.

Lemma set_tail_id (r : Reader) : _tail r = [] -> set__tail [] r = r.
Proof. destruct r; cbn. intros ->. reflexivity. Qed.

(** The first three blocks leave the reader and the buffer alone when
    they break. *)
Lemma read_header_break (r r' : Reader) buf buf' :
  read_header r buf = Break r' buf' ->
  r' = r /\ buf' = buf /\ _state r = READ_HEADER /\ len buf < 2.
Proof.
  unfold read_header.
  destruct (_state r) eqn:Hs; cbn [state_eqb]; try discriminate.
  destruct buf as [|b0 [|b1 rest]].
  - intros H; inversion H; subst. rewrite !len_nil. repeat split; lia.
  - intros H; inversion H; subst. rewrite !len_cons, len_nil.
    repeat split; lia.
  - repeat (match goal with
            | |- context [if ?c then _ else _] => destruct c
            end; try discriminate).
Qed.

End ParserResumption.

(** ** The parser resumes where it stopped *)

Section ParserStages.

Context {RT : Runtime}.

Ltac split_ifs :=
  repeat match goal with
         | |- context [if ?c then _ else _] => destruct c eqn:?
         end.

Lemma read_header_skip (r : Reader) buf :
  _state r <> READ_HEADER -> read_header r buf = Next tt r buf.
Proof.
  unfold read_header. destruct (_state r); cbn [state_eqb]; congruence.
Qed.

Lemma read_payload_length_skip (r : Reader) buf :
  _state r <> READ_PAYLOAD_LENGTH -> read_payload_length r buf = Next tt r buf.
Proof.
  unfold read_payload_length.
  destruct (_state r); cbn [state_eqb]; congruence.
Qed.

Lemma read_payload_mask_skip (r : Reader) buf :
  _state r <> READ_PAYLOAD_MASK -> read_payload_mask r buf = Next tt r buf.
Proof.
  unfold read_payload_mask.
  destruct (_state r); cbn [state_eqb]; congruence.
Qed.

Lemma read_payload_skip (r : Reader) buf :
  _state r <> READ_PAYLOAD -> read_payload r buf = Next None r buf.
Proof.
  unfold read_payload. destruct (_state r); cbn [state_eqb]; congruence.
Qed.

Lemma read_payload_length_break (r r' : Reader) buf buf' :
  read_payload_length r buf = Break r' buf' ->
  r' = r /\ buf' = buf /\ _state r = READ_PAYLOAD_LENGTH.
Proof.
  unfold read_payload_length.
  destruct (_state r) eqn:Hs; cbn [state_eqb]; try discriminate.
  split_ifs; try discriminate.
  - destruct buf as [|b0 [|b1 rest]]; try discriminate;
      intros H; inversion H; auto.
  - intros H; inversion H; auto.
Qed.

Lemma read_payload_mask_break (r r' : Reader) buf buf' :
  read_payload_mask r buf = Break r' buf' ->
  r' = r /\ buf' = buf /\ _state r = READ_PAYLOAD_MASK.
Proof.
  unfold read_payload_mask.
  destruct (_state r) eqn:Hs; cbn [state_eqb]; try discriminate.
  split_ifs; try discriminate. intros H; inversion H; auto.
Qed.

(** What a block that goes on has done. *)
Lemma read_header_next (r r' : Reader) buf buf' u :
  read_header r buf = Next u r' buf' ->
  (_state r <> READ_HEADER /\ r' = r /\ buf' = buf)
  \/ (_state r = READ_HEADER /\ _state r' = READ_PAYLOAD_LENGTH
      /\ _tail r' = _tail r
      /\ exists b0 b1, buf = b0 :: b1 :: buf').
Proof.
  unfold read_header.
  destruct (_state r) eqn:Hs; cbn [state_eqb];
    try (intros H; inversion H; left; repeat split; congruence).
  destruct buf as [|b0 [|b1 rest]]; try discriminate.
  split_ifs; try discriminate; intros H; inversion H; subst; right;
    (split; [reflexivity|split; [destruct r; reflexivity|
       split; [destruct r; reflexivity|eauto]]]).
Qed.

Lemma read_payload_length_next (r r' : Reader) buf buf' u :
  read_payload_length r buf = Next u r' buf' ->
  (_state r <> READ_PAYLOAD_LENGTH /\ r' = r /\ buf' = buf)
  \/ (_state r = READ_PAYLOAD_LENGTH
      /\ (_state r' = READ_PAYLOAD_MASK \/ _state r' = READ_PAYLOAD)
      /\ _tail r' = _tail r
      /\ exists pre, buf = pre ++ buf').
Proof.
  unfold read_payload_length.
  destruct (_state r) eqn:Hs; cbn [state_eqb];
    try (intros H; inversion H; left; repeat split; congruence).
  assert (Hm : forall (x : Reader) v,
             let y := set__state (if _has_mask (set__payload_length v x)
                                  then READ_PAYLOAD_MASK else READ_PAYLOAD)
                        (set__payload_length v x) in
             (_state y = READ_PAYLOAD_MASK \/ _state y = READ_PAYLOAD)
             /\ _tail y = _tail x).
  { intros x v. destruct x as [? ? ? ? ? ? ? ? ? ? hm ? ? ? ? ? ?]; cbn.
    destruct hm; auto. }
  destruct (_payload_length_flag r =? 126) eqn:H126.
  - destruct buf as [|b0 [|b1 rest]]; try discriminate.
    intros H; injection H as Hu Hr Hb; subst r' buf'; right.
    split; [reflexivity|].
    destruct (Hm r (Z.lor (Z.shiftl (byte_val b0) 8) (byte_val b1)))
      as [H1 H2].
    split; [exact H1|split; [exact H2|]].
    exists [b0; b1]. reflexivity.
  - destruct (_payload_length_flag r >? 126) eqn:H127.
    + destruct (len buf <? 8) eqn:H8; try discriminate.
      intros H; injection H as Hu Hr Hb; subst r' buf'; right.
      split; [reflexivity|].
      destruct (Hm r (UNPACK_LEN3 (firstn 8 buf))) as [H1 H2].
      split; [exact H1|split; [exact H2|]].
      exists (firstn 8 buf). symmetry. apply firstn_skipn.
    + intros H; injection H as Hu Hr Hb; subst r' buf'; right.
      split; [reflexivity|].
      destruct (Hm r (_payload_length_flag r)) as [H1 H2].
      split; [exact H1|split; [exact H2|]].
      exists []. reflexivity.
Qed.

Lemma read_payload_mask_next (r r' : Reader) buf buf' u :
  read_payload_mask r buf = Next u r' buf' ->
  (_state r <> READ_PAYLOAD_MASK /\ r' = r /\ buf' = buf)
  \/ (_state r = READ_PAYLOAD_MASK /\ _state r' = READ_PAYLOAD
      /\ _tail r' = _tail r
      /\ exists pre, buf = pre ++ buf').
Proof.
  unfold read_payload_mask.
  destruct (_state r) eqn:Hs; cbn [state_eqb];
    try (intros H; inversion H; left; repeat split; congruence).
  destruct (len buf <? 4) eqn:H4; try discriminate.
  intros H; inversion H; subst; right.
  split; [reflexivity|split; [destruct r; reflexivity|split]].
  - destruct r; reflexivity.
  - exists (firstn 4 buf). symmetry. apply firstn_skipn.
Qed.

(** More bytes behind the buffer do not change a block that goes on or
    raises. *)
Lemma read_header_next_app (r r' : Reader) buf buf' u d :
  read_header r buf = Next u r' buf' ->
  read_header r (buf ++ d) = Next u r' (buf' ++ d).
Proof.
  unfold read_header.
  destruct (state_eqb (_state r) READ_HEADER);
    [|intros H; inversion H; reflexivity].
  destruct buf as [|b0 [|b1 rest]]; try discriminate.
  cbn [app]. split_ifs; try discriminate;
    intros H; inversion H; reflexivity.
Qed.

Lemma read_header_throw_app (r r' : Reader) buf e d :
  read_header r buf = @Throw _ _ unit e r' ->
  read_header r (buf ++ d) = Throw e r'.
Proof.
  unfold read_header.
  destruct (state_eqb (_state r) READ_HEADER); try discriminate.
  destruct buf as [|b0 [|b1 rest]]; try discriminate.
  cbn [app]. split_ifs; try discriminate;
    intros H; inversion H; reflexivity.
Qed.

Lemma firstn_app_le {A : Type} (n : nat) (a b : list A) :
  (n <= List.length a)%nat -> firstn n (a ++ b) = firstn n a.
Proof.
  intros H. rewrite firstn_app.
  replace (n - List.length a)%nat with 0%nat by lia.
  cbn. apply app_nil_r.
Qed.

Lemma skipn_app_le {A : Type} (n : nat) (a b : list A) :
  (n <= List.length a)%nat -> skipn n (a ++ b) = skipn n a ++ b.
Proof.
  intros H. rewrite skipn_app.
  replace (n - List.length a)%nat with 0%nat by lia.
  reflexivity.
Qed.

Lemma read_payload_length_next_app (r r' : Reader) buf buf' u d :
  read_payload_length r buf = Next u r' buf' ->
  read_payload_length r (buf ++ d) = Next u r' (buf' ++ d).
Proof.
  unfold read_payload_length.
  destruct (state_eqb (_state r) READ_PAYLOAD_LENGTH);
    [|intros H; inversion H; reflexivity].
  destruct (_payload_length_flag r =? 126).
  - destruct buf as [|b0 [|b1 rest]]; try discriminate.
    cbn [app]. intros H; inversion H; reflexivity.
  - destruct (_payload_length_flag r >? 126).
    + destruct (len buf <? 8) eqn:H8; try discriminate.
      apply Z.ltb_ge in H8. unfold len in H8.
      assert (Hd : (len (buf ++ d) <? 8) = false).
      { apply Z.ltb_ge. rewrite len_app. pose proof (len_nonneg d).
        unfold len in *. lia. }
      rewrite Hd. rewrite firstn_app_le, skipn_app_le by lia.
      intros H; inversion H; reflexivity.
    + intros H; inversion H; reflexivity.
Qed.

Lemma read_payload_length_throw (r r' : Reader) buf e :
  read_payload_length r buf = @Throw _ _ unit e r' -> False.
Proof.
  unfold read_payload_length. split_ifs; try discriminate.
  destruct buf as [|b0 [|b1 rest]]; discriminate.
Qed.

Lemma read_payload_mask_next_app (r r' : Reader) buf buf' u d :
  read_payload_mask r buf = Next u r' buf' ->
  read_payload_mask r (buf ++ d) = Next u r' (buf' ++ d).
Proof.
  unfold read_payload_mask.
  destruct (state_eqb (_state r) READ_PAYLOAD_MASK);
    [|intros H; inversion H; reflexivity].
  destruct (len buf <? 4) eqn:H4; try discriminate.
  apply Z.ltb_ge in H4. unfold len in H4.
  assert (Hd : (len (buf ++ d) <? 4) = false).
  { apply Z.ltb_ge. rewrite len_app. pose proof (len_nonneg d).
    unfold len in *. lia. }
  rewrite Hd. rewrite firstn_app_le, skipn_app_le by lia.
  intros H; inversion H; reflexivity.
Qed.

Lemma read_payload_mask_throw (r r' : Reader) buf e :
  read_payload_mask r buf = @Throw _ _ unit e r' -> False.
Proof. unfold read_payload_mask. split_ifs; discriminate. Qed.

End ParserStages.

Section ParserPasses.

Context {RT : Runtime}.

Lemma read_payload_cases (r : Reader) buf :
  _state r = READ_PAYLOAD ->
  read_payload r buf =
  if _payload_length r >? len buf then Break (take_payload r buf) []
  else emit_frame r (firstn (Z.to_nat (_payload_length r)) buf)
         (skipn (Z.to_nat (_payload_length r)) buf).
Proof.
  intros Hs. unfold read_payload, emit_frame, take_payload. rewrite Hs.
  cbn [state_eqb].
  destruct (_payload_length r >=? len buf) eqn:Hge.
  - destruct (_payload_length r >? len buf) eqn:Hgt.
    + assert (Hz : (_payload_length r - len buf =? 0) = false) by lia.
      destruct r; cbn in *. rewrite Hz. reflexivity.
    + assert (Hz : _payload_length r = len buf) by lia.
      assert (Hn : Z.to_nat (_payload_length r) = List.length buf)
        by (rewrite Hz; unfold len; lia).
      rewrite Hn, firstn_all, skipn_all.
      destruct r; cbn in *. subst. rewrite Z.sub_diag. reflexivity.
  - assert (Hgt : (_payload_length r >? len buf) = false) by lia.
    rewrite Hgt. destruct r; reflexivity.
Qed.

Lemma emit_frame_rest (r r' : Reader) taken rest rest' f d :
  emit_frame r taken rest = Next f r' rest' ->
  emit_frame r taken (rest ++ d) = Next f r' (rest' ++ d).
Proof.
  unfold emit_frame.
  repeat match goal with
         | |- context [if ?c then _ else _] => destruct c
         | |- context [match ?c with Some _ => _ | None => _ end] =>
             destruct c
         end; try discriminate;
    intros H; injection H as <- <- <-; reflexivity.
Qed.

Lemma emit_frame_throw (r r' : Reader) taken rest e d :
  emit_frame r taken rest = Throw e r' ->
  emit_frame r taken d = Throw e r'.
Proof.
  unfold emit_frame.
  repeat match goal with
         | |- context [if ?c then _ else _] => destruct c
         | |- context [match ?c with Some _ => _ | None => _ end] =>
             destruct c
         end; try discriminate;
    intros H; injection H as <- <-; reflexivity.
Qed.

Lemma emit_frame_no_break (r r' : Reader) taken rest rest' :
  emit_frame r taken rest = Break r' rest' -> False.
Proof.
  unfold emit_frame.
  repeat match goal with
         | |- context [if ?c then _ else _] => destruct c
         | |- context [match ?c with Some _ => _ | None => _ end] =>
             destruct c
         end; discriminate.
Qed.

Lemma emit_frame_next (r r' : Reader) taken rest rest' f :
  emit_frame r taken rest = Next f r' rest' ->
  rest' = rest /\ _state r' = READ_HEADER /\ _tail r' = _tail r
  /\ _frame_payload r' = [] /\ exists x, f = Some x.
Proof.
  unfold emit_frame.
  repeat match goal with
         | |- context [if ?c then _ else _] => destruct c
         | |- context [match ?c with Some _ => _ | None => _ end] =>
             destruct c
         end; try discriminate;
    intros H; injection H as <- <- <-;
    (split; [reflexivity|split; [reflexivity|split;
       [destruct r; reflexivity|split; [reflexivity|eauto]]]]).
Qed.

Lemma emit_frame_take (r : Reader) buf taken rest :
  emit_frame (take_payload r buf) taken rest
  = emit_frame r (buf ++ taken) rest.
Proof.
  unfold emit_frame, take_payload. crush_reader r.
  rewrite <- !app_assoc. reflexivity.
Qed.

Lemma read_payload_next_app (r r' : Reader) buf buf' f d :
  read_payload r buf = Next f r' buf' ->
  read_payload r (buf ++ d) = Next f r' (buf' ++ d).
Proof.
  destruct (state_eqb (_state r) READ_PAYLOAD) eqn:Hst.
  - assert (Hs : _state r = READ_PAYLOAD)
      by (destruct (_state r); try discriminate; reflexivity).
    rewrite !read_payload_cases by exact Hs.
    destruct (_payload_length r >? len buf) eqn:Hgt; try discriminate.
    assert (Hgt' : (_payload_length r >? len (buf ++ d)) = false).
    { rewrite len_app. pose proof (len_nonneg d). lia. }
    rewrite Hgt'.
    assert (Hn : (Z.to_nat (_payload_length r) <= List.length buf)%nat)
      by (unfold len in Hgt; lia).
    rewrite firstn_app_le, skipn_app_le by exact Hn.
    apply emit_frame_rest.
  - unfold read_payload. rewrite Hst.
    intros H; injection H as <- <- <-. reflexivity.
Qed.

Lemma read_payload_throw_app (r r' : Reader) buf e d :
  read_payload r buf = Throw e r' ->
  read_payload r (buf ++ d) = Throw e r'.
Proof.
  destruct (state_eqb (_state r) READ_PAYLOAD) eqn:Hst.
  - assert (Hs : _state r = READ_PAYLOAD)
      by (destruct (_state r); try discriminate; reflexivity).
    rewrite !read_payload_cases by exact Hs.
    destruct (_payload_length r >? len buf) eqn:Hgt; try discriminate.
    assert (Hgt' : (_payload_length r >? len (buf ++ d)) = false).
    { rewrite len_app. pose proof (len_nonneg d). lia. }
    rewrite Hgt'.
    assert (Hn : (Z.to_nat (_payload_length r) <= List.length buf)%nat)
      by (unfold len in Hgt; lia).
    rewrite firstn_app_le, skipn_app_le by exact Hn.
    apply emit_frame_throw.
  - unfold read_payload. rewrite Hst. discriminate.
Qed.

Lemma take_payload_state (r : Reader) buf :
  _state (take_payload r buf) = _state r
  /\ _tail (take_payload r buf) = _tail r
  /\ _payload_length (take_payload r buf) = _payload_length r - len buf.
Proof. destruct r; cbn. auto. Qed.

Lemma take_payload_app (r : Reader) a b :
  take_payload (take_payload r a) b = take_payload r (a ++ b).
Proof.
  unfold take_payload. crush_reader r. rewrite len_app, app_assoc.
  f_equal. lia.
Qed.

(** A payload that is not complete: the bytes that come next are added
    to what was taken. *)
Lemma read_payload_break_app (r r' : Reader) buf buf' d :
  read_payload r buf = Break r' buf' ->
  _state r = READ_PAYLOAD /\ _state r' = READ_PAYLOAD /\ buf' = []
  /\ _tail r' = _tail r
  /\ read_payload r (buf ++ d) = read_payload r' (buf' ++ d).
Proof.
  destruct (state_eqb (_state r) READ_PAYLOAD) eqn:Hst.
  2:{ unfold read_payload. rewrite Hst. discriminate. }
  assert (Hs : _state r = READ_PAYLOAD)
    by (destruct (_state r); try discriminate; reflexivity).
  rewrite (read_payload_cases r buf Hs).
  destruct (_payload_length r >? len buf) eqn:Hgt.
  2:{ intros H. exfalso. eapply emit_frame_no_break. exact H. }
  intros H; injection H as <- <-.
  destruct (take_payload_state r buf) as (Hs' & Ht' & Hl').
  split; [exact Hs|]. split; [congruence|]. split; [reflexivity|].
  split; [exact Ht'|].
  cbn [app]. rewrite !read_payload_cases by congruence.
  rewrite Hl', len_app.
  replace (_payload_length r - len buf >? len d)
    with (_payload_length r >? len buf + len d) by lia.
  destruct (_payload_length r >? len buf + len d) eqn:Hgt2.
  - rewrite take_payload_app. reflexivity.
  - rewrite emit_frame_take.
    assert (Hn : Z.to_nat (_payload_length r)
                 = (List.length buf
                    + Z.to_nat (_payload_length r - len buf))%nat)
      by (unfold len in *; lia).
    rewrite Hn. rewrite firstn_app, skipn_app.
    rewrite firstn_all2 by lia. rewrite skipn_all2 by lia.
    replace (List.length buf + Z.to_nat (_payload_length r - len buf)
             - List.length buf)%nat
      with (Z.to_nat (_payload_length r - len buf)) by lia.
    reflexivity.
Qed.

Lemma parse_pass_from_length (r : Reader) buf :
  _state r <> READ_HEADER -> parse_pass r buf = from_length r buf.
Proof.
  intros H. unfold parse_pass, from_length.
  rewrite read_header_skip by exact H. reflexivity.
Qed.

Lemma from_length_from_mask (r : Reader) buf :
  _state r <> READ_PAYLOAD_LENGTH -> from_length r buf = from_mask r buf.
Proof.
  intros H. unfold from_length, from_mask.
  rewrite read_payload_length_skip by exact H. reflexivity.
Qed.

Lemma from_mask_read_payload (r : Reader) buf :
  _state r <> READ_PAYLOAD_MASK -> from_mask r buf = read_payload r buf.
Proof.
  intros H. unfold from_mask.
  rewrite read_payload_mask_skip by exact H. reflexivity.
Qed.

Lemma parse_pass_read_payload (r : Reader) buf :
  _state r = READ_PAYLOAD -> parse_pass r buf = read_payload r buf.
Proof.
  intros H.
  rewrite parse_pass_from_length, from_length_from_mask,
    from_mask_read_payload by congruence.
  reflexivity.
Qed.

(** *** A pass that goes on or raises *)

Lemma from_mask_next_app (r r' : Reader) buf buf' f d :
  from_mask r buf = Next f r' buf' ->
  from_mask r (buf ++ d) = Next f r' (buf' ++ d).
Proof.
  unfold from_mask.
  destruct (read_payload_mask r buf) as [u r1 buf1| |] eqn:H1;
    cbn [flow_bind]; try discriminate.
  rewrite (read_payload_mask_next_app _ _ _ _ _ d H1). cbn [flow_bind].
  apply read_payload_next_app.
Qed.

Lemma from_length_next_app (r r' : Reader) buf buf' f d :
  from_length r buf = Next f r' buf' ->
  from_length r (buf ++ d) = Next f r' (buf' ++ d).
Proof.
  unfold from_length.
  destruct (read_payload_length r buf) as [u r1 buf1| |] eqn:H1;
    cbn [flow_bind]; try discriminate.
  rewrite (read_payload_length_next_app _ _ _ _ _ d H1). cbn [flow_bind].
  apply from_mask_next_app.
Qed.

Lemma parse_pass_next_app (r r' : Reader) buf buf' f d :
  parse_pass r buf = Next f r' buf' ->
  parse_pass r (buf ++ d) = Next f r' (buf' ++ d).
Proof.
  unfold parse_pass.
  destruct (read_header r buf) as [u r1 buf1| |] eqn:H1;
    cbn [flow_bind]; try discriminate.
  rewrite (read_header_next_app _ _ _ _ _ d H1). cbn [flow_bind].
  apply from_length_next_app.
Qed.

Lemma from_mask_throw_app (r r' : Reader) buf e d :
  from_mask r buf = Throw e r' -> from_mask r (buf ++ d) = Throw e r'.
Proof.
  unfold from_mask.
  destruct (read_payload_mask r buf) as [u r1 buf1| |] eqn:H1;
    cbn [flow_bind]; try discriminate.
  - rewrite (read_payload_mask_next_app _ _ _ _ _ d H1). cbn [flow_bind].
    apply read_payload_throw_app.
  - exfalso. eapply read_payload_mask_throw. exact H1.
Qed.

Lemma from_length_throw_app (r r' : Reader) buf e d :
  from_length r buf = Throw e r' -> from_length r (buf ++ d) = Throw e r'.
Proof.
  unfold from_length.
  destruct (read_payload_length r buf) as [u r1 buf1| |] eqn:H1;
    cbn [flow_bind]; try discriminate.
  - rewrite (read_payload_length_next_app _ _ _ _ _ d H1). cbn [flow_bind].
    apply from_mask_throw_app.
  - exfalso. eapply read_payload_length_throw. exact H1.
Qed.

Lemma parse_pass_throw_app (r r' : Reader) buf e d :
  parse_pass r buf = Throw e r' -> parse_pass r (buf ++ d) = Throw e r'.
Proof.
  unfold parse_pass.
  destruct (read_header r buf) as [u r1 buf1| |] eqn:H1;
    cbn [flow_bind]; try discriminate.
  - rewrite (read_header_next_app _ _ _ _ _ d H1). cbn [flow_bind].
    apply from_length_throw_app.
  - intros H; injection H as <- <-.
    rewrite (read_header_throw_app _ _ _ _ d H1). reflexivity.
Qed.

(** *** A pass that breaks: the next call takes over *)

Lemma from_mask_break_app (r r' : Reader) buf buf' d :
  from_mask r buf = Break r' buf' ->
  _state r <> READ_HEADER -> _state r <> READ_PAYLOAD_LENGTH ->
  _tail r' = _tail r
  /\ from_mask r (buf ++ d) = parse_pass r' (buf' ++ d).
Proof.
  unfold from_mask. intros H Hh Hl.
  destruct (read_payload_mask r buf) as [u r1 buf1| |] eqn:H1;
    cbn [flow_bind] in H; try discriminate.
  - rewrite (read_payload_mask_next_app _ _ _ _ _ d H1). cbn [flow_bind].
    destruct (read_payload_break_app _ _ _ _ d H) as (Hs1 & Hs' & _ & Ht & E).
    rewrite E. rewrite parse_pass_read_payload by exact Hs'.
    split; [|reflexivity].
    destruct (read_payload_mask_next _ _ _ _ _ H1)
      as [(_ & -> & _)|(_ & _ & Ht1 & _)]; congruence.
  - injection H as <- <-.
    destruct (read_payload_mask_break _ _ _ _ H1) as (-> & -> & Hs).
    split; [reflexivity|].
    rewrite parse_pass_from_length, from_length_from_mask by congruence.
    reflexivity.
Qed.

Lemma from_length_break_app (r r' : Reader) buf buf' d :
  from_length r buf = Break r' buf' ->
  _state r <> READ_HEADER ->
  _tail r' = _tail r
  /\ from_length r (buf ++ d) = parse_pass r' (buf' ++ d).
Proof.
  unfold from_length. intros H Hh.
  destruct (read_payload_length r buf) as [u r1 buf1| |] eqn:H1;
    cbn [flow_bind] in H; try discriminate.
  - rewrite (read_payload_length_next_app _ _ _ _ _ d H1). cbn [flow_bind].
    fold (from_mask r1 buf1) in H. fold (from_mask r1 (buf1 ++ d)).
    destruct (read_payload_length_next _ _ _ _ _ H1)
      as [(Hn & -> & ->)|(Hs & Hs1 & Ht1 & _)].
    + apply from_mask_break_app; assumption.
    + destruct (from_mask_break_app _ _ _ _ d H) as (Ht & E);
        [destruct Hs1; congruence..|].
      split; [congruence|exact E].
  - injection H as <- <-.
    destruct (read_payload_length_break _ _ _ _ H1) as (-> & -> & Hs).
    split; [reflexivity|].
    rewrite parse_pass_from_length by congruence. reflexivity.
Qed.

Lemma parse_pass_break_app (r r' : Reader) buf buf' d :
  parse_pass r buf = Break r' buf' ->
  _tail r' = _tail r
  /\ parse_pass r (buf ++ d) = parse_pass r' (buf' ++ d).
Proof.
  unfold parse_pass at 1 2. intros H.
  destruct (read_header r buf) as [u r1 buf1| |] eqn:H1;
    cbn [flow_bind] in H; try discriminate.
  - rewrite (read_header_next_app _ _ _ _ _ d H1). cbn [flow_bind].
    fold (from_length r1 buf1) in H. fold (from_length r1 (buf1 ++ d)).
    destruct (read_header_next _ _ _ _ _ H1)
      as [(Hn & -> & ->)|(Hs & Hs1 & Ht1 & _)].
    + apply from_length_break_app; assumption.
    + destruct (from_length_break_app _ _ _ _ d H) as (Ht & E);
        [congruence|].
      split; [congruence|exact E].
  - injection H as <- <-.
    destruct (read_header_break _ _ _ _ H1) as (-> & -> & Hs & _).
    split; reflexivity.
Qed.

End ParserPasses.

(** ** The loop of [parse_frame] *)

Section ParserLoop.

Context {RT : Runtime}.

(** After the first three blocks the reader is in [READ_PAYLOAD]. *)
Lemma before_payload (r r3 : Reader) buf buf3 u :
  flow_bind (read_header r buf) (fun _ r buf =>
  flow_bind (read_payload_length r buf) (fun _ r buf =>
  read_payload_mask r buf)) = Next u r3 buf3 ->
  _tail r3 = _tail r
  /\ _state r3 = READ_PAYLOAD
  /\ (List.length buf3 <= List.length buf)%nat
  /\ (_state r = READ_HEADER ->
      (List.length buf3 + 2 <= List.length buf)%nat).
Proof.
  destruct (read_header r buf) as [u1 r1 buf1| |] eqn:H1;
    cbn [flow_bind]; try discriminate.
  destruct (read_payload_length r1 buf1) as [u2 r2 buf2| |] eqn:H2;
    cbn [flow_bind]; try discriminate.
  intros H3.
  assert (A1 : _tail r1 = _tail r /\ (List.length buf1 <= List.length buf)%nat
               /\ (_state r = READ_HEADER ->
                   _state r1 = READ_PAYLOAD_LENGTH
                   /\ (List.length buf1 + 2 <= List.length buf)%nat)
               /\ (_state r <> READ_HEADER -> r1 = r /\ buf1 = buf)).
  { destruct (read_header_next _ _ _ _ _ H1)
      as [(Hn & -> & ->)|(Hs & Hs1 & Ht1 & b0 & b1 & ->)].
    - repeat split; auto; congruence.
    - cbn [List.length]. repeat split; auto; try lia; congruence. }
  assert (A2 : _tail r2 = _tail r1
               /\ (List.length buf2 <= List.length buf1)%nat
               /\ (_state r1 = READ_PAYLOAD_LENGTH ->
                   _state r2 = READ_PAYLOAD_MASK \/ _state r2 = READ_PAYLOAD)
               /\ (_state r1 <> READ_PAYLOAD_LENGTH -> r2 = r1 /\ buf2 = buf1)).
  { destruct (read_payload_length_next _ _ _ _ _ H2)
      as [(Hn & -> & ->)|(Hs & Hs1 & Ht1 & pre & ->)].
    - repeat split; auto; congruence.
    - rewrite length_app. repeat split; auto; try lia; congruence. }
  assert (A3 : _tail r3 = _tail r2
               /\ (List.length buf3 <= List.length buf2)%nat
               /\ (_state r2 = READ_PAYLOAD_MASK -> _state r3 = READ_PAYLOAD)
               /\ (_state r2 <> READ_PAYLOAD_MASK -> r3 = r2 /\ buf3 = buf2)).
  { destruct (read_payload_mask_next _ _ _ _ _ H3)
      as [(Hn & -> & ->)|(Hs & Hs1 & Ht1 & pre & ->)].
    - repeat split; auto; congruence.
    - rewrite length_app. repeat split; auto; try lia; congruence. }
  destruct A1 as (T1 & L1 & S1 & N1), A2 as (T2 & L2 & S2 & N2),
    A3 as (T3 & L3 & S3 & N3).
  assert (K2 : _state r1 = READ_PAYLOAD_LENGTH -> _state r3 = READ_PAYLOAD).
  { intros E. destruct (S2 E) as [E2|E2]; [auto|].
    destruct N3 as (-> & _); congruence. }
  split; [congruence|]. split; [|split; [lia|]].
  - destruct (_state r) eqn:Hs.
    + apply K2. apply S1. reflexivity.
    + destruct N1 as (-> & ->); [congruence|]. apply K2. exact Hs.
    + destruct N1 as (-> & ->); [congruence|].
      destruct N2 as (-> & ->); [congruence|]. apply S3. exact Hs.
    + destruct N1 as (-> & ->); [congruence|].
      destruct N2 as (-> & ->); [congruence|].
      destruct N3 as (-> & ->); [congruence|]. exact Hs.
  - intros E. destruct (S1 E) as (E1 & L). lia.
Qed.

Lemma parse_pass_split (r : Reader) buf :
  parse_pass r buf =
  flow_bind
    (flow_bind (read_header r buf) (fun _ r buf =>
     flow_bind (read_payload_length r buf) (fun _ r buf =>
     read_payload_mask r buf)))
    (fun _ r buf => read_payload r buf).
Proof.
  unfold parse_pass.
  destruct (read_header r buf) as [u1 r1 buf1| |]; cbn [flow_bind];
    try reflexivity.
  destruct (read_payload_length r1 buf1) as [u2 r2 buf2| |];
    cbn [flow_bind]; reflexivity.
Qed.

(** Every pass that goes on has emitted a frame, leaves the reader in
    [READ_HEADER], and has made the weight smaller. *)
Lemma parse_pass_next (r r' : Reader) buf buf' f :
  parse_pass r buf = Next f r' buf' ->
  _tail r' = _tail r /\ _state r' = READ_HEADER /\ _frame_payload r' = []
  /\ (exists x, f = Some x)
  /\ (weight r' buf' < weight r buf)%nat.
Proof.
  rewrite parse_pass_split.
  destruct (flow_bind (read_header r buf) _) as [u3 r3 buf3| |] eqn:H3;
    cbn [flow_bind]; try discriminate.
  destruct (before_payload _ _ _ _ _ H3) as (T3 & Hs & L3 & K3).
  intros H4.
  rewrite (read_payload_cases _ _ Hs) in H4.
  destruct (_payload_length r3 >? len buf3); try discriminate.
  destruct (emit_frame_next _ _ _ _ _ _ H4) as (-> & S' & T' & P' & X).
  split; [congruence|]. split; [exact S'|]. split; [exact P'|].
  split; [exact X|].
  unfold weight. rewrite S'.
  pose proof (length_skipn (Z.to_nat (_payload_length r3)) buf3) as Hk.
  destruct (_state r) eqn:Hsr.
  - specialize (K3 eq_refl). lia.
  - lia.
  - lia.
  - lia.
Qed.

Lemma parse_loop_total (fuel : nat) :
  forall (r : Reader) buf frames,
    (weight r buf < fuel)%nat ->
    exists x, parse_loop fuel r buf frames = Some x.
Proof.
  induction fuel as [|fuel IH]; intros r buf frames Hw; [lia|].
  cbn [parse_loop].
  destruct (parse_pass r buf) as [f r' buf'|r' buf'|e r'] eqn:Hp.
  - apply IH. destruct (parse_pass_next _ _ _ _ _ Hp) as (_ & _ & _ & _ & L).
    lia.
  - eauto.
  - eauto.
Qed.

Lemma parses_unfold (r : Reader) buf frames x :
  parses r buf frames x <->
  match parse_pass r buf with
  | Next f r' buf' => parses r' buf' (add_frame frames f) x
  | Break r' buf' => x = Frames frames (set__tail buf' r')
  | Throw e r' => x = ParseError e r'
  end.
Proof.
  unfold parses. split.
  - intros [[|n] H]; [discriminate|]. cbn [parse_loop] in H.
    destruct (parse_pass r buf); [eauto|congruence|congruence].
  - destruct (parse_pass r buf) as [f r' buf'|r' buf'|e r'] eqn:Hp.
    + intros [n H]. exists (S n). cbn [parse_loop]. rewrite Hp. exact H.
    + intros ->. exists 1%nat. cbn [parse_loop]. rewrite Hp. reflexivity.
    + intros ->. exists 1%nat. cbn [parse_loop]. rewrite Hp. reflexivity.
Qed.

Lemma parses_det (r : Reader) buf frames x y :
  parses r buf frames x -> parses r buf frames y -> x = y.
Proof.
  intros [n H]. revert r buf frames H.
  induction n as [|n IH]; intros r buf frames H Hy; [discriminate|].
  cbn [parse_loop] in H. apply parses_unfold in Hy.
  destruct (parse_pass r buf) as [f r' buf'|r' buf'|e r'].
  - eapply IH; eassumption.
  - congruence.
  - congruence.
Qed.

Lemma parse_loop_prepend (pre : list (Frame bytes)) (fuel : nat) :
  forall (r : Reader) buf frames,
    parse_loop fuel r buf (pre ++ frames)
    = option_map (prepend pre) (parse_loop fuel r buf frames).
Proof.
  induction fuel as [|fuel IH]; intros r buf frames; [reflexivity|].
  cbn [parse_loop].
  destruct (parse_pass r buf) as [f r' buf'|r' buf'|e r'].
  - rewrite <- IH. f_equal. destruct f; cbn [add_frame];
      [symmetry; apply app_assoc|reflexivity].
  - reflexivity.
  - reflexivity.
Qed.

Lemma parses_prepend (pre : list (Frame bytes)) (r : Reader) buf x :
  parses r buf [] x -> parses r buf pre (prepend pre x).
Proof.
  intros [n H]. exists n.
  rewrite <- (app_nil_r pre) at 1. rewrite parse_loop_prepend, H.
  reflexivity.
Qed.

Lemma parse_loop_passes (r : Reader) buf :
  parses r buf []
    match parse_loop (passes buf) r buf [] with
    | Some res => res
    | None => Frames [] r
    end.
Proof.
  destruct (parse_loop_total (passes buf) r buf []) as [x Hx].
  { unfold weight, passes. destruct (_state r); lia. }
  rewrite Hx. exists (passes buf). exact Hx.
Qed.

(** What a call of [parse_frame] computes: the loop, from the reader with
    an empty tail, over the tail followed by the chunk. *)
Lemma parse_frame_parses (r : Reader) data :
  parses (set__tail [] r) (_tail r ++ data) [] (parse_frame r data).
Proof.
  unfold parse_frame. destruct (nonempty (_tail r)) eqn:Hne.
  - apply parse_loop_passes.
  - apply nonempty_false in Hne. rewrite (set_tail_id r Hne), Hne.
    cbn [app]. apply parse_loop_passes.
Qed.

(** The loop over a buffer with more bytes behind it: where the loop over
    the buffer alone ends with a tail, the loop of the next call takes
    over. *)
Lemma parses_app (n : nat) :
  forall (r : Reader) buf frames frames1 r1 d x,
    _tail r = [] ->
    parse_loop n r buf frames = Some (Frames frames1 r1) ->
    parses (set__tail [] r1) (_tail r1 ++ d) frames1 x ->
    parses r (buf ++ d) frames x.
Proof.
  induction n as [|n IH]; intros r buf frames frames1 r1 d x Ht H Hx;
    [discriminate|].
  cbn [parse_loop] in H. apply parses_unfold.
  destruct (parse_pass r buf) as [f r' buf'|r' buf'|e r'] eqn:Hp.
  - rewrite (parse_pass_next_app _ _ _ _ _ d Hp).
    eapply IH; [|exact H|exact Hx].
    destruct (parse_pass_next _ _ _ _ _ Hp) as (T & _). congruence.
  - injection H as <- <-.
    destruct (parse_pass_break_app _ _ _ _ d Hp) as (T & E).
    rewrite E.
    assert (E1 : set__tail [] (set__tail buf' r') = r').
    { assert (T' : _tail r' = []) by congruence.
      clear - T'. destruct r'; cbn in *. subst. reflexivity. }
    assert (E2 : _tail (set__tail buf' r') = buf')
      by (destruct r'; reflexivity).
    rewrite E1, E2 in Hx. apply parses_unfold in Hx. exact Hx.
  - discriminate.
Qed.

Lemma parses_app_error (n : nat) :
  forall (r : Reader) buf frames e r1 d,
    parse_loop n r buf frames = Some (ParseError e r1) ->
    parses r (buf ++ d) frames (ParseError e r1).
Proof.
  induction n as [|n IH]; intros r buf frames e r1 d H; [discriminate|].
  cbn [parse_loop] in H. apply parses_unfold.
  destruct (parse_pass r buf) as [f r' buf'|r' buf'|e' r'] eqn:Hp.
  - rewrite (parse_pass_next_app _ _ _ _ _ d Hp). eapply IH. exact H.
  - discriminate.
  - injection H as <- <-.
    rewrite (parse_pass_throw_app _ _ _ _ d Hp). reflexivity.
Qed.

(** Parsing two chunks one after the other is parsing them at once, as
    long as the frames of the first call are kept. *)
Lemma parse_frame_app (r : Reader) c1 c2 :
  parse_frame r (c1 ++ c2) =
  match parse_frame r c1 with
  | Frames frames1 r1 => prepend frames1 (parse_frame r1 c2)
  | ParseError e r1 => ParseError e r1
  end.
Proof.
  pose proof (parse_frame_parses r (c1 ++ c2)) as H12.
  pose proof (parse_frame_parses r c1) as [n H1].
  rewrite app_assoc in H12.
  assert (Ht : _tail (set__tail [] r) = []) by (destruct r; reflexivity).
  destruct (parse_frame r c1) as [frames1 r1|e r1].
  - eapply parses_det; [exact H12|].
    eapply parses_app; [exact Ht|exact H1|].
    apply parses_prepend. apply parse_frame_parses.
  - eapply parses_det; [exact H12|].
    eapply parses_app_error. exact H1.
Qed.

End ParserLoop.

(** ** The parser and the assembler work on separate attributes *)

Section Layers.

Context {RT : Runtime}.

Ltac split_all :=
  repeat first
    [ progress cbv beta iota zeta
    | match goal with
      | |- context [if ?c then _ else _] => destruct c
      | |- context [match ?c with Some _ => _ | None => _ end] => destruct c
      | |- context [match ?c with inl _ => _ | inr _ => _ end] => destruct c
      | |- context [match ?c with (_, _) => _ end] => destruct c
      | |- context [match ?c with [] => _ | _ :: _ => _ end] => destruct c
      end ].

Lemma graft_self (r : Reader) : graft r r = r.
Proof. destruct r; reflexivity. Qed.

Lemma graft_left (a b c : Reader) : graft (graft a b) c = graft a c.
Proof. destruct a, b, c; reflexivity. Qed.

Lemma graft_right (a b c : Reader) : graft a (graft b c) = graft a c.
Proof. destruct a, b, c; reflexivity. Qed.

Lemma graft_observe (a b : Reader) : observe (graft a b) = observe b.
Proof. destruct a, b; reflexivity. Qed.

Lemma read_header_graft (a b : Reader) buf :
  read_header (graft a b) buf
  = flow_map (fun x => graft x b) (read_header a buf).
Proof.
  unfold read_header, graft. destruct a, b. reader_cbv.
  split_all; reflexivity.
Qed.

Lemma read_payload_length_graft (a b : Reader) buf :
  read_payload_length (graft a b) buf
  = flow_map (fun x => graft x b) (read_payload_length a buf).
Proof.
  unfold read_payload_length, graft. destruct a, b. reader_cbv.
  split_all; reflexivity.
Qed.

Lemma read_payload_mask_graft (a b : Reader) buf :
  read_payload_mask (graft a b) buf
  = flow_map (fun x => graft x b) (read_payload_mask a buf).
Proof.
  unfold read_payload_mask, graft. destruct a, b. reader_cbv.
  split_all; reflexivity.
Qed.

Lemma read_payload_graft (a b : Reader) buf :
  read_payload (graft a b) buf
  = flow_map (fun x => graft x b) (read_payload a buf).
Proof.
  unfold read_payload, graft. destruct a, b. reader_cbv.
  split_all; reflexivity.
Qed.

Lemma flow_bind_map {X Y : Type} (g : Reader -> Reader) (m : flow bytes X)
  (k k' : X -> Reader -> bytes -> flow bytes Y) :
  (forall x r buf, k' x (g r) buf = flow_map g (k x r buf)) ->
  flow_bind (flow_map g m) k' = flow_map g (flow_bind m k).
Proof. intros H. destruct m; cbn; auto. Qed.

Lemma parse_pass_graft (a b : Reader) buf :
  parse_pass (graft a b) buf
  = flow_map (fun x => graft x b) (parse_pass a buf).
Proof.
  unfold parse_pass. rewrite read_header_graft.
  apply flow_bind_map. intros _ r1 buf1.
  rewrite read_payload_length_graft.
  apply flow_bind_map. intros _ r2 buf2.
  rewrite read_payload_mask_graft.
  apply flow_bind_map. intros _ r3 buf3.
  apply read_payload_graft.
Qed.

Lemma parse_loop_graft (fuel : nat) :
  forall (a b : Reader) buf frames,
    parse_loop fuel (graft a b) buf frames
    = option_map (parsed_map (fun x => graft x b))
        (parse_loop fuel a buf frames).
Proof.
  induction fuel as [|fuel IH]; intros a b buf frames; [reflexivity|].
  cbn [parse_loop]. rewrite parse_pass_graft.
  destruct (parse_pass a buf) as [f r' buf'|r' buf'|e r'];
    cbn [flow_map option_map parsed_map].
  - apply IH.
  - destruct r', b; reflexivity.
  - reflexivity.
Qed.

(** [parse_frame] reads and writes parser attributes only. *)
Lemma parse_frame_graft (a b : Reader) data :
  parse_frame (graft a b) data
  = parsed_map (fun x => graft x b) (parse_frame a data).
Proof.
  apply (parses_det (set__tail [] (graft a b)) (_tail (graft a b) ++ data) []).
  - apply parse_frame_parses.
  - destruct (parse_frame_parses a data) as [n H]. exists n.
    replace (set__tail [] (graft a b)) with (graft (set__tail [] a) b)
      by (destruct a, b; reflexivity).
    replace (_tail (graft a b)) with (_tail a)
      by (destruct a, b; reflexivity).
    rewrite parse_loop_graft, H. reflexivity.
Qed.

Lemma parse_frame_keeps (r : Reader) data :
  parsed_reader (parse_frame r data)
  = graft (parsed_reader (parse_frame r data)) r.
Proof.
  pose proof (parse_frame_graft r r data) as H. rewrite graft_self in H.
  destruct (parse_frame r data); cbn in *; congruence.
Qed.

Lemma merge_payload_graft (a b : Reader) compressed payload :
  merge_payload compressed payload (graft a b)
  = (fst (merge_payload compressed payload b),
     graft a (snd (merge_payload compressed payload b))).
Proof.
  unfold merge_payload, graft. destruct a, b. reader_cbv.
  split_all; reflexivity.
Qed.

Lemma deliver_data_graft (a b : Reader) opcode payload :
  deliver_data opcode payload (graft a b)
  = result_map (graft a) (deliver_data opcode payload b).
Proof.
  unfold deliver_data, graft. destruct a, b. reader_cbv.
  split_all; reflexivity.
Qed.

Lemma handle_close_graft (a b : Reader) fin opcode payload :
  handle_close fin opcode payload (graft a b)
  = result_map (graft a) (handle_close fin opcode payload b).
Proof.
  unfold handle_close, graft. destruct a, b. reader_cbv.
  split_all; reflexivity.
Qed.

Lemma finish_message_graft (a b : Reader) opcode cont payload compressed :
  finish_message (graft a b) opcode cont payload compressed
  = result_map (graft a) (finish_message b opcode cont payload compressed).
Proof.
  assert (Size : forall (b : Reader) op assembled,
             (if truthy (_max_msg_size (graft a b))
                 && (len assembled >=? _max_msg_size (graft a b))
              then Raised
                     (message_too_big (len assembled)
                        (_max_msg_size (graft a b))) (graft a b)
              else
                match merge_payload compressed assembled (graft a b) with
                | (inl e, r) => Raised e r
                | (inr payload_merged, r) => deliver_data op payload_merged r
                end)
             = result_map (graft a)
                 (if truthy (_max_msg_size b)
                     && (len assembled >=? _max_msg_size b)
                  then Raised
                         (message_too_big (len assembled) (_max_msg_size b)) b
                  else
                    match merge_payload compressed assembled b with
                    | (inl e, r) => Raised e r
                    | (inr payload_merged, r) =>
                        deliver_data op payload_merged r
                    end)).
  { intros b0 op assembled.
    replace (_max_msg_size (graft a b0)) with (_max_msg_size b0)
      by (destruct a, b0; reflexivity).
    destruct (truthy (_max_msg_size b0) && _); [reflexivity|].
    rewrite merge_payload_graft.
    destruct (merge_payload compressed assembled b0) as [[e|p] b3];
      cbn [fst snd]; [reflexivity|apply deliver_data_graft]. }
  unfold finish_message.
  replace (_partial (graft a b)) with (_partial b)
    by (destruct a, b; reflexivity).
  replace (_opcode (graft a b)) with (_opcode b)
    by (destruct a, b; reflexivity).
  destruct cont.
  - destruct (_opcode b) as [op|]; [|reflexivity].
    replace (set__opcode None (graft a b)) with (graft a (set__opcode None b))
      by (destruct a, b; reflexivity).
    destruct (nonempty (_partial b)).
    + replace (_partial (graft a (set__opcode None b)))
        with (_partial (set__opcode None b))
        by (destruct a, b; reflexivity).
      replace (set__partial [] (graft a (set__opcode None b)))
        with (graft a (set__partial [] (set__opcode None b)))
        by (destruct a, b; reflexivity).
      apply Size.
    + apply Size.
  - destruct (nonempty (_partial b)); [reflexivity|]. apply Size.
Qed.

(** The handling of a frame reads and writes no parser attribute. *)
Lemma handle_frame_graft (a b : Reader) frame :
  handle_frame (graft a b) frame
  = result_map (graft a) (handle_frame b frame).
Proof.
  unfold handle_frame.
  destruct (f_opcode frame) as [opcode|]; [|reflexivity].
  destruct ((opcode =? OP_CODE_TEXT) || (opcode =? OP_CODE_BINARY)
            || (opcode =? OP_CODE_CONTINUATION)).
  - destruct (negb (f_fin frame)).
    + assert (E : (if negb (opcode =? OP_CODE_CONTINUATION)
                   then set__opcode (Some opcode) (graft a b) else graft a b)
                  = graft a (if negb (opcode =? OP_CODE_CONTINUATION)
                             then set__opcode (Some opcode) b else b)).
      { destruct (negb (opcode =? OP_CODE_CONTINUATION));
          destruct a, b; reflexivity. }
      cbv zeta. rewrite E.
      generalize (if negb (opcode =? OP_CODE_CONTINUATION)
                  then set__opcode (Some opcode) b else b).
      intros b1.
      replace (set__partial (_partial (graft a b1) ++ f_payload frame)
                 (graft a b1))
        with (graft a (set__partial (_partial b1 ++ f_payload frame) b1))
        by (destruct a, b1; reflexivity).
      generalize (set__partial (_partial b1 ++ f_payload frame) b1).
      intros b2.
      replace (_max_msg_size (graft a b2)) with (_max_msg_size b2)
        by (destruct a, b2; reflexivity).
      replace (_partial (graft a b2)) with (_partial b2)
        by (destruct a, b2; reflexivity).
      destruct (truthy (_max_msg_size b2) && _); reflexivity.
    + apply finish_message_graft.
  - destruct (opcode =? OP_CODE_CLOSE); [apply handle_close_graft|].
    destruct (opcode =? OP_CODE_PING);
      [destruct a, b; reflexivity|].
    destruct (opcode =? OP_CODE_PONG);
      [destruct a, b; reflexivity|reflexivity].
Qed.

Lemma handle_frames_graft (frames : list (Frame bytes)) :
  forall a b : Reader,
    handle_frames (graft a b) frames
    = result_map (graft a) (handle_frames b frames).
Proof.
  induction frames as [|f frames IH]; intros a b; [reflexivity|].
  cbn [handle_frames]. rewrite handle_frame_graft.
  destruct (handle_frame b f) as [b'|e b']; cbn [result_map];
    [apply IH|reflexivity].
Qed.

Lemma handle_frames_app (f1 f2 : list (Frame bytes)) :
  forall r : Reader,
    handle_frames r (f1 ++ f2) =
    match handle_frames r f1 with
    | Done r1 => handle_frames r1 f2
    | Raised e r1 => Raised e r1
    end.
Proof.
  induction f1 as [|f f1 IH]; intros r; [reflexivity|].
  cbn [handle_frames app]. destruct (handle_frame r f); [apply IH|reflexivity].
Qed.

(** The latch and the limit are not touched by the handling of a
    frame. *)
Lemma merge_payload_exc (r : Reader) compressed payload :
  _exc (snd (merge_payload compressed payload r)) = _exc r
  /\ _max_msg_size (snd (merge_payload compressed payload r))
     = _max_msg_size r.
Proof.
  unfold merge_payload. destruct (opt_truthy compressed); [|auto].
  destruct (decompress_sync _ _ _) as [[[d p] u]|].
  - destruct (nonempty u); destruct r; cbn; auto.
  - destruct r; cbn; auto.
Qed.

Lemma deliver_data_exc (r : Reader) opcode payload :
  _exc (result_reader (deliver_data opcode payload r)) = _exc r
  /\ _max_msg_size (result_reader (deliver_data opcode payload r))
     = _max_msg_size r.
Proof.
  unfold deliver_data. destruct (opcode =? OP_CODE_TEXT).
  - destruct (utf8_decode payload); destruct r; cbn; auto.
  - destruct r; cbn; auto.
Qed.

Lemma handle_close_exc (r : Reader) fin opcode payload :
  _exc (result_reader (handle_close fin opcode payload r)) = _exc r
  /\ _max_msg_size (result_reader (handle_close fin opcode payload r))
     = _max_msg_size r.
Proof.
  unfold handle_close.
  destruct (len payload >=? 2).
  - destruct (_ && _); [auto|].
    destruct (utf8_decode _); destruct r; cbn; auto.
  - destruct (nonempty payload); destruct r; cbn; auto.
Qed.

Lemma finish_message_exc (r : Reader) opcode cont payload compressed :
  _exc (result_reader (finish_message r opcode cont payload compressed))
  = _exc r
  /\ _max_msg_size
       (result_reader (finish_message r opcode cont payload compressed))
     = _max_msg_size r.
Proof.
  assert (Size : forall (r0 : Reader) op assembled,
             _exc r0 = _exc r -> _max_msg_size r0 = _max_msg_size r ->
             let x :=
               if truthy (_max_msg_size r0)
                  && (len assembled >=? _max_msg_size r0)
               then Raised
                      (message_too_big (len assembled) (_max_msg_size r0)) r0
               else
                 match merge_payload compressed assembled r0 with
                 | (inl e, r) => Raised e r
                 | (inr payload_merged, r) =>
                     deliver_data op payload_merged r
                 end in
             _exc (result_reader x) = _exc r
             /\ _max_msg_size (result_reader x) = _max_msg_size r).
  { intros r0 op assembled E1 E2. cbv zeta.
    destruct (truthy (_max_msg_size r0) && _); [auto|].
    pose proof (merge_payload_exc r0 compressed assembled) as [M1 M2].
    destruct (merge_payload compressed assembled r0) as [[e|p] r1];
      cbn [fst snd result_reader] in *; [split; congruence|].
    pose proof (deliver_data_exc r1 op p) as [D1 D2]. split; congruence. }
  unfold finish_message. destruct cont.
  - destruct (_opcode r) as [op|]; [|auto].
    destruct (nonempty (_partial r)); apply Size; destruct r; reflexivity.
  - destruct (nonempty (_partial r)); [auto|]. apply Size; reflexivity.
Qed.

Lemma handle_frame_exc (r : Reader) frame :
  _exc (result_reader (handle_frame r frame)) = _exc r
  /\ _max_msg_size (result_reader (handle_frame r frame)) = _max_msg_size r.
Proof.
  unfold handle_frame.
  destruct (f_opcode frame) as [opcode|]; [|auto].
  destruct ((opcode =? OP_CODE_TEXT) || (opcode =? OP_CODE_BINARY)
            || (opcode =? OP_CODE_CONTINUATION)).
  - destruct (negb (f_fin frame)); [|apply finish_message_exc].
    cbv zeta. destruct (truthy _ && _);
      destruct (negb (opcode =? OP_CODE_CONTINUATION)); destruct r; cbn; auto.
  - destruct (opcode =? OP_CODE_CLOSE); [apply handle_close_exc|].
    destruct (opcode =? OP_CODE_PING); [destruct r; cbn; auto|].
    destruct (opcode =? OP_CODE_PONG); destruct r; cbn; auto.
Qed.

Lemma handle_frames_exc (frames : list (Frame bytes)) :
  forall r : Reader,
    _exc (result_reader (handle_frames r frames)) = _exc r.
Proof.
  induction frames as [|f frames IH]; intros r; [reflexivity|].
  cbn [handle_frames]. pose proof (handle_frame_exc r f) as [H _].
  destruct (handle_frame r f) as [r'|e r']; cbn [result_reader] in *.
  - rewrite IH. exact H.
  - exact H.
Qed.

End Layers.

(** ** The entry point *)

Section Feeding.

Context {RT : Runtime}.

Lemma feed_data_latched (r : Reader) data e :
  _exc r = Some e -> feed_data r data = ((true, data), r).
Proof. unfold feed_data. intros ->. reflexivity. Qed.

Lemma feed_all_latched (chunks : list bytes) :
  forall (r : Reader) e,
    _exc r = Some e ->
    feed_all r chunks = (map (fun c => (true, c)) chunks, r).
Proof.
  induction chunks as [|c chunks IH]; intros r e H; [reflexivity|].
  cbn [feed_all map]. rewrite (feed_data_latched r c e H).
  rewrite (IH r e H). reflexivity.
Qed.

Lemma feed_data_unlatched (r : Reader) data :
  _exc r = None ->
  feed_data r data =
  match _feed_data r data with
  | Raised exc r' => (EMPTY_FRAME_ERROR, latch exc r')
  | Done r' => (EMPTY_FRAME, r')
  end.
Proof.
  unfold feed_data. intros ->.
  destruct (_feed_data r data) as [r'|exc r']; [reflexivity|].
  unfold latch. destruct r'; reflexivity.
Qed.

Lemma latch_observe (exc : exn) (r : Reader) :
  observe (latch exc r) = (queue r ++ [q_set_exception exc], Some exc).
Proof. destruct r; reflexivity. Qed.

Lemma latch_exc (exc : exn) (r : Reader) : _exc (latch exc r) = Some exc.
Proof. destruct r; reflexivity. Qed.

(** Once a call has parsed a chunk, the tail holds less than the parser
    needs to go on. *)
Lemma parse_frame_settled (r r1 : Reader) data frames :
  parse_frame r data = Frames frames r1 -> settled r1.
Proof.
  intros H. pose proof (parse_frame_app r data []) as A.
  rewrite app_nil_r, H in A. unfold settled.
  destruct (parse_frame r1 []) as [frames2 r2|e r2]; cbn [prepend] in A;
    [|discriminate].
  injection A as A1 A2. subst r2.
  assert (frames2 = []).
  { apply (app_inv_head frames). rewrite app_nil_r. symmetry. exact A1. }
  subst. reflexivity.
Qed.

Lemma settled_graft (a b : Reader) : settled a -> settled (graft a b).
Proof.
  unfold settled. intros H. rewrite parse_frame_graft, H. reflexivity.
Qed.

Lemma handle_frames_keeps (r : Reader) frames :
  result_reader (handle_frames r frames)
  = graft r (result_reader (handle_frames r frames)).
Proof.
  pose proof (handle_frames_graft frames r r) as H. rewrite graft_self in H.
  destruct (handle_frames r frames); cbn in *; congruence.
Qed.

Lemma parse_frame_exc (r : Reader) data :
  _exc (parsed_reader (parse_frame r data)) = _exc r.
Proof.
  rewrite parse_frame_keeps.
  destruct (parsed_reader (parse_frame r data)), r; reflexivity.
Qed.

(** Feeding a stream in chunks leaves on the queue, and in the latch, what
    feeding it at once leaves, when the parser accepts the stream. *)
Lemma feed_all_single (chunks : list bytes) :
  forall (r : Reader) frames r',
    settled r ->
    parse_frame r (List.concat chunks) = Frames frames r' ->
    observe (snd (feed_all r chunks))
    = observe (snd (feed_data r (List.concat chunks))).
Proof.
  induction chunks as [|c chunks IH]; intros r frames rF Hs Hp.
  - cbn [feed_all List.concat snd]. destruct (_exc r) as [e|] eqn:He.
    + rewrite (feed_data_latched r [] e He). reflexivity.
    + rewrite (feed_data_unlatched r [] He). unfold _feed_data.
      rewrite Hs. reflexivity.
  - cbn [List.concat] in *. destruct (_exc r) as [e|] eqn:He.
    + rewrite (feed_all_latched _ r e He).
      rewrite (feed_data_latched r _ e He). reflexivity.
    + pose proof (parse_frame_app r c (List.concat chunks)) as A.
      rewrite Hp in A.
      pose proof (parse_frame_exc r c) as Hexc.
      destruct (parse_frame r c) as [F1 r1|e1 r1] eqn:H1; [|discriminate].
      cbn [parsed_reader] in Hexc.
      pose proof (parse_frame_keeps r1 (List.concat chunks)) as K.
      destruct (parse_frame r1 (List.concat chunks)) as [F2 r2|e2 r2] eqn:H2;
        cbn [prepend parsed_reader] in *; [|discriminate].
      injection A as -> ->.
      cbn [feed_all].
      rewrite (feed_data_unlatched r c He).
      rewrite (feed_data_unlatched r (c ++ List.concat chunks) He).
      unfold _feed_data. rewrite H1, Hp.
      rewrite K, handle_frames_graft, handle_frames_app.
      pose proof (handle_frames_keeps r1 F1) as K1.
      pose proof (handle_frames_exc F1 r1) as E1.
      destruct (handle_frames r1 F1) as [r1'|e r1'];
        cbn [result_reader result_map] in *.
      * assert (Hs1 : settled r1').
        { rewrite K1. apply settled_graft.
          eapply parse_frame_settled. exact H1. }
        assert (Hp1 : parse_frame r1' (List.concat chunks)
                      = Frames F2 (graft r2 r1')).
        { rewrite K1 at 1. rewrite parse_frame_graft, H2. reflexivity. }
        destruct (feed_all r1' chunks) as [ress rb] eqn:Hf.
        cbn [snd].
        specialize (IH r1' F2 (graft r2 r1') Hs1 Hp1). rewrite Hf in IH.
        cbn [snd] in IH. rewrite IH.
        assert (He1 : _exc r1' = None) by congruence.
        rewrite (feed_data_unlatched r1' _ He1). unfold _feed_data.
        rewrite Hp1, handle_frames_graft.
        destruct (handle_frames r1' F2) as [r3|e3 r3]; cbn [result_map snd].
        -- rewrite graft_observe. reflexivity.
        -- rewrite !latch_observe. destruct r2, r3; reflexivity.
      * rewrite (feed_all_latched chunks (latch e r1') e (latch_exc e r1')).
        cbn [snd]. rewrite !latch_observe. destruct r2, r1'; reflexivity.
Qed.

Lemma settled_init q max_msg_size compress :
  settled (init q max_msg_size compress).
Proof. reflexivity. Qed.

End Feeding.

(** ** Header bits *)

Lemma header_bit (b : byte) (k : Z) :
  k = 4 \/ k = 5 \/ k = 6 \/ k = 7 ->
  truthy (Z.land (Z.shiftr (byte_val b) k) 1) = Z.testbit (byte_val b) k.
Proof.
  intros [->|[->|[->| ->]]]; destruct b; reflexivity.
Qed.

Lemma header_fin_zero (b : byte) :
  (Z.land (Z.shiftr (byte_val b) 7) 1 =? 0) = negb (Z.testbit (byte_val b) 7).
Proof. destruct b; reflexivity. Qed.

Lemma header_opcode (b : byte) : Z.land (byte_val b) 15 = byte_val b mod 16.
Proof. destruct b; reflexivity. Qed.

Lemma header_length (b : byte) : Z.land (byte_val b) 127 = byte_val b mod 128.
Proof. destruct b; reflexivity. Qed.

Lemma byte_val_range (b : byte) : 0 <= byte_val b < 256.
Proof. destruct b; cbv; split; congruence. Qed.

Section HeaderChecks.

Context {RT : Runtime}.

(** The header block, with the fields of the two bytes read by position
    of the bit. *)
Lemma read_header_fields (r : Reader) (b0 b1 : byte) (rest : bytes) :
  _state r = READ_HEADER ->
  let fin := Z.testbit (byte_val b0) 7 in
  let rsv1 := Z.testbit (byte_val b0) 6 in
  let rsv2 := Z.testbit (byte_val b0) 5 in
  let rsv3 := Z.testbit (byte_val b0) 4 in
  let opcode := byte_val b0 mod 16 in
  let has_mask := Z.testbit (byte_val b1) 7 in
  let length := byte_val b1 mod 128 in
  read_header r (b0 :: b1 :: rest) =
  if rsv2 || rsv3 || (rsv1 && negb (_compress r))
  then Throw (protocol_error Msg_nonzero_reserved_bits) r
  else if (opcode >? 7) && negb fin
  then Throw (protocol_error Msg_fragmented_control_frame) r
  else if (opcode >? 7) && (length >? 125)
  then Throw (protocol_error Msg_control_frame_too_large) r
  else
    let commit (r : Reader) :=
      Next tt
        (set__state READ_PAYLOAD_LENGTH
           (set__payload_length_flag length
              (set__has_mask has_mask
                 (set__frame_opcode (Some opcode)
                    (set__frame_fin fin r)))))
        rest in
    if _frame_fin r || is_None (_compressed r)
    then commit (set__compressed (Some rsv1) r)
    else if rsv1
    then Throw (protocol_error Msg_nonzero_reserved_bits) r
    else commit r.
Proof.
  intros Hs. cbv zeta. unfold read_header. rewrite Hs. cbn [state_eqb].
  rewrite !header_bit by auto. rewrite header_fin_zero.
  rewrite header_opcode, header_length.
  reflexivity.
Qed.

Lemma parse_pass_header_throw (r : Reader) buf e r' :
  read_header r buf = Throw e r' -> parse_pass r buf = Throw e r'.
Proof. unfold parse_pass. intros ->. reflexivity. Qed.

End HeaderChecks.

(** ** Sequencing of data frames *)

Section Sequencing.

Context {RT : Runtime}.

(** A data frame with fin = 0 (lines 109-121): the opcode of a TEXT or
    BINARY frame is recorded, the payload is added to the partial buffer,
    and the size of the buffer is the only thing checked. *)
Lemma handle_nonfin_data_frame (r : Reader) (opcode : Z) (payload : bytes)
  (compressed : option bool) :
  opcode = OP_CODE_CONTINUATION \/ opcode = OP_CODE_TEXT
  \/ opcode = OP_CODE_BINARY ->
  handle_frame r (mkFrame false (Some opcode) payload compressed) =
  let r1 :=
    set__partial (_partial r ++ payload)
      (if opcode =? OP_CODE_CONTINUATION then r
       else set__opcode (Some opcode) r) in
  if truthy (_max_msg_size r)
     && (len (_partial r ++ payload) >=? _max_msg_size r)
  then Raised
         (message_too_big (len (_partial r ++ payload)) (_max_msg_size r)) r1
  else Done r1.
Proof.
  intros Ho. unfold handle_frame.
  cbn [f_opcode f_fin f_payload f_compressed negb].
  assert (Hd : (opcode =? OP_CODE_TEXT) || (opcode =? OP_CODE_BINARY)
               || (opcode =? OP_CODE_CONTINUATION) = true).
  { destruct Ho as [->|[->| ->]]; reflexivity. }
  rewrite Hd. cbv zeta.
  destruct (opcode =? OP_CODE_CONTINUATION); cbn [negb];
    destruct r; reflexivity.
Qed.

(** A data frame with fin = 1 (lines 123-194). *)
Lemma handle_fin_data_frame (r : Reader) (opcode : Z) (payload : bytes)
  (compressed : option bool) :
  opcode = OP_CODE_CONTINUATION \/ opcode = OP_CODE_TEXT
  \/ opcode = OP_CODE_BINARY ->
  handle_frame r (mkFrame true (Some opcode) payload compressed)
  = finish_message r opcode (opcode =? OP_CODE_CONTINUATION) payload
      compressed.
Proof.
  intros Ho. unfold handle_frame.
  cbn [f_opcode f_fin f_payload f_compressed negb].
  assert (Hd : (opcode =? OP_CODE_TEXT) || (opcode =? OP_CODE_BINARY)
               || (opcode =? OP_CODE_CONTINUATION) = true).
  { destruct Ho as [->|[->| ->]]; reflexivity. }
  rewrite Hd. reflexivity.
Qed.

(** The sequencing checks, where the code makes them: on a frame with
    fin = 1. *)
Lemma fin_continuation_without_message (r : Reader) (payload : bytes)
  (compressed : option bool) :
  _opcode r = None ->
  handle_frame r (mkFrame true (Some OP_CODE_CONTINUATION) payload compressed)
  = Raised (protocol_error Msg_continuation_non_started) r.
Proof.
  intros H. rewrite handle_fin_data_frame by auto.
  unfold finish_message. cbn [Z.eqb OP_CODE_CONTINUATION]. rewrite H.
  reflexivity.
Qed.

Lemma fin_data_frame_inside_message (r : Reader) (opcode : Z)
  (payload : bytes) (compressed : option bool) :
  opcode = OP_CODE_TEXT \/ opcode = OP_CODE_BINARY ->
  _partial r <> [] ->
  handle_frame r (mkFrame true (Some opcode) payload compressed)
  = Raised (protocol_error (Msg_opcode_expected_zero opcode)) r.
Proof.
  intros Ho H. rewrite handle_fin_data_frame by tauto.
  unfold finish_message.
  assert (Hc : (opcode =? OP_CODE_CONTINUATION) = false)
    by (destruct Ho as [->| ->]; reflexivity).
  rewrite Hc. destruct (_partial r); [congruence|reflexivity].
Qed.

(** A final continuation frame of a message that is not compressed and
    within the limit hands the partial buffer followed by its payload to
    L3 under the recorded opcode, with buffer and opcode cleared. *)
Lemma fin_continuation_emits (r : Reader) (message_opcode : Z)
  (payload : bytes) (compressed : option bool) :
  _opcode r = Some message_opcode ->
  opt_truthy compressed = false ->
  truthy (_max_msg_size r)
  && (len (_partial r ++ payload) >=? _max_msg_size r) = false ->
  handle_frame r (mkFrame true (Some OP_CODE_CONTINUATION) payload compressed)
  = deliver_data message_opcode (_partial r ++ payload)
      (set__partial [] (set__opcode None r)).
Proof.
  intros Ho Hc Hs. rewrite handle_fin_data_frame by auto.
  unfold finish_message. cbn [Z.eqb OP_CODE_CONTINUATION]. rewrite Ho.
  unfold merge_payload. rewrite Hc.
  destruct (_partial r) as [|b p] eqn:Hp; cbn [nonempty].
  - cbn [app] in *.
    replace (_max_msg_size (set__opcode None r)) with (_max_msg_size r)
      by (destruct r; reflexivity).
    rewrite Hs. f_equal. destruct r; cbn in *. subst. reflexivity.
  - replace (_partial (set__opcode None r)) with (b :: p)
      by (destruct r; cbn in *; congruence).
    replace (_max_msg_size (set__partial [] (set__opcode None r)))
      with (_max_msg_size r) by (destruct r; reflexivity).
    rewrite Hs. reflexivity.
Qed.

(** A frame with fin = 0 raises nothing but MESSAGE_TOO_BIG, whatever the
    partial buffer and the recorded opcode are. *)
Lemma nonfin_data_frame_errors (r r' : Reader) (opcode : Z) (payload : bytes)
  (compressed : option bool) (e : exn) :
  opcode = OP_CODE_CONTINUATION \/ opcode = OP_CODE_TEXT
  \/ opcode = OP_CODE_BINARY ->
  handle_frame r (mkFrame false (Some opcode) payload compressed)
  = Raised e r' ->
  exists size, e = message_too_big size (_max_msg_size r).
Proof.
  intros Ho. rewrite handle_nonfin_data_frame by exact Ho. cbv zeta.
  destruct (truthy (_max_msg_size r) && _); [|discriminate].
  intros H. injection H as <- _. eauto.
Qed.

End Sequencing.


(** ** Messages within and beyond the size limit *)

Section SizeLimit.

Context {RT : Runtime}.

Lemma handle_frames_single (r : Reader) (f : Frame bytes) :
  handle_frames r [f] = handle_frame r f.
Proof. cbn [handle_frames]. destruct (handle_frame r f); reflexivity. Qed.

Lemma fin_continuation_too_big (r : Reader) (message_opcode : Z)
  (payload : bytes) (compressed : option bool) :
  _opcode r = Some message_opcode ->
  truthy (_max_msg_size r)
  && (len (_partial r ++ payload) >=? _max_msg_size r) = true ->
  exists r',
    handle_frame r
      (mkFrame true (Some OP_CODE_CONTINUATION) payload compressed)
    = Raised
        (message_too_big (len (_partial r ++ payload)) (_max_msg_size r)) r'.
Proof.
  intros Ho Hs. rewrite handle_fin_data_frame by auto.
  unfold finish_message. cbn [Z.eqb OP_CODE_CONTINUATION]. rewrite Ho.
  destruct (_partial r) as [|b p] eqn:Hp; cbn [nonempty].
  - cbn [app] in *.
    replace (_max_msg_size (set__opcode None r)) with (_max_msg_size r)
      by (destruct r; reflexivity).
    rewrite Hs. eauto.
  - replace (_partial (set__opcode None r)) with (b :: p)
      by (destruct r; cbn in *; congruence).
    replace (_max_msg_size (set__partial [] (set__opcode None r)))
      with (_max_msg_size r) by (destruct r; reflexivity).
    rewrite Hs. eauto.
Qed.

Lemma size_check_mono (M a b : Z) :
  a <= b ->
  truthy M && (b >=? M) = false -> truthy M && (a >=? M) = false.
Proof.
  unfold truthy. intros Hab H.
  destruct (M =? 0) eqn:E; cbn [negb andb] in *; [reflexivity|lia].
Qed.

(** The continuation frames of a message, from a reader that has recorded
    the opcode. *)
Lemma handle_continuations (more : list piece) :
  forall (r : Reader) (op : Z),
    more <> [] ->
    _opcode r = Some op ->
    let M := _max_msg_size r in
    let total := _partial r ++ List.concat (map snd more) in
    let frames := map raw_frame (continuations more) in
    (truthy M && (len total >=? M) = false ->
     handle_frames r frames
     = deliver_data op total (set__partial [] (set__opcode None r)))
    /\ (truthy M && (len total >=? M) = true ->
        exists size r',
          truthy M && (size >=? M) = true
          /\ handle_frames r frames = Raised (message_too_big size M) r').
Proof.
  induction more as [|p more IH]; intros r op Hne Ho; [congruence|].
  cbv zeta. destruct more as [|p' more].
  - cbn [continuations map List.concat raw_frame fragment w_fin w_opcode
           w_payload fst snd].
    rewrite app_nil_r, handle_frames_single. split.
    + intros Hs. apply fin_continuation_emits; auto.
    + intros Hs.
      destruct (fin_continuation_too_big r op (snd p) (Some false) Ho Hs)
        as [r' H].
      exists (len (_partial r ++ snd p)), r'. auto.
  - set (tail := p' :: more) in *.
    assert (Hc : continuations (p :: tail)
                 = fragment false OP_CODE_CONTINUATION p :: continuations tail)
      by reflexivity.
    rewrite Hc. cbn [map handle_frames].
    change (raw_frame (fragment false OP_CODE_CONTINUATION p))
      with (mkFrame false (Some OP_CODE_CONTINUATION) (snd p) (Some false)).
    rewrite handle_nonfin_data_frame by auto. cbv zeta.
    cbn [Z.eqb OP_CODE_CONTINUATION].
    set (r1 := set__partial (_partial r ++ snd p) r).
    assert (Hr1 : _opcode r1 = Some op /\ _max_msg_size r1 = _max_msg_size r
                  /\ _partial r1 = _partial r ++ snd p
                  /\ set__partial [] (set__opcode None r1)
                     = set__partial [] (set__opcode None r)).
    { subst r1. destruct r; cbn in *. auto. }
    destruct Hr1 as (Ho1 & HM1 & Hp1 & Hd1).
    assert (Hne1 : tail <> []) by (subst tail; discriminate).
    specialize (IH r1 op Hne1 Ho1). cbv zeta in IH.
    rewrite HM1, Hp1, Hd1 in IH.
    assert (Ht : (_partial r ++ snd p) ++ List.concat (map snd tail)
                 = _partial r ++ List.concat (map snd (p :: tail))).
    { cbn [map List.concat]. rewrite app_assoc. reflexivity. }
    rewrite Ht in IH. destruct IH as [IH1 IH2].
    assert (Hle : len (_partial r ++ snd p)
                  <= len (_partial r ++ List.concat (map snd (p :: tail)))).
    { rewrite <- Ht, (len_app (_ ++ _)).
      pose proof (len_nonneg (List.concat (map snd tail))). lia. }
    split.
    + intros Hs. rewrite (size_check_mono _ _ _ Hle Hs). auto.
    + intros Hs.
      destruct (truthy (_max_msg_size r)
                && (len (_partial r ++ snd p) >=? _max_msg_size r)) eqn:Hnow.
      * exists (len (_partial r ++ snd p)), r1. auto.
      * auto.
Qed.

Lemma single_frame_message (r : Reader) (opcode : Z) (payload : bytes) :
  opcode = OP_CODE_TEXT \/ opcode = OP_CODE_BINARY ->
  _partial r = [] ->
  handle_frame r (mkFrame true (Some opcode) payload (Some false)) =
  if truthy (_max_msg_size r) && (len payload >=? _max_msg_size r)
  then Raised (message_too_big (len payload) (_max_msg_size r)) r
  else deliver_data opcode payload r.
Proof.
  intros Ho Hp. rewrite handle_fin_data_frame by tauto.
  unfold finish_message, merge_payload.
  assert (Hc : (opcode =? OP_CODE_CONTINUATION) = false)
    by (destruct Ho as [->| ->]; reflexivity).
  rewrite Hc, Hp. reflexivity.
Qed.

(** The frames of a whole message, from a reader with an empty partial
    buffer. *)
Lemma handle_data_message (r : Reader) (opcode : Z) (first : piece)
  (more : list piece) :
  opcode = OP_CODE_TEXT \/ opcode = OP_CODE_BINARY ->
  _partial r = [] ->
  let M := _max_msg_size r in
  let payload := message_payload first more in
  let frames := map raw_frame (data_message opcode first more) in
  let assembled :=
    set__partial []
      match more with
      | [] => r
      | _ :: _ => set__opcode None r
      end in
  (truthy M && (len payload >=? M) = false ->
   handle_frames r frames = deliver_data opcode payload assembled)
  /\ (truthy M && (len payload >=? M) = true ->
      exists size r',
        truthy M && (size >=? M) = true
        /\ handle_frames r frames = Raised (message_too_big size M) r').
Proof.
  intros Hop Hp. cbv zeta. unfold message_payload.
  destruct more as [|p more].
  - cbn [data_message map List.concat raw_frame fragment w_fin w_opcode
           w_payload fst snd].
    rewrite app_nil_r, handle_frames_single.
    change (raw_frame (fragment true opcode first))
      with (mkFrame true (Some opcode) (snd first) (Some false)).
    rewrite single_frame_message by auto.
    replace (set__partial [] r) with r
      by (destruct r; cbn in *; subst; reflexivity).
    split; intros Hs; rewrite Hs; eauto.
  - set (tail := p :: more) in *.
    assert (Hd : data_message opcode first tail
                 = fragment false opcode first :: continuations tail)
      by reflexivity.
    rewrite Hd. cbn [map handle_frames].
    change (raw_frame (fragment false opcode first))
      with (mkFrame false (Some opcode) (snd first) (Some false)).
    rewrite handle_nonfin_data_frame by tauto. cbv zeta.
    assert (Hc : (opcode =? OP_CODE_CONTINUATION) = false)
      by (destruct Hop as [->| ->]; reflexivity).
    rewrite Hc, Hp. cbn [app].
    set (r1 := set__partial (snd first) (set__opcode (Some opcode) r)).
    assert (Hr1 : _opcode r1 = Some opcode
                  /\ _max_msg_size r1 = _max_msg_size r
                  /\ _partial r1 = snd first
                  /\ set__partial [] (set__opcode None r1)
                     = set__partial [] (set__opcode None r)).
    { subst r1. destruct r; cbn in *. auto. }
    destruct Hr1 as (Ho1 & HM1 & Hp1 & Hd1).
    assert (Hne1 : tail <> []) by (subst tail; discriminate).
    pose proof (handle_continuations tail r1 opcode Hne1 Ho1) as IH.
    cbv zeta in IH. rewrite HM1, Hp1, Hd1 in IH. destruct IH as [IH1 IH2].
    assert (Hle : len (snd first)
                  <= len (snd first ++ List.concat (map snd tail))).
    { rewrite len_app.
      pose proof (len_nonneg (List.concat (map snd tail))). lia. }
    split.
    + intros Hs. rewrite (size_check_mono _ _ _ Hle Hs). auto.
    + intros Hs.
      destruct (truthy (_max_msg_size r)
                && (len (snd first) >=? _max_msg_size r)) eqn:Hnow.
      * exists (len (snd first)), r1. auto.
      * auto.
Qed.

End SizeLimit.


(** ** Bytes on the wire *)

Lemma byte_val_of_Z (z : Z) : 0 <= z < 256 -> byte_val (byte_of_Z z) = z.
Proof.
  intros H. unfold byte_val, byte_of_Z. rewrite Z.mod_small by exact H.
  destruct (Byte.of_N (Z.to_N z)) as [b|] eqn:E.
  - apply Byte.to_of_N in E. rewrite E. lia.
  - apply Byte.of_N_None_iff in E. lia.
Qed.

Lemma byte_val_of_Z_mod (z : Z) : byte_val (byte_of_Z z) = z mod 256.
Proof.
  assert (H : byte_of_Z z = byte_of_Z (z mod 256)).
  { unfold byte_of_Z. rewrite Z.mod_mod by lia. reflexivity. }
  rewrite H. apply byte_val_of_Z. apply Z.mod_pos_bound. lia.
Qed.

Lemma byte_of_Z_val (b : byte) : byte_of_Z (byte_val b) = b.
Proof.
  unfold byte_val, byte_of_Z.
  pose proof (Byte.to_N_bounded b) as Hb.
  rewrite Z.mod_small by lia. rewrite N2Z.id, Byte.of_to_N. reflexivity.
Qed.

Lemma lxor_byte_range (x y : Z) :
  0 <= x < 256 -> 0 <= y < 256 -> 0 <= Z.lxor x y < 256.
Proof.
  intros Hx Hy.
  assert (Hn : 0 <= Z.lxor x y) by (apply Z.lxor_nonneg; lia).
  split; [exact Hn|].
  destruct (Z.eq_dec (Z.lxor x y) 0) as [->|Hz]; [lia|].
  change 256 with (2 ^ 8). apply Z.log2_lt_pow2; [lia|].
  pose proof (Z.log2_lxor x y ltac:(lia) ltac:(lia)) as Hl.
  assert (Hlx : Z.log2 x < 8).
  { destruct (Z.eq_dec x 0) as [->|]; [cbn; lia|].
    apply Z.log2_lt_pow2; [lia|]. change (2 ^ 8) with 256. lia. }
  assert (Hly : Z.log2 y < 8).
  { destruct (Z.eq_dec y 0) as [->|]; [cbn; lia|].
    apply Z.log2_lt_pow2; [lia|]. change (2 ^ 8) with 256. lia. }
  lia.
Qed.

Lemma byte_xor_involutive (a k : byte) : byte_xor (byte_xor a k) k = a.
Proof.
  unfold byte_xor.
  pose proof (byte_val_range a) as Ha. pose proof (byte_val_range k) as Hk.
  rewrite byte_val_of_Z by (apply lxor_byte_range; assumption).
  rewrite Z.lxor_assoc, Z.lxor_nilpotent, Z.lxor_0_r.
  apply byte_of_Z_val.
Qed.

Lemma mask_from_involutive (mask data : bytes) :
  forall i, mask_from i mask (mask_from i mask data) = data.
Proof.
  induction data as [|b data IH]; intros i; [reflexivity|].
  cbn [mask_from]. rewrite byte_xor_involutive, IH. reflexivity.
Qed.

Lemma websocket_mask_involutive (mask data : bytes) :
  websocket_mask mask (websocket_mask mask data) = data.
Proof. apply mask_from_involutive. Qed.

Lemma mask_from_length (mask data : bytes) :
  forall i, List.length (mask_from i mask data) = List.length data.
Proof.
  induction data as [|b data IH]; intros i; [reflexivity|].
  cbn [mask_from List.length]. rewrite IH. reflexivity.
Qed.

Lemma websocket_mask_len (mask data : bytes) :
  len (websocket_mask mask data) = len data.
Proof. unfold len, websocket_mask. rewrite mask_from_length. reflexivity. Qed.

Lemma unpack_be_snoc (data : bytes) (b : byte) :
  unpack_be (data ++ [b]) = unpack_be data * 256 + byte_val b.
Proof. unfold unpack_be. rewrite fold_left_app. reflexivity. Qed.

Lemma unpack_pack_be (n : nat) :
  forall z, 0 <= z -> unpack_be (pack_be n z) = z mod 256 ^ Z.of_nat n.
Proof.
  induction n as [|n IH]; intros z Hz.
  - cbn. rewrite Z.mod_1_r. reflexivity.
  - cbn [pack_be]. rewrite unpack_be_snoc.
    rewrite IH by (apply Z.div_pos; lia).
    rewrite byte_val_of_Z_mod.
    rewrite Nat2Z.inj_succ, Z.pow_succ_r by lia.
    rewrite (Z.rem_mul_r z 256 (256 ^ Z.of_nat n)) by lia. lia.
Qed.

Lemma pack_be_length (n : nat) : forall z, List.length (pack_be n z) = n.
Proof.
  induction n as [|n IH]; intros z; [reflexivity|].
  cbn [pack_be]. rewrite length_app, IH. cbn. lia.
Qed.

Lemma lor_shiftl_8 (hi lo : Z) :
  0 <= hi -> 0 <= lo < 256 -> Z.lor (Z.shiftl hi 8) lo = hi * 256 + lo.
Proof.
  intros Hhi Hlo. rewrite Z.shiftl_mul_pow2 by lia. change (2 ^ 8) with 256.
  assert (Hl : Z.land (hi * 256) lo = 0).
  { apply Z.bits_inj'. intros n Hn. rewrite Z.land_spec, Z.bits_0.
    destruct (Z.lt_ge_cases n 8) as [H|H].
    - change 256 with (2 ^ 8). rewrite Z.mul_pow2_bits_low by lia.
      reflexivity.
    - destruct (Z.eq_dec lo 0) as [->|Hz];
        [rewrite Z.bits_0; apply andb_false_r|].
      rewrite (Z.bits_above_log2 lo n); [apply andb_false_r|lia|].
      assert (Z.log2 lo < 8)
        by (apply Z.log2_lt_pow2; [lia|change (2 ^ 8) with 256; lia]).
      lia. }
  rewrite <- Z.lxor_lor by exact Hl.
  rewrite <- Z.add_nocarry_lxor by exact Hl. reflexivity.
Qed.

(** ** The parser reads back what the wire format lays out *)

Lemma testbit_7_byte (b : byte) :
  Z.testbit (byte_val b) 7 = (128 <=? byte_val b).
Proof. destruct b; reflexivity. Qed.

Lemma first_byte_fields (fin : bool) (opcode : Z) :
  0 <= opcode < 16 ->
  let b := byte_of_Z ((if fin then 128 else 0) + 0 + opcode) in
  Z.testbit (byte_val b) 7 = fin
  /\ Z.testbit (byte_val b) 6 = false
  /\ Z.testbit (byte_val b) 5 = false
  /\ Z.testbit (byte_val b) 4 = false
  /\ byte_val b mod 16 = opcode.
Proof.
  intros H.
  assert (E : opcode = 0 \/ opcode = 1 \/ opcode = 2 \/ opcode = 3
              \/ opcode = 4 \/ opcode = 5 \/ opcode = 6 \/ opcode = 7
              \/ opcode = 8 \/ opcode = 9 \/ opcode = 10 \/ opcode = 11
              \/ opcode = 12 \/ opcode = 13 \/ opcode = 14 \/ opcode = 15)
    by lia.
  destruct fin;
    repeat (destruct E as [E|E]; [subst; vm_compute; auto|]);
    subst; vm_compute; auto.
Qed.

Lemma second_byte_fields (mask : bool) (n : Z) :
  0 <= n < 128 ->
  let b := byte_of_Z ((if mask then 128 else 0) + n) in
  Z.testbit (byte_val b) 7 = mask /\ byte_val b mod 128 = n.
Proof.
  intros H. cbv zeta. rewrite testbit_7_byte.
  rewrite byte_val_of_Z by (destruct mask; lia).
  destruct mask.
  - split; [lia|].
    replace (128 + n) with (n + 1 * 128) by lia.
    rewrite Z.mod_add by lia. apply Z.mod_small. lia.
  - split; [lia|]. apply Z.mod_small. lia.
Qed.

Section Roundtrip.

Context {RT : Runtime}.

Lemma encode_length_flag (hm : bool) (n : Z) :
  0 <= n ->
  exists ext,
    encode_length hm n
    = byte_of_Z ((if hm then 128 else 0) + length_flag n) :: ext
    /\ (length_flag n = 126 ->
        exists e0 e1, ext = [e0; e1]
                      /\ Z.lor (Z.shiftl (byte_val e0) 8) (byte_val e1) = n)
    /\ (length_flag n > 126 ->
        List.length ext = 8%nat /\ (n < 2 ^ 64 -> UNPACK_LEN3 ext = n))
    /\ (length_flag n < 126 -> ext = [] /\ length_flag n = n).
Proof.
  intros Hn. unfold encode_length, length_flag.
  destruct (n <? 126) eqn:H1.
  - exists []. repeat split; try lia; auto.
  - destruct (n <? 65536) eqn:H2.
    + exists (pack_be 2 n). split; [reflexivity|]. split; [|split]; try lia.
      intros _. cbn [pack_be app].
      exists (byte_of_Z (n / 256)), (byte_of_Z n). split; [reflexivity|].
      rewrite lor_shiftl_8
        by (rewrite ?byte_val_of_Z_mod; try apply Z.mod_pos_bound; try lia;
            apply Z.mod_pos_bound; lia).
      rewrite !byte_val_of_Z_mod.
      rewrite (Z.mod_small (n / 256))
        by (split; [apply Z.div_pos; lia|apply Z.div_lt_upper_bound; lia]).
      pose proof (Z.div_mod n 256 ltac:(lia)). lia.
    + exists (pack_be 8 n). split; [reflexivity|]. split; [|split]; try lia.
      intros _. split; [apply pack_be_length|].
      intros Hb. unfold UNPACK_LEN3. rewrite unpack_pack_be by lia.
      apply Z.mod_small. change (256 ^ Z.of_nat 8) with (2 ^ 64). lia.
Qed.

Lemma flag_range (n : Z) : 0 <= n -> 0 <= length_flag n < 128.
Proof. unfold length_flag. intros H. destruct (n <? 126) eqn:E; [lia|].
  destruct (n <? 65536); lia. Qed.

Lemma read_header_encode (r : Reader) (w : WireFrame) (buf : bytes) :
  idle r -> wire_ok w ->
  exists r1,
    read_header r
      (byte_of_Z ((if w_fin w then 128 else 0)
                  + (if w_rsv1 w then 64 else 0) + w_opcode w)
       :: byte_of_Z ((if has_key w then 128 else 0)
                     + length_flag (len (w_payload w)))
       :: buf)
    = Next tt r1 buf
    /\ _state r1 = READ_PAYLOAD_LENGTH
    /\ _payload_length_flag r1 = length_flag (len (w_payload w))
    /\ frame_fields r1
       = (w_fin w, Some (w_opcode w), has_key w, Some false, [], []).
Proof.
  intros (Hs & Hp & Ht & Hc) (Hr & Ho & Hctl & Hl).
  rewrite (read_header_fields r _ _ buf Hs). cbv zeta. rewrite Hr.
  destruct (first_byte_fields (w_fin w) (w_opcode w) Ho)
    as (F7 & F6 & F5 & F4 & Fo).
  pose proof (len_nonneg (w_payload w)) as Hn.
  destruct (second_byte_fields (has_key w) (length_flag (len (w_payload w)))
              (flag_range _ Hn)) as (S7 & Sl).
  rewrite F7, F6, F5, F4, Fo, S7, Sl. cbn [orb andb].
  assert (C1 : (w_opcode w >? 7) && negb (w_fin w) = false).
  { destruct (w_opcode w >? 7) eqn:E; [|reflexivity].
    destruct Hctl as [-> _]; [lia|reflexivity]. }
  assert (C2 : (w_opcode w >? 7) && (length_flag (len (w_payload w)) >? 125)
               = false).
  { destruct (w_opcode w >? 7) eqn:E; [|reflexivity].
    destruct Hctl as [_ H125]; [lia|]. unfold length_flag.
    replace (len (w_payload w) <? 126) with true by lia. cbn [andb]. lia. }
  rewrite C1, C2.
  destruct (_frame_fin r || is_None (_compressed r)) eqn:E.
  - eexists. split; [reflexivity|].
    destruct r; cbn in *. subst. auto.
  - eexists. split; [reflexivity|].
    assert (Hf : _compressed r = Some false).
    { destruct (_compressed r) as [[|]|]; try congruence.
      rewrite orb_true_r in E. discriminate. }
    destruct r; cbn in *. subst. auto.
Qed.

Lemma read_payload_length_encode (r1 : Reader) (hm : bool) (n : Z)
  (ext buf : bytes) :
  _state r1 = READ_PAYLOAD_LENGTH ->
  _payload_length_flag r1 = length_flag n ->
  _has_mask r1 = hm ->
  0 <= n < 2 ^ 64 ->
  encode_length hm n
  = byte_of_Z ((if hm then 128 else 0) + length_flag n) :: ext ->
  exists r2,
    read_payload_length r1 (ext ++ buf) = Next tt r2 buf
    /\ _state r2 = (if hm then READ_PAYLOAD_MASK else READ_PAYLOAD)
    /\ _payload_length r2 = n
    /\ frame_fields r2 = frame_fields r1.
Proof.
  intros Hs Hf Hm Hn He.
  destruct (encode_length_flag hm n (proj1 Hn))
    as (ext' & He' & H126 & H127 & Hsmall).
  rewrite He in He'. injection He' as <-.
  unfold read_payload_length. rewrite Hs. cbn [state_eqb]. rewrite Hf.
  cbv zeta.
  destruct (length_flag n =? 126) eqn:E1.
  - destruct H126 as (e0 & e1 & -> & Hv); [lia|]. cbn [app]. rewrite Hv.
    eexists. split; [reflexivity|]. destruct r1; cbn in *; subst; auto.
  - destruct (length_flag n >? 126) eqn:E2.
    + destruct H127 as (Hl8 & Hv); [lia|].
      assert (Hlen : (len (ext ++ buf) <? 8) = false).
      { rewrite len_app. pose proof (len_nonneg buf). unfold len in *. lia. }
      rewrite Hlen, firstn_app_le, skipn_app_le by lia.
      rewrite firstn_all2, skipn_all2 by lia.
      rewrite (Hv (proj2 Hn)). cbn [app].
      eexists. split; [reflexivity|]. destruct r1; cbn in *; subst; auto.
    + destruct Hsmall as (-> & Hv); [lia|]. rewrite Hv. cbn [app].
      eexists. split; [reflexivity|]. destruct r1; cbn in *; subst; auto.
Qed.

Lemma read_payload_mask_encode (r2 : Reader) (k : byte * byte * byte * byte)
  (buf : bytes) :
  _state r2 = READ_PAYLOAD_MASK ->
  exists r3,
    read_payload_mask r2 (key_bytes k ++ buf) = Next tt r3 buf
    /\ _state r3 = READ_PAYLOAD
    /\ _frame_mask r3 = Some (key_bytes k)
    /\ _payload_length r3 = _payload_length r2
    /\ frame_fields r3 = frame_fields r2.
Proof.
  intros Hs. unfold read_payload_mask. rewrite Hs. cbn [state_eqb].
  destruct k as [[[k0 k1] k2] k3]. cbn [key_bytes app].
  assert (Hl : (len (k0 :: k1 :: k2 :: k3 :: buf) <? 4) = false).
  { rewrite !len_cons. pose proof (len_nonneg buf). lia. }
  rewrite Hl. cbn [firstn skipn].
  eexists. split; [reflexivity|]. destruct r2; cbn; auto.
Qed.

Lemma read_payload_encode (r3 : Reader) (w : WireFrame) (buf : bytes) :
  _state r3 = READ_PAYLOAD ->
  _payload_length r3 = len (w_payload w) ->
  frame_fields r3
  = (w_fin w, Some (w_opcode w), has_key w, Some false, [], []) ->
  (forall k, w_mask w = Some k -> _frame_mask r3 = Some (key_bytes k)) ->
  exists r',
    read_payload r3
      (match w_mask w with
       | Some k => websocket_mask (key_bytes k) (w_payload w)
       | None => w_payload w
       end ++ buf)
    = Next (Some (raw_frame w)) r' buf
    /\ idle r'.
Proof.
  intros Hs Hl Hf Hk. unfold frame_fields in Hf.
  injection Hf as F1 F2 F3 F4 F5 F6.
  rewrite (read_payload_cases _ _ Hs), Hl.
  set (wp := match w_mask w with
             | Some k => websocket_mask (key_bytes k) (w_payload w)
             | None => w_payload w
             end).
  assert (Hwp : len wp = len (w_payload w)).
  { subst wp. destruct (w_mask w); [apply websocket_mask_len|reflexivity]. }
  assert (Hgt : (len (w_payload w) >? len (wp ++ buf)) = false).
  { rewrite len_app, Hwp. pose proof (len_nonneg buf). lia. }
  rewrite Hgt.
  assert (Hn : Z.to_nat (len (w_payload w)) = List.length wp).
  { rewrite <- Hwp. unfold len. lia. }
  rewrite Hn, firstn_app_le, skipn_app_le by lia.
  rewrite firstn_all, skipn_all. cbn [app].
  unfold emit_frame, raw_frame, has_key in *.
  destruct (w_mask w) as [k|] eqn:Hm.
  - specialize (Hk k eq_refl). subst wp.
    destruct r3; cbn in *. subst. cbn.
    rewrite websocket_mask_involutive.
    eexists. split; [reflexivity|]. unfold idle. cbn.
    repeat split; congruence.
  - subst wp. destruct r3; cbn in *. subst. cbn.
    eexists. split; [reflexivity|]. unfold idle. cbn.
    repeat split; congruence.
Qed.

(** One pass over the encoding of a frame emits the frame. *)
Lemma parse_pass_encode (r : Reader) (w : WireFrame) (rest : bytes) :
  idle r -> wire_ok w ->
  exists r',
    parse_pass r (encode_frame w ++ rest) = Next (Some (raw_frame w)) r' rest
    /\ idle r'.
Proof.
  intros Hi Hw.
  pose proof Hw as (Hr & Ho & Hctl & Hl).
  pose proof (len_nonneg (w_payload w)) as Hn.
  destruct (encode_length_flag (has_key w) (len (w_payload w)) Hn)
    as (ext & He & _).
  unfold encode_frame. fold (has_key w). rewrite He.
  cbn [app]. rewrite <- app_assoc.
  destruct (read_header_encode r w
              (ext ++ (match w_mask w with
                       | Some k =>
                           key_bytes k
                           ++ websocket_mask (key_bytes k) (w_payload w)
                       | None => w_payload w
                       end ++ rest)) Hi Hw)
    as (r1 & H1 & S1 & L1 & F1).
  unfold parse_pass. rewrite H1. cbn [flow_bind].
  assert (M1 : _has_mask r1 = has_key w)
    by (unfold frame_fields in F1; congruence).
  destruct (read_payload_length_encode r1 (has_key w) (len (w_payload w)) ext
              (match w_mask w with
               | Some k =>
                   key_bytes k ++ websocket_mask (key_bytes k) (w_payload w)
               | None => w_payload w
               end ++ rest) S1 L1 M1 (conj Hn Hl) He)
    as (r2 & H2 & S2 & P2 & F2).
  rewrite H2. cbn [flow_bind].
  unfold has_key in S2.
  destruct (w_mask w) as [k|] eqn:Hm; cbv iota in S2.
  - rewrite <- app_assoc.
    destruct (read_payload_mask_encode r2 k
                (websocket_mask (key_bytes k) (w_payload w) ++ rest) S2)
      as (r3 & H3 & S3 & K3 & P3 & F3).
    rewrite H3. cbn [flow_bind].
    pose proof (read_payload_encode r3 w rest S3) as H4.
    rewrite Hm in H4. apply H4.
    + congruence.
    + congruence.
    + intros k' E. congruence.
  - rewrite read_payload_mask_skip by congruence. cbn [flow_bind].
    pose proof (read_payload_encode r2 w rest S2) as H4.
    rewrite Hm in H4. apply H4.
    + exact P2.
    + congruence.
    + discriminate.
Qed.

(** The loop over the encoding of a list of frames emits the frames. *)
Lemma parses_encode (ws : list WireFrame) :
  forall (r : Reader) frames,
    idle r -> Forall wire_ok ws ->
    exists r',
      parses r (encode_frames ws) frames
        (Frames (frames ++ map raw_frame ws) r')
      /\ idle r'.
Proof.
  induction ws as [|w ws IH]; intros r frames Hi Hw.
  - exists r. split; [|exact Hi]. apply parses_unfold.
    destruct Hi as (Hs & Hp & Ht & Hc).
    unfold encode_frames. cbn [map List.concat].
    unfold parse_pass, read_header. rewrite Hs. cbn [state_eqb flow_bind].
    rewrite app_nil_r. f_equal. symmetry.
    rewrite <- Ht. destruct r; reflexivity.
  - inversion Hw as [|w' ws' Hw1 Hw2]; subst.
    unfold encode_frames. cbn [map List.concat].
    fold (encode_frames ws).
    destruct (parse_pass_encode r w (encode_frames ws) Hi Hw1)
      as (r1 & H1 & Hi1).
    destruct (IH r1 (frames ++ [raw_frame w]) Hi1 Hw2) as (r' & H & Hi').
    exists r'. split; [|exact Hi'].
    apply parses_unfold. rewrite H1. cbn [add_frame].
    rewrite <- app_assoc in H. exact H.
Qed.

Lemma parse_frame_encode (ws : list WireFrame) (r : Reader) :
  idle r -> Forall wire_ok ws ->
  exists r',
    parse_frame r (encode_frames ws) = Frames (map raw_frame ws) r'
    /\ idle r'.
Proof.
  intros Hi Hw. destruct (parses_encode ws r [] Hi Hw) as (r' & H & Hi').
  exists r'. split; [|exact Hi'].
  eapply parses_det; [apply parse_frame_parses|].
  destruct Hi as (Hs & Hp & Ht & Hc).
  rewrite Ht, set_tail_id by exact Ht. exact H.
Qed.

End Roundtrip.

(** ** The handling of a frame does not read the queue *)

Section Queue.

Context {RT : Runtime}.

Lemma merge_payload_requeue (q : DataQueue bytes) (r : Reader) compressed
  payload :
  merge_payload compressed payload (requeue q r)
  = (fst (merge_payload compressed payload r),
     requeue q (snd (merge_payload compressed payload r))).
Proof.
  unfold merge_payload. destruct (opt_truthy compressed); [|reflexivity].
  replace (_decompressobj (requeue q r)) with (_decompressobj r)
    by (destruct r; reflexivity).
  replace (_max_msg_size (requeue q r)) with (_max_msg_size r)
    by (destruct r; reflexivity).
  destruct (decompress_sync _ _ _) as [[[d p] u]|].
  - destruct (nonempty u); destruct r; reflexivity.
  - destruct r; reflexivity.
Qed.

Lemma deliver_data_requeue (q : DataQueue bytes) (r : Reader) opcode payload :
  deliver_data opcode payload (requeue q r)
  = result_map (requeue q) (deliver_data opcode payload r).
Proof.
  unfold deliver_data. destruct (opcode =? OP_CODE_TEXT).
  - destruct (utf8_decode payload); [|reflexivity].
    destruct r; cbn. unfold requeue; cbn. rewrite app_assoc. reflexivity.
  - destruct r; cbn. unfold requeue; cbn. rewrite app_assoc. reflexivity.
Qed.

Lemma handle_close_requeue (q : DataQueue bytes) (r : Reader) fin opcode
  payload :
  handle_close fin opcode payload (requeue q r)
  = result_map (requeue q) (handle_close fin opcode payload r).
Proof.
  unfold handle_close. destruct (len payload >=? 2).
  - destruct (_ && _); [reflexivity|].
    destruct (utf8_decode _); [|reflexivity].
    destruct r; cbn. unfold requeue; cbn. rewrite app_assoc. reflexivity.
  - destruct (nonempty payload); [reflexivity|].
    destruct r; cbn. unfold requeue; cbn. rewrite app_assoc. reflexivity.
Qed.

Lemma finish_message_requeue (q : DataQueue bytes) (r : Reader) opcode cont
  payload compressed :
  finish_message (requeue q r) opcode cont payload compressed
  = result_map (requeue q)
      (finish_message r opcode cont payload compressed).
Proof.
  assert (Size : forall (b : Reader) op assembled,
             (if truthy (_max_msg_size (requeue q b))
                 && (len assembled >=? _max_msg_size (requeue q b))
              then Raised
                     (message_too_big (len assembled)
                        (_max_msg_size (requeue q b))) (requeue q b)
              else
                match merge_payload compressed assembled (requeue q b) with
                | (inl e, r) => Raised e r
                | (inr payload_merged, r) => deliver_data op payload_merged r
                end)
             = result_map (requeue q)
                 (if truthy (_max_msg_size b)
                     && (len assembled >=? _max_msg_size b)
                  then Raised
                         (message_too_big (len assembled) (_max_msg_size b)) b
                  else
                    match merge_payload compressed assembled b with
                    | (inl e, r) => Raised e r
                    | (inr payload_merged, r) =>
                        deliver_data op payload_merged r
                    end)).
  { intros b0 op assembled.
    replace (_max_msg_size (requeue q b0)) with (_max_msg_size b0)
      by (destruct b0; reflexivity).
    destruct (truthy (_max_msg_size b0) && _); [reflexivity|].
    rewrite merge_payload_requeue.
    destruct (merge_payload compressed assembled b0) as [[e|p] b3];
      cbn [fst snd]; [reflexivity|apply deliver_data_requeue]. }
  unfold finish_message.
  replace (_partial (requeue q r)) with (_partial r)
    by (destruct r; reflexivity).
  replace (_opcode (requeue q r)) with (_opcode r)
    by (destruct r; reflexivity).
  destruct cont.
  - destruct (_opcode r) as [op|]; [|reflexivity].
    replace (set__opcode None (requeue q r))
      with (requeue q (set__opcode None r)) by (destruct r; reflexivity).
    destruct (nonempty (_partial r)).
    + replace (_partial (requeue q (set__opcode None r)))
        with (_partial (set__opcode None r)) by (destruct r; reflexivity).
      replace (set__partial [] (requeue q (set__opcode None r)))
        with (requeue q (set__partial [] (set__opcode None r)))
        by (destruct r; reflexivity).
      apply Size.
    + apply Size.
  - destruct (nonempty (_partial r)); [reflexivity|]. apply Size.
Qed.

Lemma handle_frame_requeue (q : DataQueue bytes) (r : Reader) frame :
  handle_frame (requeue q r) frame
  = result_map (requeue q) (handle_frame r frame).
Proof.
  unfold handle_frame.
  destruct (f_opcode frame) as [opcode|]; [|reflexivity].
  destruct ((opcode =? OP_CODE_TEXT) || (opcode =? OP_CODE_BINARY)
            || (opcode =? OP_CODE_CONTINUATION)).
  - destruct (negb (f_fin frame)).
    + assert (E : (if negb (opcode =? OP_CODE_CONTINUATION)
                   then set__opcode (Some opcode) (requeue q r)
                   else requeue q r)
                  = requeue q (if negb (opcode =? OP_CODE_CONTINUATION)
                               then set__opcode (Some opcode) r else r)).
      { destruct (negb (opcode =? OP_CODE_CONTINUATION));
          destruct r; reflexivity. }
      cbv zeta. rewrite E.
      generalize (if negb (opcode =? OP_CODE_CONTINUATION)
                  then set__opcode (Some opcode) r else r).
      intros b1.
      replace (set__partial (_partial (requeue q b1) ++ f_payload frame)
                 (requeue q b1))
        with (requeue q (set__partial (_partial b1 ++ f_payload frame) b1))
        by (destruct b1; reflexivity).
      generalize (set__partial (_partial b1 ++ f_payload frame) b1).
      intros b2.
      replace (_max_msg_size (requeue q b2)) with (_max_msg_size b2)
        by (destruct b2; reflexivity).
      replace (_partial (requeue q b2)) with (_partial b2)
        by (destruct b2; reflexivity).
      destruct (truthy (_max_msg_size b2) && _); reflexivity.
    + apply finish_message_requeue.
  - destruct (opcode =? OP_CODE_CLOSE); [apply handle_close_requeue|].
    destruct (opcode =? OP_CODE_PING).
    { destruct r; cbn. unfold requeue; cbn. rewrite app_assoc. reflexivity. }
    destruct (opcode =? OP_CODE_PONG); [|reflexivity].
    destruct r; cbn. unfold requeue; cbn. rewrite app_assoc. reflexivity.
Qed.

Lemma handle_frames_requeue (frames : list (Frame bytes)) :
  forall (q : DataQueue bytes) (r : Reader),
    handle_frames (requeue q r) frames
    = result_map (requeue q) (handle_frames r frames).
Proof.
  induction frames as [|f frames IH]; intros q r; [reflexivity|].
  cbn [handle_frames]. rewrite handle_frame_requeue.
  destruct (handle_frame r f) as [r'|e r']; cbn [result_map];
    [apply IH|reflexivity].
Qed.





Lemma continuations_ok (pieces : list piece) :
  Forall (fun p => len (snd p) < 2 ^ 64) pieces ->
  Forall wire_ok (continuations pieces).
Proof.
  induction pieces as [|p pieces IH]; intros H; [constructor|].
  inversion H as [|p' ps' Hp Hps]; subst.
  assert (Hw : forall fin, wire_ok (fragment fin OP_CODE_CONTINUATION p)).
  { intros fin. unfold wire_ok, fragment, OP_CODE_CONTINUATION. cbn.
    repeat split; try lia; auto. }
  cbn [continuations]. destruct pieces as [|p1 pieces].
  - constructor; [apply Hw|constructor].
  - constructor; [apply Hw|apply IH; exact Hps].
Qed.

End Queue.

(** ** One chunk that the parser accepts *)

Section SingleChunk.

Context {RT : Runtime}.

Lemma feed_data_frames (r rS r1 : Reader) (data : bytes)
  (frames : list (Frame bytes)) :
  _exc r = None ->
  parse_frame r data = Frames frames rS ->
  handle_frames r frames = Done r1 ->
  feed_data r data = (EMPTY_FRAME, graft rS r1).
Proof.
  intros He Hp Hh. rewrite (feed_data_unlatched r data He).
  unfold _feed_data. rewrite Hp.
  pose proof (parse_frame_keeps r data) as K. rewrite Hp in K.
  cbn [parsed_reader] in K. rewrite K, handle_frames_graft, Hh.
  cbn [result_map]. rewrite graft_left. reflexivity.
Qed.


Lemma encode_frames_one (w : WireFrame) : encode_frames [w] = encode_frame w.
Proof. unfold encode_frames. cbn [map List.concat]. apply app_nil_r. Qed.

Lemma fragment_ok (fin : bool) (opcode : Z) (p : piece) :
  opcode = OP_CODE_CONTINUATION \/ opcode = OP_CODE_TEXT
  \/ opcode = OP_CODE_BINARY ->
  len (snd p) < 2 ^ 64 ->
  wire_ok (fragment fin opcode p).
Proof.
  intros Ho Hl. unfold wire_ok, fragment. cbn.
  unfold OP_CODE_CONTINUATION, OP_CODE_TEXT, OP_CODE_BINARY in Ho.
  repeat split; try lia; auto.
Qed.



End SingleChunk.

(** ** The store of bytearrays *)

Section StoreFacts.

Import Store.

Lemma assign_length (h : heap) : forall l v,
  List.length (assign h l v) = List.length h.
Proof.
  induction h as [|x h IH]; intros l v; [reflexivity|].
  destruct l; cbn [assign List.length]; [reflexivity|].
  rewrite IH. reflexivity.
Qed.

Lemma content_assign_other (h : heap) : forall l l' v,
  l' <> l -> content (assign h l v) l' = content h l'.
Proof.
  unfold content. induction h as [|x h IH]; intros l l' v Hne;
    [reflexivity|].
  destruct l, l'; cbn [assign nth]; try reflexivity; try congruence.
  apply IH. congruence.
Qed.

Lemma content_assign_same (h : heap) : forall l v,
  (l < List.length h)%nat -> content (assign h l v) l = v.
Proof.
  unfold content. induction h as [|x h IH]; intros l v Hl;
    [cbn in Hl; lia|].
  destruct l; cbn [assign nth]; [reflexivity|].
  apply IH. cbn in Hl. lia.
Qed.

Lemma content_bytearray_old (h : heap) (l : loc) :
  (l < List.length h)%nat -> content (snd (bytearray h)) l = content h l.
Proof. intros H. unfold content, bytearray. cbn [snd]. apply app_nth1, H. Qed.

Lemma content_bytearray_new (h : heap) :
  content (snd (bytearray h)) (fst (bytearray h)) = [].
Proof.
  unfold content, bytearray. cbn [fst snd].
  rewrite app_nth2 by lia. rewrite Nat.sub_diag. reflexivity.
Qed.

Lemma iadd_length (h : heap) (b : loc) (data : bytes) :
  List.length (iadd h b data) = List.length h.
Proof. apply assign_length. Qed.

Lemma content_iadd_other (h : heap) (b l : loc) (data : bytes) :
  l <> b -> content (iadd h b data) l = content h l.
Proof. intros H. apply content_assign_other, H. Qed.

End StoreFacts.

Section StoreParser.

Context {RT : Runtime}.

Import Store.

Ltac split_ifs :=
  repeat match goal with
         | |- context [if ?c then _ else _] => destruct c eqn:?
         end.

(** The header, length and mask blocks do not touch the two bytearray
    attributes. *)
Lemma read_header_buffers (r : SReader) buf :
  _frame_payload (flow_reader (read_header r buf)) = _frame_payload r
  /\ _partial (flow_reader (read_header r buf)) = _partial r.
Proof.
  unfold read_header. destruct (state_eqb _ _); [|auto].
  destruct buf as [|b0 [|b1 rest]]; [auto|auto|].
  split_ifs; destruct r; cbn; auto.
Qed.

Lemma read_payload_length_buffers (r : SReader) buf :
  _frame_payload (flow_reader (read_payload_length r buf)) = _frame_payload r
  /\ _partial (flow_reader (read_payload_length r buf)) = _partial r.
Proof.
  unfold read_payload_length. destruct (state_eqb _ _); [|auto].
  cbv zeta. destruct (_ =? 126).
  - destruct buf as [|b0 [|b1 rest]]; [auto|auto|]. destruct r; cbn; auto.
  - destruct (_ >? 126).
    + destruct (len buf <? 8); [auto|]. destruct r; cbn; auto.
    + destruct r; cbn; auto.
Qed.

Lemma read_payload_mask_buffers (r : SReader) buf :
  _frame_payload (flow_reader (read_payload_mask r buf)) = _frame_payload r
  /\ _partial (flow_reader (read_payload_mask r buf)) = _partial r.
Proof.
  unfold read_payload_mask. destruct (state_eqb _ _); [|auto].
  destruct (len buf <? 4); [auto|]. destruct r; cbn; auto.
Qed.

Lemma before_payload_buffers (r : SReader) buf :
  let x :=
    flow_bind (read_header r buf) (fun _ r buf =>
    flow_bind (read_payload_length r buf) (fun _ r buf =>
    read_payload_mask r buf)) in
  _frame_payload (flow_reader x) = _frame_payload r
  /\ _partial (flow_reader x) = _partial r.
Proof.
  cbv zeta. pose proof (read_header_buffers r buf) as [A1 A2].
  destruct (read_header r buf) as [u1 r1 buf1| |]; cbn [flow_bind flow_reader]
    in *; [|auto|auto].
  pose proof (read_payload_length_buffers r1 buf1) as [B1 B2].
  destruct (read_payload_length r1 buf1) as [u2 r2 buf2| |];
    cbn [flow_bind flow_reader] in *; [|split; congruence..].
  pose proof (read_payload_mask_buffers r2 buf2) as [C1 C2].
  split; congruence.
Qed.

(** What the payload block does to the store: it changes the payload
    bytearray of the frame in progress and no other, and when it emits the
    frame it binds the attribute to a new, empty bytearray. *)
Lemma read_payload_store (r : SReader) buf (h : heap) :
  (_frame_payload r < List.length h)%nat ->
  let '(x, h') := read_payload r buf h in
  (forall l, l <> _frame_payload r -> (l < List.length h)%nat ->
             content h' l = content h l)
  /\ _partial (flow_reader x) = _partial r
  /\ match x with
     | Next (Some f) r' _ =>
         f_payload f = _frame_payload r
         /\ _frame_payload r' = List.length h
         /\ List.length h' = S (List.length h)
         /\ content h' (_frame_payload r') = []
     | _ =>
         _frame_payload (flow_reader x) = _frame_payload r
         /\ List.length h' = List.length h
     end.
Proof.
  intros Hfp. unfold read_payload.
  destruct (state_eqb _ _); [|cbn; auto].
  set (taken := if _payload_length r >=? len buf then buf
                else firstn (Z.to_nat (_payload_length r)) buf).
  set (r1 := if _payload_length r >=? len buf
             then set__payload_length (_payload_length r - len buf) r
             else set__payload_length 0 r).
  set (rest := if _payload_length r >=? len buf then []
               else skipn (Z.to_nat (_payload_length r)) buf).
  assert (E : (if _payload_length r >=? len buf
               then (set__payload_length (_payload_length r - len buf) r,
                     iadd h (_frame_payload r) buf, [])
               else (set__payload_length 0 r,
                     iadd h (_frame_payload r)
                       (firstn (Z.to_nat (_payload_length r)) buf),
                     skipn (Z.to_nat (_payload_length r)) buf))
              = (r1, iadd h (_frame_payload r) taken, rest)).
  { subst taken r1 rest. destruct (_ >=? _); reflexivity. }
  rewrite E. clear E. cbv zeta.
  assert (R1 : _frame_payload r1 = _frame_payload r
               /\ _partial r1 = _partial r).
  { subst r1. destruct (_ >=? _); destruct r; cbn; auto. }
  destruct R1 as [R1 R2].
  set (h1 := iadd h (_frame_payload r) taken).
  assert (H1 : forall l, l <> _frame_payload r -> content h1 l = content h l)
    by (intros l Hl; apply content_iadd_other, Hl).
  assert (L1 : List.length h1 = List.length h) by apply iadd_length.
  destruct (negb (_payload_length r1 =? 0)).
  - cbn [flow_reader]. repeat split; auto.
  - assert (Emit : forall h2 : heap,
               (forall l, l <> _frame_payload r -> content h2 l = content h l)
               -> List.length h2 = List.length h ->
               let '(x, h') :=
                 (let '(fresh, h0) := bytearray h2 in
                  (Next
                     (Some
                        (mkFrame (_frame_fin r1) (_frame_opcode r1)
                           (_frame_payload r) (_compressed r1)))
                     (set__state READ_HEADER (set__frame_payload fresh r1))
                     rest, h0)) in
               (forall l, l <> _frame_payload r -> (l < List.length h)%nat ->
                          content h' l = content h l)
               /\ _partial (flow_reader x) = _partial r
               /\ match x with
                  | Next (Some f) r' _ =>
                      f_payload f = _frame_payload r
                      /\ _frame_payload r' = List.length h
                      /\ List.length h' = S (List.length h)
                      /\ content h' (_frame_payload r') = []
                  | _ =>
                      _frame_payload (flow_reader x) = _frame_payload r
                      /\ List.length h' = List.length h
                  end).
    { intros h2 H2 L2. unfold bytearray. cbn [flow_reader f_payload].
      split; [|split; [|split; [|split; [|split]]]].
      - intros l Hl Hlt. rewrite <- (H2 l Hl).
        unfold content. apply app_nth1. lia.
      - destruct r1; cbn in *. exact R2.
      - reflexivity.
      - destruct r1; cbn. exact L2.
      - rewrite length_app. cbn. lia.
      - replace (_frame_payload
                   (set__state READ_HEADER
                      (set__frame_payload (List.length h2) r1)))
          with (List.length h2) by (destruct r1; reflexivity).
        unfold content. rewrite app_nth2 by lia. rewrite Nat.sub_diag.
        reflexivity. }
    destruct (_has_mask r1).
    + destruct (_frame_mask r1) as [mask|].
      * apply Emit.
        -- intros l Hl. rewrite content_assign_other by exact Hl. auto.
        -- rewrite assign_length. exact L1.
      * cbn [flow_reader]. repeat split; auto.
    + apply Emit; assumption.
Qed.

End StoreParser.

Section StoreInvariant.

Context {RT : Runtime}.

Import Store.

Lemma keeps_refl (r : SReader) (h : heap) : well_formed r h -> keeps r h r h.
Proof.
  intros H. split; [exact H|]. split; [lia|].
  intros l Hl. split; [exact Hl|reflexivity].
Qed.

Lemma keeps_trans (r1 r2 r3 : SReader) (h1 h2 h3 : heap) :
  keeps r1 h1 r2 h2 -> keeps r2 h2 r3 h3 -> keeps r1 h1 r3 h3.
Proof.
  intros (W2 & L2 & K2) (W3 & L3 & K3). split; [exact W3|].
  split; [lia|]. intros l Hl.
  destruct (K2 l Hl) as [D2 C2]. destruct (K3 l D2) as [D3 C3].
  split; [exact D3|congruence].
Qed.

(** A change of attributes that are not bytearrays keeps everything. *)
Lemma keeps_same_buffers (r r' : SReader) (h : heap) :
  well_formed r h ->
  _frame_payload r' = _frame_payload r -> _partial r' = _partial r ->
  keeps r h r' h.
Proof.
  intros (W1 & W2 & W3) E1 E2. unfold keeps, well_formed, detached.
  rewrite E1, E2. repeat split; auto; tauto.
Qed.

(** The parser makes no call on the queue. *)
Lemma read_header_queue (r : SReader) buf :
  queue (flow_reader (read_header r buf)) = queue r.
Proof.
  unfold read_header. destruct (state_eqb _ _); [|auto].
  destruct buf as [|b0 [|b1 rest]]; [auto|auto|].
  repeat match goal with
         | |- context [if ?c then _ else _] => destruct c
         end; destruct r; reflexivity.
Qed.

Lemma read_payload_length_queue (r : SReader) buf :
  queue (flow_reader (read_payload_length r buf)) = queue r.
Proof.
  unfold read_payload_length. destruct (state_eqb _ _); [|auto].
  cbv zeta. destruct (_ =? 126).
  - destruct buf as [|b0 [|b1 rest]]; [auto|auto|]. destruct r; reflexivity.
  - destruct (_ >? 126).
    + destruct (len buf <? 8); [auto|]. destruct r; reflexivity.
    + destruct r; reflexivity.
Qed.

Lemma read_payload_mask_queue (r : SReader) buf :
  queue (flow_reader (read_payload_mask r buf)) = queue r.
Proof.
  unfold read_payload_mask. destruct (state_eqb _ _); [|auto].
  destruct (len buf <? 4); [auto|]. destruct r; reflexivity.
Qed.

Lemma read_payload_queue (r : SReader) buf (h : heap) :
  queue (flow_reader (fst (read_payload r buf h))) = queue r.
Proof.
  unfold read_payload. destruct (state_eqb _ _); [|auto].
  destruct (_ >=? _); cbv zeta;
    (destruct (negb _); [destruct r; reflexivity|]);
    (destruct (_has_mask _);
     [destruct (_frame_mask _); destruct r; reflexivity
     |destruct r; reflexivity]).
Qed.

Lemma parse_pass_queue (r : SReader) buf (h : heap) :
  queue (flow_reader (fst (parse_pass r buf h))) = queue r.
Proof.
  unfold parse_pass.
  pose proof (read_header_queue r buf) as A.
  destruct (read_header r buf) as [u1 r1 buf1| |];
    cbn [flow_bind flow_reader] in *; [|exact A..].
  pose proof (read_payload_length_queue r1 buf1) as B.
  destruct (read_payload_length r1 buf1) as [u2 r2 buf2| |];
    cbn [flow_bind flow_reader] in *; [|cbn; congruence..].
  pose proof (read_payload_mask_queue r2 buf2) as C.
  destruct (read_payload_mask r2 buf2) as [u3 r3 buf3| |];
    cbn [flow_bind flow_reader] in *; [|cbn; congruence..].
  rewrite read_payload_queue. congruence.
Qed.

Lemma parse_loop_queue (fuel : nat) :
  forall (r : SReader) buf (h : heap) frames p h',
    parse_loop fuel r buf h frames = Some (p, h') ->
    queue (parsed_reader p) = queue r.
Proof.
  induction fuel as [|fuel IH]; intros r buf h frames p h' H; [discriminate|].
  cbn [parse_loop] in H. pose proof (parse_pass_queue r buf h) as Q.
  destruct (parse_pass r buf h) as [[f r1 buf1|r1 buf1|e r1] h1];
    cbn [fst flow_reader] in Q.
  - rewrite (IH _ _ _ _ _ _ H). exact Q.
  - injection H as <- <-. cbn [parsed_reader]. rewrite <- Q.
    destruct r1; reflexivity.
  - injection H as <- <-. exact Q.
Qed.

Lemma parse_frame_queue (r : SReader) buf (h : heap) :
  queue (parsed_reader (fst (parse_frame r buf h))) = queue r.
Proof.
  unfold parse_frame.
  destruct (nonempty (_tail r)).
  - destruct (parse_loop _ _ _ _ _) as [[p h1]|] eqn:H; cbn [fst].
    + rewrite (parse_loop_queue _ _ _ _ _ _ _ H). destruct r; reflexivity.
    + destruct r; reflexivity.
  - destruct (parse_loop _ _ _ _ _) as [[p h1]|] eqn:H; cbn [fst].
    + apply (parse_loop_queue _ _ _ _ _ _ _ H).
    + reflexivity.
Qed.


Lemma parse_pass_keeps (r : SReader) buf (h : heap) :
  well_formed r h ->
  let '(x, h') := parse_pass r buf h in
  keeps r h (flow_reader x) h'
  /\ match x with
     | Next (Some f) r' _ =>
         f_payload f = _frame_payload r
         /\ _frame_payload r' = List.length h
         /\ content h' (_frame_payload r') = []
         /\ detached r' h' (f_payload f)
     | _ => True
     end.
Proof.
  intros W. unfold parse_pass.
  pose proof (before_payload_buffers r buf) as B. cbv zeta in B.
  destruct (flow_bind (read_header r buf) _) as [u r3 buf3|r3 buf3|e r3];
    cbn [flow_reader] in B; destruct B as [B1 B2].
  - pose proof (read_payload_store r3 buf3 h) as P.
    destruct W as (W1 & W2 & W3).
    rewrite B1 in P. specialize (P W1).
    destruct (read_payload r3 buf3 h) as [x h'].
    destruct P as (P1 & P2 & P3).
    assert (K : forall l, detached r h l ->
                          (l < List.length h)%nat /\ l <> _frame_payload r
                          /\ l <> _partial r /\ content h' l = content h l).
    { intros l (D1 & D2 & D3). repeat split; auto. }
    destruct x as [[f|] r' buf'|r' buf'|e r']; cbn [flow_reader] in *.
    + destruct P3 as (Q1 & Q2 & Q3 & Q4).
      assert (Wn : well_formed r' h').
      { unfold well_formed. rewrite Q2, Q3, P2, B2. repeat split; lia. }
      split; [split; [exact Wn|split; [lia|]]|].
      * intros l Hl. destruct (K l Hl) as (K1 & K2 & K3 & K4).
        split; [|exact K4]. unfold detached. rewrite Q2, Q3, P2, B2.
        repeat split; lia.
      * split; [exact Q1|]. split; [exact Q2|]. split; [exact Q4|].
        unfold detached. rewrite Q1, Q2, Q3, P2, B2. repeat split; lia.
    + destruct P3 as (Q1 & Q3). split; [|exact I].
      split; [|split; [lia|]].
      * unfold well_formed. rewrite Q1, Q3, P2, B2. auto.
      * intros l Hl. destruct (K l Hl) as (K1 & K2 & K3 & K4).
        split; [|exact K4]. unfold detached. rewrite Q1, Q3, P2, B2. auto.
    + destruct P3 as (Q1 & Q3). split; [|exact I].
      split; [|split; [lia|]].
      * unfold well_formed. rewrite Q1, Q3, P2, B2. auto.
      * intros l Hl. destruct (K l Hl) as (K1 & K2 & K3 & K4).
        split; [|exact K4]. unfold detached. rewrite Q1, Q3, P2, B2. auto.
    + destruct P3 as (Q1 & Q3). split; [|exact I].
      split; [|split; [lia|]].
      * unfold well_formed. rewrite Q1, Q3, P2, B2. auto.
      * intros l Hl. destruct (K l Hl) as (K1 & K2 & K3 & K4).
        split; [|exact K4]. unfold detached. rewrite Q1, Q3, P2, B2. auto.
  - split; [|exact I]. apply keeps_same_buffers; assumption.
  - split; [|exact I]. apply keeps_same_buffers; assumption.
Qed.

Lemma parse_loop_keeps (fuel : nat) :
  forall (r : SReader) buf (h : heap) frames p h',
    well_formed r h ->
    Forall (fun f => detached r h (f_payload f)) frames ->
    parse_loop fuel r buf h frames = Some (p, h') ->
    keeps r h (parsed_reader p) h'
    /\ match p with
       | Frames fs r' => Forall (fun f => detached r' h' (f_payload f)) fs
       | ParseError _ _ => True
       end.
Proof.
  induction fuel as [|fuel IH]; intros r buf h frames p h' W Hf H;
    [discriminate|].
  cbn [parse_loop] in H.
  pose proof (parse_pass_keeps r buf h W) as P.
  destruct (parse_pass r buf h) as [[f r1 buf1|r1 buf1|e r1] h1];
    cbn [flow_reader] in P; destruct P as [K P].
  - assert (Hf1 : Forall (fun f0 => detached r1 h1 (f_payload f0))
                    (add_frame frames f)).
    { destruct K as (_ & _ & K).
      destruct f as [f|]; cbn [add_frame].
      - apply Forall_app. split.
        + eapply Forall_impl; [|exact Hf]. intros a Ha. apply K, Ha.
        + constructor; [apply P|constructor].
      - eapply Forall_impl; [|exact Hf]. intros a Ha. apply K, Ha. }
    destruct (IH r1 buf1 h1 _ p h' (proj1 K) Hf1 H) as [K2 F2].
    split; [eapply keeps_trans; eassumption|exact F2].
  - injection H as <- <-. cbn [parsed_reader].
    assert (K2 : keeps r1 h1 (set__tail buf1 r1) h1)
      by (apply keeps_same_buffers; [apply K|destruct r1; reflexivity..]).
    split; [eapply keeps_trans; eassumption|].
    eapply Forall_impl; [|exact Hf]. intros a Ha.
    apply K2. apply K. exact Ha.
  - injection H as <- <-. split; [exact K|exact I].
Qed.

Lemma parse_frame_keeps_store (r : SReader) buf (h : heap) p h' :
  well_formed r h ->
  parse_frame r buf h = (p, h') ->
  keeps r h (parsed_reader p) h'
  /\ match p with
     | Frames fs r' => Forall (fun f => detached r' h' (f_payload f)) fs
     | ParseError _ _ => True
     end.
Proof.
  intros W. unfold parse_frame.
  set (r0 := fst (if nonempty (_tail r) then (set__tail [] r, _tail r ++ buf)
                  else (r, buf))).
  set (buf0 := snd (if nonempty (_tail r)
                    then (set__tail [] r, _tail r ++ buf) else (r, buf))).
  assert (E : (if nonempty (_tail r) then (set__tail [] r, _tail r ++ buf)
               else (r, buf)) = (r0, buf0))
    by (subst r0 buf0; destruct (nonempty (_tail r)); reflexivity).
  rewrite E. clear E.
  assert (K0 : keeps r h r0 h).
  { subst r0. destruct (nonempty (_tail r)); cbn [fst].
    - apply keeps_same_buffers; [exact W|destruct r; reflexivity..].
    - apply keeps_refl, W. }
  destruct (parse_loop (passes buf0) r0 buf0 h []) as [[p1 h1]|] eqn:H.
  - intros E. injection E as <- <-.
    destruct (parse_loop_keeps _ _ _ _ _ _ _ (proj1 K0) (Forall_nil _) H)
      as [K F].
    split; [eapply keeps_trans; eassumption|exact F].
  - intros E. injection E as <- <-. cbn [parsed_reader].
    split; [exact K0|constructor].
Qed.

(** The handling of a frame changes no bytearray but [_partial]. *)
Lemma finish_message_keeps (r : SReader) (h : heap) opcode cont payload
  compressed :
  well_formed r h ->
  let '(x, h') := finish_message r h opcode cont payload compressed in
  keeps r h (result_reader x) h'
  /\ queue_buffers (queue (result_reader x)) = queue_buffers (queue r).
Proof.
  intros W.
  assert (Final : forall (r0 : SReader) (h0 : heap) op assembled,
             keeps r h r0 h0 ->
             queue_buffers (queue r0) = queue_buffers (queue r) ->
             let '(x, h') :=
               if truthy (_max_msg_size r0)
                  && (len assembled >=? _max_msg_size r0)
               then (Raised
                       (message_too_big (len assembled) (_max_msg_size r0))
                       r0, h0)
               else
                 match merge_payload compressed assembled r0 with
                 | (inl e, r1) => (Raised e r1, h0)
                 | (inr payload_merged, r1) =>
                     (deliver_data op payload_merged r1, h0)
                 end in
             keeps r h (result_reader x) h'
             /\ queue_buffers (queue (result_reader x))
                = queue_buffers (queue r)).
  { intros r0 h0 op assembled K Q.
    destruct (truthy (_max_msg_size r0) && _); [split; assumption|].
    assert (M : _frame_payload (snd (merge_payload compressed assembled r0))
                = _frame_payload r0
                /\ _partial (snd (merge_payload compressed assembled r0))
                   = _partial r0
                /\ queue (snd (merge_payload compressed assembled r0))
                   = queue r0).
    { unfold merge_payload. destruct (opt_truthy compressed); [|auto].
      destruct (decompress_sync _ _ _) as [[[d p] u]|].
      - destruct (nonempty u); destruct r0; cbn; auto.
      - destruct r0; cbn; auto. }
    destruct (merge_payload compressed assembled r0) as [[e|pm] r1];
      cbn [snd] in M; destruct M as (M1 & M2 & M3).
    - cbn [result_reader]. split.
      + eapply keeps_trans; [exact K|].
        apply keeps_same_buffers; [apply K|assumption..].
      + congruence.
    - assert (D : _frame_payload (result_reader (deliver_data op pm r1))
                  = _frame_payload r1
                  /\ _partial (result_reader (deliver_data op pm r1))
                     = _partial r1
                  /\ queue_buffers
                       (queue (result_reader (deliver_data op pm r1)))
                     = queue_buffers (queue r1)).
      { unfold deliver_data, queue_buffers. destruct (op =? OP_CODE_TEXT).
        - destruct (utf8_decode pm); destruct r1; cbn; auto.
          rewrite map_app, concat_app. cbn. rewrite app_nil_r. auto.
        - destruct r1; cbn. rewrite map_app, concat_app. cbn.
          rewrite app_nil_r. auto. }
      destruct D as (D1 & D2 & D3). split.
      + eapply keeps_trans; [exact K|].
        apply keeps_same_buffers; [apply K|congruence..].
      + congruence. }
  unfold finish_message.
  set (sequenced :=
         if cont then
           match _opcode r with
           | None => inl (protocol_error Msg_continuation_non_started)
           | Some message_opcode => inr (message_opcode, set__opcode None r)
           end
         else if nonempty (content h (_partial r))
         then inl (protocol_error (Msg_opcode_expected_zero opcode))
         else inr (opcode, r)).
  assert (S : match sequenced with
              | inl _ => True
              | inr (_, r0) =>
                  _frame_payload r0 = _frame_payload r
                  /\ _partial r0 = _partial r /\ queue r0 = queue r
              end).
  { subst sequenced. destruct cont.
    - destruct (_opcode r); [destruct r; cbn; auto|exact I].
    - destruct (nonempty _); [exact I|auto]. }
  destruct sequenced as [e|[op r0]].
  - split; [apply keeps_refl, W|reflexivity].
  - destruct S as (S1 & S2 & S3).
    assert (K0 : keeps r h r0 h) by (apply keeps_same_buffers; assumption).
    destruct (nonempty (content h (_partial r))).
    + apply Final; [|congruence].
      eapply keeps_trans; [exact K0|].
      destruct K0 as (W0 & _ & _). destruct W0 as (W1 & W2 & W3).
      split; [|split].
      * unfold well_formed. rewrite assign_length. auto.
      * rewrite assign_length. lia.
      * intros l (D1 & D2 & D3). split.
        -- unfold detached. rewrite assign_length. auto.
        -- apply content_assign_other. exact D3.
    + apply Final; [exact K0|congruence].
Qed.

Lemma handle_frame_keeps (r : SReader) (h : heap) (frame : Frame loc) :
  well_formed r h ->
  let '(x, h') := handle_frame r h frame in
  keeps r h (result_reader x) h'
  /\ forall l, In l (queue_buffers (queue (result_reader x))) ->
               In l (queue_buffers (queue r)) \/ l = f_payload frame.
Proof.
  intros W. unfold handle_frame.
  destruct (f_opcode frame) as [opcode|];
    [|split; [apply keeps_refl, W|auto]].
  assert (Push : forall msg,
             keeps r h (_queue_feed_data msg r) h
             /\ queue_buffers (queue (_queue_feed_data msg r))
                = queue_buffers (queue r) ++ message_buffer (q_feed_data msg)).
  { intros msg. split.
    - apply keeps_same_buffers; [exact W|destruct r; reflexivity..].
    - unfold queue_buffers. destruct r; cbn.
      rewrite map_app, concat_app. cbn. rewrite app_nil_r. reflexivity. }
  destruct ((opcode =? OP_CODE_TEXT) || (opcode =? OP_CODE_BINARY)
            || (opcode =? OP_CODE_CONTINUATION)).
  - destruct (negb (f_fin frame)).
    + cbv zeta.
      set (r1 := if negb (opcode =? OP_CODE_CONTINUATION)
                 then set__opcode (Some opcode) r else r).
      assert (R : _frame_payload r1 = _frame_payload r
                  /\ _partial r1 = _partial r /\ queue r1 = queue r).
      { subst r1. destruct (negb _); [destruct r; cbn; auto|auto]. }
      destruct R as (R1 & R2 & R3).
      assert (K : keeps r h r1 (iadd h (_partial r1)
                                  (content h (f_payload frame)))).
      { destruct W as (W1 & W2 & W3). rewrite R2. split; [|split].
        - unfold well_formed. rewrite iadd_length, R1, R2. auto.
        - rewrite iadd_length. lia.
        - intros l (D1 & D2 & D3). split.
          + unfold detached. rewrite iadd_length, R1, R2. auto.
          + apply content_iadd_other. exact D3. }
      destruct (truthy (_max_msg_size r1) && _); cbn [result_reader];
        (split; [exact K|rewrite R3; auto]).
    + pose proof (finish_message_keeps r h opcode
                    (opcode =? OP_CODE_CONTINUATION) (f_payload frame)
                    (f_compressed frame) W) as F.
      destruct (finish_message r h opcode _ _ _) as [x h'].
      destruct F as [F1 F2]. split; [exact F1|]. rewrite F2. auto.
  - destruct (opcode =? OP_CODE_CLOSE).
    + unfold handle_close.
      destruct (len _ >=? 2).
      * destruct (_ && _); [split; [apply keeps_refl, W|auto]|].
        destruct (utf8_decode _) as [text|];
          [|split; [apply keeps_refl, W|auto]].
        cbn [result_reader]. destruct (Push (WSMessageClose
                                               (UNPACK_CLOSE_CODE
                                                  (firstn 2
                                                     (content h
                                                        (f_payload frame))))
                                               text)) as [P1 P2].
        split; [exact P1|]. rewrite P2. cbn [message_buffer].
        rewrite app_nil_r. auto.
      * destruct (nonempty _); [split; [apply keeps_refl, W|auto]|].
        cbn [result_reader].
        destruct (Push (WSMessageClose 0 EmptyString)) as [P1 P2].
        split; [exact P1|]. rewrite P2. cbn [message_buffer].
        rewrite app_nil_r. auto.
    + destruct (opcode =? OP_CODE_PING).
      * cbn [result_reader].
        destruct (Push (WSMessagePing (f_payload frame) EmptyString))
          as [P1 P2].
        split; [exact P1|]. rewrite P2. cbn [message_buffer].
        intros l Hl. apply in_app_or in Hl. destruct Hl as [Hl|[Hl|[]]]; auto.
      * destruct (opcode =? OP_CODE_PONG);
          [|split; [apply keeps_refl, W|auto]].
        cbn [result_reader].
        destruct (Push (WSMessagePong (f_payload frame) EmptyString))
          as [P1 P2].
        split; [exact P1|]. rewrite P2. cbn [message_buffer].
        intros l Hl. apply in_app_or in Hl. destruct Hl as [Hl|[Hl|[]]]; auto.
Qed.

Lemma store_handle_frames_keeps (frames : list (Frame loc)) :
  forall (r : SReader) (h : heap),
    well_formed r h ->
    Forall (fun f => detached r h (f_payload f)) frames ->
    Forall (detached r h) (queue_buffers (queue r)) ->
    let '(x, h') := handle_frames r h frames in
    keeps r h (result_reader x) h'
    /\ Forall (detached (result_reader x) h')
         (queue_buffers (queue (result_reader x))).
Proof.
  induction frames as [|f frames IH]; intros r h W Hf Hq.
  - cbn. split; [apply keeps_refl, W|exact Hq].
  - cbn [handle_frames]. inversion Hf as [|f' fs' Hf1 Hf2]; subst.
    pose proof (handle_frame_keeps r h f W) as H1.
    destruct (handle_frame r h f) as [[r1|e r1] h1];
      cbn [result_reader] in H1; destruct H1 as [K1 Q1].
    + assert (Hq1 : Forall (detached r1 h1) (queue_buffers (queue r1))).
      { apply Forall_forall. intros l Hl. destruct (Q1 l Hl) as [Hin| ->].
        - rewrite Forall_forall in Hq. apply K1, Hq, Hin.
        - apply K1, Hf1. }
      assert (Hf' : Forall (fun f0 => detached r1 h1 (f_payload f0)) frames).
      { eapply Forall_impl; [|exact Hf2]. intros a Ha. apply K1, Ha. }
      specialize (IH r1 h1 (proj1 K1) Hf' Hq1).
      destruct (handle_frames r1 h1 frames) as [x h2].
      destruct IH as [K2 Q2].
      split; [eapply keeps_trans; eassumption|exact Q2].
    + cbn [result_reader]. split; [exact K1|].
      apply Forall_forall. intros l Hl. destruct (Q1 l Hl) as [Hin| ->].
      * rewrite Forall_forall in Hq. apply K1, Hq, Hin.
      * apply K1, Hf1.
Qed.

Lemma feed_data_keeps (r : SReader) (data : bytes) (h : heap) res r' h' :
  well_formed r h ->
  Forall (detached r h) (queue_buffers (queue r)) ->
  feed_data r data h = (res, r', h') ->
  keeps r h r' h'
  /\ Forall (detached r' h') (queue_buffers (queue r')).
Proof.
  intros W Hq. unfold feed_data.
  destruct (_exc r).
  { intros E; injection E as _ <- <-. split; [apply keeps_refl, W|exact Hq]. }
  unfold _feed_data.
  destruct (parse_frame r data h) as [p h1] eqn:Hp.
  destruct (parse_frame_keeps_store r data h p h1 W Hp) as [K1 F1].
  assert (Latch : forall e (r1 : SReader) h2,
             keeps r h r1 h2 ->
             Forall (detached r1 h2) (queue_buffers (queue r1)) ->
             let r2 := set_queue
                         (set_exception (queue (set__exc (Some e) r1)) e)
                         (set__exc (Some e) r1) in
             keeps r h r2 h2
             /\ Forall (detached r2 h2) (queue_buffers (queue r2))).
  { intros e r1 h2 K Q. cbv zeta.
    assert (B : _frame_payload
                  (set_queue (set_exception (queue (set__exc (Some e) r1)) e)
                     (set__exc (Some e) r1)) = _frame_payload r1
                /\ _partial
                     (set_queue
                        (set_exception (queue (set__exc (Some e) r1)) e)
                        (set__exc (Some e) r1)) = _partial r1
                /\ queue_buffers
                     (queue
                        (set_queue
                           (set_exception (queue (set__exc (Some e) r1)) e)
                           (set__exc (Some e) r1)))
                   = queue_buffers (queue r1)).
    { unfold queue_buffers, set_exception. destruct r1; cbn.
      rewrite map_app, concat_app. cbn. rewrite app_nil_r. auto. }
    destruct B as (B1 & B2 & B3).
    assert (K2 : keeps r1 h2 (set_queue
                                (set_exception
                                   (queue (set__exc (Some e) r1)) e)
                                (set__exc (Some e) r1)) h2)
      by (apply keeps_same_buffers; [apply K|assumption..]).
    split; [eapply keeps_trans; eassumption|].
    rewrite B3. eapply Forall_impl; [|exact Q]. intros l Hl. apply K2, Hl. }
  destruct p as [frames r1|e r1]; cbn [parsed_reader] in *.
  - assert (Hq1 : Forall (detached r1 h1) (queue_buffers (queue r1))).
    { assert (Q : queue r1 = queue r).
      { pose proof (parse_frame_queue r data h) as Q. rewrite Hp in Q.
        exact Q. }
      rewrite Q. eapply Forall_impl; [|exact Hq]. intros l Hl.
      apply K1, Hl. }
    pose proof (store_handle_frames_keeps frames r1 h1 (proj1 K1) F1 Hq1) as H2.
    destruct (handle_frames r1 h1 frames) as [[r2|e r2] h2];
      cbn [result_reader] in H2; destruct H2 as [K2 Q2].
    + intros E; injection E as _ <- <-.
      split; [eapply keeps_trans; eassumption|exact Q2].
    + intros E; injection E as _ <- <-.
      apply Latch; [eapply keeps_trans; eassumption|exact Q2].
  - intros E; injection E as _ <- <-. apply Latch; [exact K1|].
    pose proof (parse_frame_queue r data h) as Q. rewrite Hp in Q.
    cbn [fst parsed_reader] in Q. rewrite Q.
    eapply Forall_impl; [|exact Hq]. intros l Hl. apply K1, Hl.
Qed.

End StoreInvariant.

Section StoreLater.

Context {RT : Runtime}.

Import Store.

Lemma handle_frames_keeps0 (frames : list (Frame loc)) :
  forall (r : SReader) (h : heap),
    well_formed r h ->
    keeps r h (result_reader (fst (handle_frames r h frames)))
      (snd (handle_frames r h frames)).
Proof.
  induction frames as [|f frames IH]; intros r h W.
  - cbn. apply keeps_refl, W.
  - cbn [handle_frames].
    pose proof (handle_frame_keeps r h f W) as H1.
    destruct (handle_frame r h f) as [[r1|e r1] h1];
      cbn [result_reader] in H1; destruct H1 as [K1 _].
    + eapply keeps_trans; [exact K1|]. apply IH, K1.
    + exact K1.
Qed.

Lemma feed_data_keeps0 (r : SReader) (data : bytes) (h : heap) res r' h' :
  well_formed r h ->
  feed_data r data h = (res, r', h') ->
  keeps r h r' h'.
Proof.
  intros W. unfold feed_data.
  destruct (_exc r).
  { intros E; injection E as _ <- <-. apply keeps_refl, W. }
  unfold _feed_data.
  destruct (parse_frame r data h) as [p h1] eqn:Hp.
  destruct (parse_frame_keeps_store r data h p h1 W Hp) as [K1 _].
  assert (Latch : forall e (r1 : SReader) h2,
             keeps r h r1 h2 ->
             keeps r h
               (set_queue (set_exception (queue (set__exc (Some e) r1)) e)
                  (set__exc (Some e) r1)) h2).
  { intros e r1 h2 K. eapply keeps_trans; [exact K|].
    apply keeps_same_buffers; [apply K|destruct r1; reflexivity..]. }
  destruct p as [frames r1|e r1]; cbn [parsed_reader] in *.
  - pose proof (handle_frames_keeps0 frames r1 h1 (proj1 K1)) as K2.
    destruct (handle_frames r1 h1 frames) as [[r2|e r2] h2];
      cbn [result_reader fst snd] in K2.
    + intros E; injection E as _ <- <-.
      eapply keeps_trans; eassumption.
    + intros E; injection E as _ <- <-.
      apply Latch. eapply keeps_trans; eassumption.
  - intros E; injection E as _ <- <-. apply Latch, K1.
Qed.

(** Whatever the reader is asked to do later, a bytearray it no longer
    refers to keeps its content. *)
Lemma later_keeps (s s' : SReader * heap) :
  later s s' ->
  well_formed (fst s) (snd s) ->
  keeps (fst s) (snd s) (fst s') (snd s').
Proof.
  induction 1 as [s|r h data res r1 h1 s H _ IH|r h buf p h1 s H _ IH
                 |r h frame x h1 s H _ IH|r h s _ IH]; cbn [fst snd] in *;
    intros W.
  - apply keeps_refl, W.
  - pose proof (feed_data_keeps0 _ _ _ _ _ _ W H) as K.
    eapply keeps_trans; [exact K|]. apply IH, K.
  - destruct (parse_frame_keeps_store _ _ _ _ _ W H) as [K _].
    eapply keeps_trans; [exact K|]. apply IH, K.
  - pose proof (handle_frame_keeps r h frame W) as K. rewrite H in K.
    destruct K as [K _].
    eapply keeps_trans; [exact K|]. apply IH, K.
  - assert (K : keeps r h (feed_eof r) h)
      by (apply keeps_same_buffers; [exact W|destruct r; reflexivity..]).
    eapply keeps_trans; [exact K|]. apply IH, K.
Qed.

Lemma well_formed_init q max_msg_size compress :
  well_formed (fst (init q max_msg_size compress))
    (snd (init q max_msg_size compress)).
Proof. cbn. unfold well_formed. cbn. repeat split; lia. Qed.

End StoreLater.

(** ** The store and the byte values

    The reader on the store does what the reader on byte values does: each
    method of the first, seen through the content of its bytearrays, is
    the method of the second. *)

Section StoreValues.

Context {RT : Runtime}.

Import Store.

Ltac split_ifs :=
  repeat match goal with
         | |- context [if ?c then _ else _] => destruct c eqn:?
         end.

Lemma content_app_old (h x : heap) (l : loc) :
  (l < List.length h)%nat -> content (h ++ x) l = content h l.
Proof. intros H. unfold content. apply app_nth1, H. Qed.

Lemma content_app_new (h : heap) (v : bytes) :
  content (h ++ [v]) (List.length h) = v.
Proof.
  unfold content. rewrite app_nth2 by lia. rewrite Nat.sub_diag. reflexivity.
Qed.

Lemma content_iadd_same (h : heap) (b : loc) (data : bytes) :
  (b < List.length h)%nat -> content (iadd h b data) b = content h b ++ data.
Proof. intros H. apply content_assign_same, H. Qed.

Lemma queue_buffers_cons (c : queue_call loc) (q : DataQueue loc) :
  queue_buffers (c :: q) = message_buffer c ++ queue_buffers q.
Proof. reflexivity. Qed.

Lemma queue_buffers_app (q1 q2 : DataQueue loc) :
  queue_buffers (q1 ++ q2) = queue_buffers q1 ++ queue_buffers q2.
Proof. unfold queue_buffers. rewrite map_app, concat_app. reflexivity. Qed.

(** The value of a queue depends on the content of its bytearrays only. *)
Lemma queue_value_same (h h' : heap) (q : DataQueue loc) :
  (forall l, In l (queue_buffers q) -> content h' l = content h l) ->
  map (call_value h') q = map (call_value h) q.
Proof.
  induction q as [|c q IH]; intros H; [reflexivity|].
  cbn [map]. rewrite IH.
  - f_equal. destruct c as [[d e|d e|d e|d e|d e]| |]; cbn; try reflexivity;
      rewrite (H d) by (left; reflexivity); reflexivity.
  - intros l Hl. apply H. rewrite queue_buffers_cons. apply in_or_app. auto.
Qed.

Lemma frame_value_same (h h' : heap) (f : Frame loc) :
  content h' (f_payload f) = content h (f_payload f) ->
  frame_value h' f = frame_value h f.
Proof. intros H. unfold frame_value. rewrite H. reflexivity. Qed.

(** The value of a reader depends on the content of its two bytearrays
    and of those of its queue. *)
Lemma value_same (h h' : heap) (r : SReader) :
  content h' (_frame_payload r) = content h (_frame_payload r) ->
  content h' (_partial r) = content h (_partial r) ->
  (forall l, In l (queue_buffers (queue r)) -> content h' l = content h l) ->
  value h' r = value h r.
Proof.
  intros H1 H2 H3. unfold value. rewrite H1, H2, (queue_value_same h h' _ H3).
  reflexivity.
Qed.

Lemma sound_queue (r : SReader) (h : heap) (l : loc) :
  sound r h -> In l (queue_buffers (queue r)) ->
  (l < List.length h)%nat /\ l <> _frame_payload r /\ l <> _partial r.
Proof.
  intros [_ Q] Hl. rewrite Forall_forall in Q. apply (Q l Hl).
Qed.

Lemma sound_same_buffers (r r' : SReader) (h : heap) :
  sound r h ->
  _frame_payload r' = _frame_payload r -> _partial r' = _partial r ->
  queue r' = queue r -> sound r' h.
Proof.
  intros [W Q] H1 H2 H3. unfold sound, well_formed, detached in *.
  rewrite H1, H2, H3. auto.
Qed.

(** A change of the payload bytearray of the frame in progress. *)
Lemma value_assign_payload (r : SReader) (h : heap) (v : bytes) :
  sound r h ->
  value (assign h (_frame_payload r) v) r = set__frame_payload v (value h r).
Proof.
  intros S. pose proof S as [(W1 & W2 & W3) _].
  transitivity (set__frame_payload v
                  (value (assign h (_frame_payload r) v) r));
    [unfold value; rewrite content_assign_same by exact W1;
     destruct r; reflexivity|].
  replace (value (assign h (_frame_payload r) v) r)
    with (set__frame_payload
            (content (assign h (_frame_payload r) v) (_frame_payload r))
            (value h r)); [destruct r; reflexivity|].
  unfold value.
  rewrite (content_assign_other h (_frame_payload r) (_partial r)) by auto.
  rewrite (queue_value_same h (assign h (_frame_payload r) v)).
  - destruct r; reflexivity.
  - intros l Hl. apply content_assign_other.
    apply (sound_queue r h l S Hl).
Qed.

Lemma sound_assign_payload (r : SReader) (h : heap) (v : bytes) :
  sound r h -> sound r (assign h (_frame_payload r) v).
Proof.
  intros [W Q]. unfold sound, well_formed, detached in *.
  rewrite assign_length. auto.
Qed.

(** A change of the bytearray of the message in progress. *)
Lemma value_assign_partial (r : SReader) (h : heap) (v : bytes) :
  sound r h ->
  value (assign h (_partial r) v) r = set__partial v (value h r).
Proof.
  intros S. pose proof S as [(W1 & W2 & W3) _].
  unfold value.
  rewrite (content_assign_other h (_partial r) (_frame_payload r)) by auto.
  rewrite content_assign_same by exact W2.
  rewrite (queue_value_same h (assign h (_partial r) v)).
  - destruct r; reflexivity.
  - intros l Hl. apply content_assign_other.
    apply (sound_queue r h l S Hl).
Qed.

Lemma sound_assign_partial (r : SReader) (h : heap) (v : bytes) :
  sound r h -> sound r (assign h (_partial r) v).
Proof.
  intros [W Q]. unfold sound, well_formed, detached in *.
  rewrite assign_length. auto.
Qed.

(** The attribute [_frame_payload] bound to a new bytearray. *)
Lemma value_fresh_payload (r : SReader) (h : heap) :
  sound r h ->
  value (h ++ [[]]) (set__frame_payload (List.length h) r)
  = set__frame_payload [] (value h r).
Proof.
  intros S. pose proof S as [(W1 & W2 & W3) _].
  unfold value.
  replace (_frame_payload (set__frame_payload (List.length h) r))
    with (List.length h) by (destruct r; reflexivity).
  replace (_partial (set__frame_payload (List.length h) r))
    with (_partial r) by (destruct r; reflexivity).
  replace (queue (set__frame_payload (List.length h) r))
    with (queue r) by (destruct r; reflexivity).
  rewrite content_app_new, content_app_old by exact W2.
  rewrite (queue_value_same h (h ++ [[]])).
  - destruct r; reflexivity.
  - intros l Hl. apply content_app_old. apply (sound_queue r h l S Hl).
Qed.

Ltac split_all :=
  repeat first
    [ progress cbv beta iota zeta
    | match goal with
      | |- context [if ?c then _ else _] => destruct c
      | |- context [match ?c with Some _ => _ | None => _ end] => destruct c
      | |- context [match ?c with inl _ => _ | inr _ => _ end] => destruct c
      | |- context [match ?c with (_, _) => _ end] => destruct c
      | |- context [match ?c with [] => _ | _ :: _ => _ end] => destruct c
      end ].

(** The header, length and mask blocks. *)
Lemma read_header_value (r : SReader) buf (h : heap) :
  read_header (value h r) buf
  = flow_value (fun u => u) h (read_header r buf).
Proof.
  unfold read_header, value. destruct r. reader_cbv.
  split_all; reflexivity.
Qed.

Lemma read_payload_length_value (r : SReader) buf (h : heap) :
  read_payload_length (value h r) buf
  = flow_value (fun u => u) h (read_payload_length r buf).
Proof.
  unfold read_payload_length, value. destruct r. reader_cbv.
  split_all; reflexivity.
Qed.

Lemma read_payload_mask_value (r : SReader) buf (h : heap) :
  read_payload_mask (value h r) buf
  = flow_value (fun u => u) h (read_payload_mask r buf).
Proof.
  unfold read_payload_mask, value. destruct r. reader_cbv.
  split_all; reflexivity.
Qed.

End StoreValues.

Section Refinement.

Context {RT : Runtime}.

(** The payload block.  What it adds to the Store.bytearray of the frame in
    progress, and the mask it applies in place, are what the reader on
    byte values does to the Store.content. *)
Lemma read_payload_value (r : Store.SReader) buf (h : Store.heap) :
  Store.sound r h ->
  read_payload (Store.value h r) buf
  = Store.flow_value (option_map (Store.frame_value (snd (Store.read_payload r buf h))))
      (snd (Store.read_payload r buf h)) (fst (Store.read_payload r buf h)).
Proof.
  intros S. unfold Store.read_payload, read_payload.
  change (_state (Store.value h r)) with (_state r).
  destruct (state_eqb (_state r) READ_PAYLOAD); [|reflexivity].
  change (_payload_length (Store.value h r)) with (_payload_length r).
  change (_frame_payload (Store.value h r)) with (Store.content h (_frame_payload r)).
  cbv zeta.
  set (taken := if _payload_length r >=? len buf then buf
                else firstn (Z.to_nat (_payload_length r)) buf).
  set (r1 := if _payload_length r >=? len buf
             then set__payload_length (_payload_length r - len buf) r
             else set__payload_length 0 r).
  set (rest := if _payload_length r >=? len buf then []
               else skipn (Z.to_nat (_payload_length r)) buf).
  set (h1 := Store.iadd h (_frame_payload r) taken).
  assert (E : (if _payload_length r >=? len buf
               then (set__payload_length (_payload_length r - len buf) r,
                     Store.iadd h (_frame_payload r) buf, [])
               else (set__payload_length 0 r,
                     Store.iadd h (_frame_payload r)
                       (firstn (Z.to_nat (_payload_length r)) buf),
                     skipn (Z.to_nat (_payload_length r)) buf))
              = (r1, h1, rest)).
  { subst taken r1 rest h1. destruct (_ >=? _); reflexivity. }
  rewrite E. clear E.
  assert (R1 : _frame_payload r1 = _frame_payload r
               /\ _partial r1 = _partial r /\ queue r1 = queue r).
  { subst r1. destruct (_ >=? _); destruct r; cbn; auto. }
  destruct R1 as (R1 & R2 & R3).
  assert (S1 : Store.sound r1 h1).
  { apply (sound_same_buffers r); [|assumption..].
    apply sound_assign_payload, S. }
  assert (E : (if _payload_length r >=? len buf
               then (set__frame_payload (Store.content h (_frame_payload r) ++ buf)
                       (set__payload_length (_payload_length r - len buf)
                          (Store.value h r)),
                     [])
               else (set__frame_payload
                       (Store.content h (_frame_payload r)
                        ++ firstn (Z.to_nat (_payload_length r)) buf)
                       (set__payload_length 0 (Store.value h r)),
                     skipn (Z.to_nat (_payload_length r)) buf))
              = (Store.value h1 r1, rest)).
  { subst h1. unfold Store.iadd. rewrite <- R1.
    rewrite (value_assign_payload r1 h)
      by (apply (sound_same_buffers r); assumption).
    rewrite R1. subst taken r1 rest.
    destruct (_ >=? _); destruct r; reflexivity. }
  rewrite E. clear E.
  change (_payload_length (Store.value h1 r1)) with (_payload_length r1).
  destruct (negb (_payload_length r1 =? 0)); [reflexivity|].
  assert (Emit : forall h2 : Store.heap,
             Store.sound r1 h2 ->
             Next
               (Some
                  (mkFrame (_frame_fin (Store.value h2 r1))
                     (_frame_opcode (Store.value h2 r1))
                     (_frame_payload (Store.value h2 r1))
                     (_compressed (Store.value h2 r1))))
               (set__state READ_HEADER
                  (set__frame_payload [] (Store.value h2 r1)))
               rest
             = Store.flow_value
                 (option_map
                    (Store.frame_value
                       (snd
                          (let '(fresh, h0) := Store.bytearray h2 in
                           (Next
                              (Some
                                 (mkFrame (_frame_fin r1) (_frame_opcode r1)
                                    (_frame_payload r) (_compressed r1)))
                              (set__state READ_HEADER
                                 (set__frame_payload fresh r1))
                              rest, h0)))))
                 (snd
                    (let '(fresh, h0) := Store.bytearray h2 in
                     (Next
                        (Some
                           (mkFrame (_frame_fin r1) (_frame_opcode r1)
                              (_frame_payload r) (_compressed r1)))
                        (set__state READ_HEADER (set__frame_payload fresh r1))
                        rest, h0)))
                 (fst
                    (let '(fresh, h0) := Store.bytearray h2 in
                     (Next
                        (Some
                           (mkFrame (_frame_fin r1) (_frame_opcode r1)
                              (_frame_payload r) (_compressed r1)))
                        (set__state READ_HEADER (set__frame_payload fresh r1))
                        rest, h0)))).
  { intros h2 S2. unfold Store.bytearray. cbn [fst snd Store.flow_value option_map].
    rewrite <- (value_fresh_payload r1 h2 S2).
    f_equal; [|destruct r1; reflexivity..].
    unfold Store.frame_value. cbn [f_fin f_opcode f_payload f_compressed].
    rewrite content_app_old by (rewrite <- R1; apply S2).
    rewrite <- R1. reflexivity. }
  change (_has_mask (Store.value h1 r1)) with (_has_mask r1).
  change (_frame_mask (Store.value h1 r1)) with (_frame_mask r1).
  destruct (_has_mask r1); [|apply Emit, S1].
  destruct (_frame_mask r1) as [mask|]; [|reflexivity].
  change (_frame_payload (Store.value h1 r1)) with (Store.content h1 (_frame_payload r1)).
  rewrite <- (value_assign_payload r1 h1 _ S1).
  rewrite R1. apply Emit. rewrite <- R1. apply sound_assign_payload, S1.
Qed.

Lemma keeps_sound (r r' : Store.SReader) (h h' : Store.heap) :
  Store.sound r h -> Store.keeps r h r' h' -> queue r' = queue r ->
  Store.sound r' h'.
Proof.
  intros [W Q] (W' & _ & K) E. split; [exact W'|]. rewrite E.
  eapply Forall_impl; [|exact Q]. intros l Hl. apply K, Hl.
Qed.

Lemma keeps_value (r r' : Store.SReader) (h h' : Store.heap)
  (frames : list (Frame Store.loc)) :
  Store.keeps r h r' h' ->
  Forall (fun f => Store.detached r h (f_payload f)) frames ->
  map (Store.frame_value h') frames = map (Store.frame_value h) frames
  /\ Forall (fun f => Store.detached r' h' (f_payload f)) frames.
Proof.
  intros (_ & _ & K) F. induction F as [|f frames Hf F IH];
    [split; [reflexivity|constructor]|].
  destruct IH as [IH1 IH2]. destruct (K _ Hf) as [K1 K2]. split.
  - cbn [map]. rewrite IH1, (frame_value_same h h' f K2). reflexivity.
  - constructor; assumption.
Qed.

(** One pass through the loop body. *)
Lemma parse_pass_value (r : Store.SReader) buf (h : Store.heap) :
  Store.sound r h ->
  parse_pass (Store.value h r) buf
  = Store.flow_value
      (option_map (Store.frame_value (snd (Store.parse_pass r buf h))))
      (snd (Store.parse_pass r buf h)) (fst (Store.parse_pass r buf h)).
Proof.
  intros S. unfold parse_pass, Store.parse_pass.
  rewrite read_header_value.
  pose proof (read_header_buffers r buf) as [A1 A2].
  pose proof (read_header_queue r buf) as A3.
  destruct (read_header r buf) as [u1 r1 buf1|r1 buf1|e r1];
    cbn [flow_bind Store.flow_value flow_reader] in *; [|reflexivity..].
  assert (S1 : Store.sound r1 h)
    by (apply (sound_same_buffers r); assumption).
  rewrite read_payload_length_value.
  pose proof (read_payload_length_buffers r1 buf1) as [B1 B2].
  pose proof (read_payload_length_queue r1 buf1) as B3.
  destruct (read_payload_length r1 buf1) as [u2 r2 buf2|r2 buf2|e r2];
    cbn [flow_bind Store.flow_value flow_reader] in *; [|reflexivity..].
  assert (S2 : Store.sound r2 h)
    by (apply (sound_same_buffers r1); assumption).
  rewrite read_payload_mask_value.
  pose proof (read_payload_mask_buffers r2 buf2) as [C1 C2].
  pose proof (read_payload_mask_queue r2 buf2) as C3.
  destruct (read_payload_mask r2 buf2) as [u3 r3 buf3|r3 buf3|e r3];
    cbn [flow_bind Store.flow_value flow_reader] in *; [|reflexivity..].
  apply read_payload_value. apply (sound_same_buffers r2); assumption.
Qed.

Lemma add_frame_value (h : Store.heap) (frames : list (Frame Store.loc))
  (f : option (Frame Store.loc)) :
  map (Store.frame_value h) (add_frame frames f)
  = add_frame (map (Store.frame_value h) frames)
      (option_map (Store.frame_value h) f).
Proof.
  destruct f as [f|]; [|reflexivity]. cbn [add_frame option_map].
  rewrite map_app. reflexivity.
Qed.

Lemma parse_loop_value (fuel : nat) :
  forall (r : Store.SReader) buf (h : Store.heap) frames,
    Store.sound r h ->
    Forall (fun f => Store.detached r h (f_payload f)) frames ->
    parse_loop fuel (Store.value h r) buf (map (Store.frame_value h) frames)
    = option_map (fun x => Store.parsed_value (snd x) (fst x))
        (Store.parse_loop fuel r buf h frames).
Proof.
  induction fuel as [|fuel IH]; intros r buf h frames S F; [reflexivity|].
  cbn [parse_loop Store.parse_loop].
  rewrite (parse_pass_value r buf h S).
  pose proof (parse_pass_keeps r buf h (proj1 S)) as P.
  pose proof (parse_pass_queue r buf h) as Q.
  destruct (Store.parse_pass r buf h) as [[f r1 buf1|r1 buf1|e r1] h1];
    cbn [fst snd flow_reader Store.flow_value] in *; destruct P as [K P].
  - destruct (keeps_value _ _ _ _ frames K F) as [V1 V2].
    rewrite <- V1, <- add_frame_value. apply IH.
    + apply (keeps_sound r _ h); assumption.
    + destruct f as [f|]; cbn [add_frame]; [|exact V2].
      apply Forall_app. split; [exact V2|].
      constructor; [apply P|constructor].
  - destruct (keeps_value _ _ _ _ frames K F) as [V1 V2].
    cbn [option_map fst snd Store.parsed_value]. rewrite V1.
    replace (Store.value h1 (set__tail buf1 r1))
      with (set__tail buf1 (Store.value h1 r1))
      by (destruct r1; reflexivity).
    reflexivity.
  - reflexivity.
Qed.

(** [parse_frame] *)
Lemma parse_frame_value (r : Store.SReader) buf (h : Store.heap) :
  Store.sound r h ->
  parse_frame (Store.value h r) buf
  = Store.parsed_value (snd (Store.parse_frame r buf h))
      (fst (Store.parse_frame r buf h)).
Proof.
  intros S. unfold parse_frame, Store.parse_frame.
  change (_tail (Store.value h r)) with (_tail r).
  set (r0 := fst (if nonempty (_tail r) then (set__tail [] r, _tail r ++ buf)
                  else (r, buf))).
  set (buf0 := snd (if nonempty (_tail r)
                    then (set__tail [] r, _tail r ++ buf) else (r, buf))).
  assert (E : (if nonempty (_tail r) then (set__tail [] r, _tail r ++ buf)
               else (r, buf)) = (r0, buf0))
    by (subst r0 buf0; destruct (nonempty (_tail r)); reflexivity).
  rewrite E. clear E.
  assert (E : (if nonempty (_tail r)
               then (set__tail [] (Store.value h r), _tail r ++ buf)
               else (Store.value h r, buf)) = (Store.value h r0, buf0)).
  { subst r0 buf0. destruct (nonempty (_tail r)); cbn [fst snd];
      [destruct r; reflexivity|reflexivity]. }
  rewrite E. clear E.
  assert (S0 : Store.sound r0 h).
  { subst r0. destruct (nonempty (_tail r)); cbn [fst]; [|exact S].
    apply (sound_same_buffers r); [exact S|destruct r; reflexivity..]. }
  pose proof (parse_loop_value (passes buf0) r0 buf0 h [] S0 (Forall_nil _))
    as L.
  cbn [map] in L. rewrite L.
  destruct (Store.parse_loop (passes buf0) r0 buf0 h []) as [[p h1]|];
    reflexivity.
Qed.

(** Inflation, decoding and the close frame work on byte values in both
    readers. *)
Lemma merge_payload_value (r : Store.SReader) (h : Store.heap) compressed
  payload :
  merge_payload compressed payload (Store.value h r)
  = (fst (merge_payload compressed payload r),
     Store.value h (snd (merge_payload compressed payload r))).
Proof.
  unfold merge_payload, Store.value. destruct r. reader_cbv.
  destruct (opt_truthy compressed); [|reflexivity].
  destruct (decompress_sync _ _ _) as [[[d p] u]|]; [|reflexivity].
  destruct (nonempty u); reflexivity.
Qed.

Lemma queue_feed_data_value (r : Store.SReader) (h : Store.heap)
  (msg : WSMessage Store.loc) :
  Store.value h (_queue_feed_data msg r)
  = _queue_feed_data (Store.message_value h msg) (Store.value h r).
Proof.
  unfold Store.value. destruct r. reader_cbv. rewrite map_app. reflexivity.
Qed.

Lemma deliver_data_value (r : Store.SReader) (h : Store.heap) opcode payload :
  deliver_data opcode payload (Store.value h r)
  = Store.result_value h (deliver_data opcode payload r).
Proof.
  unfold deliver_data. destruct (opcode =? OP_CODE_TEXT).
  - destruct (utf8_decode payload); [|reflexivity].
    cbn [Store.result_value]. rewrite queue_feed_data_value. reflexivity.
  - cbn [Store.result_value]. rewrite queue_feed_data_value. reflexivity.
Qed.

Lemma handle_close_value (r : Store.SReader) (h : Store.heap) fin opcode
  payload :
  handle_close fin opcode payload (Store.value h r)
  = Store.result_value h (handle_close fin opcode payload r).
Proof.
  unfold handle_close. destruct (len payload >=? 2).
  - cbv zeta. destruct (_ && _); [reflexivity|].
    destruct (utf8_decode _); [|reflexivity].
    cbn [Store.result_value]. rewrite queue_feed_data_value. reflexivity.
  - destruct (nonempty payload); [reflexivity|].
    cbn [Store.result_value]. rewrite queue_feed_data_value. reflexivity.
Qed.

(** The end of a message: the payload is put after the content of
    [_partial], which is cleared in place, and handed on. *)
Lemma assemble_value (r : Store.SReader) (h : Store.heap) (opcode : Z)
  (payload : Store.loc) (compressed : option bool) (has_partial : bool) :
  Store.sound r h ->
  (let '(assembled_payload, r) :=
     if has_partial
     then (_partial (Store.value h r) ++ Store.content h payload,
           set__partial [] (Store.value h r))
     else (Store.content h payload, Store.value h r) in
   if truthy (_max_msg_size r)
      && (len assembled_payload >=? _max_msg_size r)
   then Raised (message_too_big (len assembled_payload) (_max_msg_size r)) r
   else
     match merge_payload compressed assembled_payload r with
     | (inl e, r) => Raised e r
     | (inr payload_merged, r) => deliver_data opcode payload_merged r
     end)
  = (let x :=
       let '(assembled_payload, h) :=
         if has_partial
         then (Store.content h (_partial r) ++ Store.content h payload,
               Store.assign h (_partial r) [])
         else (Store.content h payload, h) in
       if truthy (_max_msg_size r)
          && (len assembled_payload >=? _max_msg_size r)
       then (Raised
               (message_too_big (len assembled_payload) (_max_msg_size r)) r,
             h)
       else
         match merge_payload compressed assembled_payload r with
         | (inl e, r) => (Raised e r, h)
         | (inr payload_merged, r) =>
             (deliver_data opcode payload_merged r, h)
         end in
     Store.result_value (snd x) (fst x)).
Proof.
  intros S.
  assert (Go : forall (h2 : Store.heap) (a : bytes),
             (if truthy (_max_msg_size (Store.value h2 r))
                 && (len a >=? _max_msg_size (Store.value h2 r))
              then Raised
                     (message_too_big (len a)
                        (_max_msg_size (Store.value h2 r)))
                     (Store.value h2 r)
              else
                match merge_payload compressed a (Store.value h2 r) with
                | (inl e, r) => Raised e r
                | (inr payload_merged, r) =>
                    deliver_data opcode payload_merged r
                end)
             = (let x :=
                  if truthy (_max_msg_size r) && (len a >=? _max_msg_size r)
                  then (Raised (message_too_big (len a) (_max_msg_size r)) r,
                        h2)
                  else
                    match merge_payload compressed a r with
                    | (inl e, r) => (Raised e r, h2)
                    | (inr payload_merged, r) =>
                        (deliver_data opcode payload_merged r, h2)
                    end in
                Store.result_value (snd x) (fst x))).
  { intros h2 a. cbv zeta.
    change (_max_msg_size (Store.value h2 r)) with (_max_msg_size r).
    destruct (truthy (_max_msg_size r) && _); [reflexivity|].
    rewrite merge_payload_value.
    destruct (merge_payload compressed a r) as [[e|p] r2]; cbn [fst snd];
      [reflexivity|apply deliver_data_value]. }
  destruct has_partial.
  - rewrite <- (value_assign_partial r h [] S). apply Go.
  - apply Go.
Qed.

Lemma finish_message_value (r : Store.SReader) (h : Store.heap) opcode
  is_continuation payload compressed :
  Store.sound r h ->
  finish_message (Store.value h r) opcode is_continuation
    (Store.content h payload) compressed
  = Store.result_value
      (snd (Store.finish_message r h opcode is_continuation payload
              compressed))
      (fst (Store.finish_message r h opcode is_continuation payload
              compressed)).
Proof.
  intros S. unfold finish_message, Store.finish_message.
  change (_partial (Store.value h r)) with (Store.content h (_partial r)).
  change (_opcode (Store.value h r)) with (_opcode r).
  cbv zeta.
  destruct is_continuation.
  - destruct (_opcode r) as [message_opcode|]; [|reflexivity].
    assert (S1 : Store.sound (set__opcode None r) h)
      by (apply (sound_same_buffers r); [exact S|destruct r; reflexivity..]).
    pose proof (assemble_value (set__opcode None r) h message_opcode payload
                  compressed (nonempty (Store.content h (_partial r))) S1)
      as A.
    cbv zeta in A.
    replace (_partial (set__opcode None r)) with (_partial r) in A
      by (destruct r; reflexivity).
    replace (Store.value h (set__opcode None r))
      with (set__opcode None (Store.value h r)) in A
      by (destruct r; reflexivity).
    replace (_partial (set__opcode None (Store.value h r)))
      with (Store.content h (_partial r)) in *
      by (destruct r; reflexivity).
    replace (_partial (set__opcode None r)) with (_partial r)
      by (destruct r; reflexivity).
    exact A.
  - destruct (nonempty (Store.content h (_partial r))) eqn:HP; [reflexivity|].
    pose proof (assemble_value r h opcode payload compressed false S) as A.
    cbv zeta in A. exact A.
Qed.

(** The handling of a frame. *)
Lemma handle_frame_value (r : Store.SReader) (h : Store.heap)
  (frame : Frame Store.loc) :
  Store.sound r h ->
  handle_frame (Store.value h r) (Store.frame_value h frame)
  = Store.result_value (snd (Store.handle_frame r h frame))
      (fst (Store.handle_frame r h frame)).
Proof.
  intros S. unfold handle_frame, Store.handle_frame, Store.frame_value.
  cbn [f_fin f_opcode f_payload f_compressed].
  destruct (f_opcode frame) as [opcode|]; [|reflexivity]. cbv zeta.
  destruct ((opcode =? OP_CODE_TEXT) || (opcode =? OP_CODE_BINARY)
            || (opcode =? OP_CODE_CONTINUATION)).
  - destruct (negb (f_fin frame)); [|apply finish_message_value, S].
    set (r1 := if negb (opcode =? OP_CODE_CONTINUATION)
               then set__opcode (Some opcode) r else r).
    assert (R : _frame_payload r1 = _frame_payload r
                /\ _partial r1 = _partial r /\ queue r1 = queue r).
    { subst r1. destruct (negb _); [destruct r; cbn; auto|auto]. }
    destruct R as (R1 & R2 & R3).
    assert (S1 : Store.sound r1 h)
      by (apply (sound_same_buffers r); assumption).
    replace (if negb (opcode =? OP_CODE_CONTINUATION)
             then set__opcode (Some opcode) (Store.value h r)
             else Store.value h r)
      with (Store.value h r1)
      by (subst r1; destruct (negb _); [destruct r; reflexivity|reflexivity]).
    change (_partial (Store.value h r1))
      with (Store.content h (_partial r1)).
    unfold Store.iadd.
    rewrite <- (value_assign_partial r1 h _ S1).
    set (h2 := Store.assign h (_partial r1) _).
    change (_max_msg_size (Store.value h2 r1)) with (_max_msg_size r1).
    change (_partial (Store.value h2 r1))
      with (Store.content h2 (_partial r1)).
    destruct (truthy (_max_msg_size r1) && _); reflexivity.
  - destruct (opcode =? OP_CODE_CLOSE); [apply handle_close_value|].
    destruct (opcode =? OP_CODE_PING);
      [cbn [fst snd Store.result_value]; rewrite queue_feed_data_value;
       reflexivity|].
    destruct (opcode =? OP_CODE_PONG);
      [cbn [fst snd Store.result_value]; rewrite queue_feed_data_value;
       reflexivity|].
    reflexivity.
Qed.

Lemma handle_frame_sound (r : Store.SReader) (h : Store.heap)
  (frame : Frame Store.loc) :
  Store.sound r h ->
  Store.detached r h (f_payload frame) ->
  Store.keeps r h (result_reader (fst (Store.handle_frame r h frame)))
    (snd (Store.handle_frame r h frame))
  /\ Store.sound (result_reader (fst (Store.handle_frame r h frame)))
       (snd (Store.handle_frame r h frame)).
Proof.
  intros [W Q] D. pose proof (handle_frame_keeps r h frame W) as H.
  destruct (Store.handle_frame r h frame) as [x h1]. cbn [fst snd].
  destruct H as [K B]. split; [exact K|]. split; [apply K|].
  apply Forall_forall. intros l Hl. destruct (B l Hl) as [Hin| ->].
  - rewrite Forall_forall in Q. apply K, Q, Hin.
  - apply K, D.
Qed.

Lemma handle_frames_value (frames : list (Frame Store.loc)) :
  forall (r : Store.SReader) (h : Store.heap),
    Store.sound r h ->
    Forall (fun f => Store.detached r h (f_payload f)) frames ->
    handle_frames (Store.value h r) (map (Store.frame_value h) frames)
    = Store.result_value (snd (Store.handle_frames r h frames))
        (fst (Store.handle_frames r h frames)).
Proof.
  induction frames as [|f frames IH]; intros r h S F; [reflexivity|].
  inversion F as [|f' fs' F1 F2]; subst.
  cbn [map handle_frames Store.handle_frames].
  rewrite (handle_frame_value r h f S).
  destruct (handle_frame_sound r h f S F1) as [K S1].
  destruct (Store.handle_frame r h f) as [[r1|e r1] h1];
    cbn [fst snd result_reader Store.result_value] in *; [|reflexivity].
  destruct (keeps_value _ _ _ _ frames K F2) as [V1 V2].
  rewrite <- V1. apply IH; assumption.
Qed.

Lemma latch_value (r : Store.SReader) (h : Store.heap) (exc : exn) :
  Store.value h
    (set_queue (set_exception (queue (set__exc (Some exc) r)) exc)
       (set__exc (Some exc) r))
  = set_queue
      (set_exception (queue (set__exc (Some exc) (Store.value h r))) exc)
      (set__exc (Some exc) (Store.value h r)).
Proof.
  unfold Store.value, set_exception. destruct r. reader_cbv.
  rewrite map_app. reflexivity.
Qed.

(** [feed_data] *)
Lemma feed_data_value (r : Store.SReader) (data : bytes) (h : Store.heap) :
  Store.sound r h ->
  feed_data (Store.value h r) data
  = (fst (fst (Store.feed_data r data h)),
     Store.value (snd (Store.feed_data r data h))
       (snd (fst (Store.feed_data r data h)))).
Proof.
  intros S. unfold feed_data, Store.feed_data.
  change (_exc (Store.value h r)) with (_exc r).
  destruct (_exc r); [reflexivity|].
  unfold _feed_data, Store._feed_data.
  rewrite (parse_frame_value r data h S).
  destruct (Store.parse_frame r data h) as [p h1] eqn:Hp.
  destruct (parse_frame_keeps_store r data h p h1 (proj1 S) Hp) as [K1 F1].
  pose proof (parse_frame_queue r data h) as Q. rewrite Hp in Q.
  cbn [fst snd] in *.
  destruct p as [frames r1|e r1];
    cbn [parsed_reader Store.parsed_value] in *.
  - rewrite (handle_frames_value frames r1 h1
               (keeps_sound r r1 h h1 S K1 Q) F1).
    destruct (Store.handle_frames r1 h1 frames) as [[r2|e r2] h2];
      cbv zeta; cbn [fst snd Store.result_value]; [reflexivity|].
    rewrite latch_value. reflexivity.
  - cbv zeta. cbn [fst snd]. rewrite latch_value. reflexivity.
Qed.

Lemma feed_data_sound (r : Store.SReader) (data : bytes) (h : Store.heap) :
  Store.sound r h ->
  Store.sound (snd (fst (Store.feed_data r data h)))
    (snd (Store.feed_data r data h)).
Proof.
  intros [W Q].
  destruct (Store.feed_data r data h) as [[res r1] h1] eqn:H.
  destruct (feed_data_keeps r data h res r1 h1 W Q H) as [K Q1].
  split; [apply K|exact Q1].
Qed.

(** The reader on the store and the reader on byte values give the same
    results, deliver the same messages and latch the same error, for every
    sequence of chunks. *)
Lemma feed_all_value (chunks : list bytes) :
  forall (r : Store.SReader) (h : Store.heap),
    Store.sound r h ->
    feed_all (Store.value h r) chunks
    = (fst (fst (Store.feed_all r chunks h)),
       Store.value (snd (Store.feed_all r chunks h))
         (snd (fst (Store.feed_all r chunks h)))).
Proof.
  induction chunks as [|c chunks IH]; intros r h S; [reflexivity|].
  cbn [feed_all Store.feed_all].
  rewrite (feed_data_value r c h S).
  pose proof (feed_data_sound r c h S) as S1.
  destruct (Store.feed_data r c h) as [[res r1] h1]. cbn [fst snd] in *.
  rewrite (IH r1 h1 S1).
  destruct (Store.feed_all r1 chunks h1) as [[ress r2] h2]. reflexivity.
Qed.

Lemma init_value (q : DataQueue Store.loc) (max_msg_size : Z)
  (compress : bool) :
  Store.value (snd (Store.init q max_msg_size compress))
    (fst (Store.init q max_msg_size compress))
  = init
      (map (Store.call_value (snd (Store.init q max_msg_size compress))) q)
      max_msg_size compress.
Proof. reflexivity. Qed.

Lemma init_sound (max_msg_size : Z) (compress : bool) :
  Store.sound (fst (Store.init [] max_msg_size compress))
    (snd (Store.init [] max_msg_size compress)).
Proof. split; [apply well_formed_init|constructor]. Qed.

Lemma store_run_value (max_msg_size : Z) (compress : bool)
  (chunks : list bytes) :
  let s := Store.init [] max_msg_size compress in
  let x := Store.feed_all (fst s) chunks (snd s) in
  feed_all (init [] max_msg_size compress) chunks
  = (fst (fst x), Store.value (snd x) (snd (fst x))).
Proof.
  cbv zeta.
  rewrite <- (feed_all_value chunks _ _ (init_sound max_msg_size compress)).
  reflexivity.
Qed.

End Refinement.

(** ** Error surfacing and latching *)

(** C1 (amended).  A call of [feed_data] on a reader that is not latched:
    when the parsing of the chunk raises [err] (in L1, L2 or L3), the call
    latches [err], calls [set_exception(err)] on the sink after the
    messages the chunk has delivered, and returns [closed = True] with an
    empty leftover; when the chunk is parsed without error the call
    returns [closed = False], also with an empty leftover. *)
Theorem feed_data_surfaces_errors {RT : Runtime} (r : Reader)
  (chunk : bytes) :
  _exc r = None ->
  match _feed_data r chunk with
  | Raised err r' =>
      fst (feed_data r chunk) = (true, [])
      /\ _exc (snd (feed_data r chunk)) = Some err
      /\ queue (snd (feed_data r chunk)) = queue r' ++ [q_set_exception err]
  | Done r' => feed_data r chunk = ((false, []), r')
  end.
Proof.
  intros He. rewrite (feed_data_unlatched r chunk He).
  destruct (_feed_data r chunk) as [r'|err r']; [reflexivity|].
  cbn [fst snd]. repeat split; reflexivity.
Qed.

Section Concrete1.

#[local] Existing Instance py_runtime.

Lemma feed_data_surfaces_errors_witness :
  _exc (init [] 0 true) = None
  /\ match _feed_data (init [] 0 true) [xa0; x00] with
     | Raised err r' =>
         fst (feed_data (init [] 0 true) [xa0; x00]) = (true, [])
         /\ _exc (snd (feed_data (init [] 0 true) [xa0; x00])) = Some err
         /\ queue (snd (feed_data (init [] 0 true) [xa0; x00]))
            = queue r' ++ [q_set_exception err]
     | Done r' => feed_data (init [] 0 true) [xa0; x00] = ((false, []), r')
     end.
Proof.
  split; [reflexivity|].
  apply (@feed_data_surfaces_errors py_runtime (init [] 0 true) [xa0; x00]).
  reflexivity.
Defined.

End Concrete1.

Section Concrete2.

#[local] Existing Instance py_runtime.

(** C1, as stated, fails: the header [A0 00] has RSV2 set, the call that
    is fed this chunk raises, and the leftover it returns is empty, not
    the chunk. *)
Lemma feed_data_leftover_counterexample :
  _feed_data (init [] 0 true) [xa0; x00]
  = Raised (protocol_error Msg_nonzero_reserved_bits) (init [] 0 true)
  /\ fst (feed_data (init [] 0 true) [xa0; x00])
     <> (true, [xa0; x00]).
Proof. split; [reflexivity|]. vm_compute. discriminate. Qed.

End Concrete2.

(** C9.  After a call of [feed_data] has raised a fatal error, every later
    call, for any number of calls and any chunks, returns [(True, c)] for
    its chunk [c] and leaves the reader as it was: nothing is parsed and
    nothing reaches the sink. *)
Theorem latched_reader_returns_chunks {RT : Runtime} (r0 : Reader)
  (c0 : bytes) (err : exn) (r' : Reader) (chunks : list bytes) :
  _exc r0 = None ->
  _feed_data r0 c0 = Raised err r' ->
  feed_all (snd (feed_data r0 c0)) chunks
  = (map (fun c => (true, c)) chunks, snd (feed_data r0 c0)).
Proof.
  intros He Hr. rewrite (feed_data_unlatched r0 c0 He), Hr. cbn [snd].
  apply (feed_all_latched chunks (latch err r') err). apply latch_exc.
Qed.

Section Concrete3.

#[local] Existing Instance py_runtime.

Lemma latched_reader_returns_chunks_witness :
  _exc (init [] 0 true) = None
  /\ _feed_data (init [] 0 true) [xa0; x00]
     = Raised (protocol_error Msg_nonzero_reserved_bits) (init [] 0 true)
  /\ feed_all (snd (feed_data (init [] 0 true) [xa0; x00]))
       [[x89; x00]; []; [x81; x01; x41]]
     = (map (fun c => (true, c)) [[x89; x00]; []; [x81; x01; x41]],
        snd (feed_data (init [] 0 true) [xa0; x00])).
Proof.
  split; [reflexivity|]. split; [reflexivity|].
  apply (@latched_reader_returns_chunks py_runtime (init [] 0 true)
           [xa0; x00] (protocol_error Msg_nonzero_reserved_bits)
           (init [] 0 true) [[x89; x00]; []; [x81; x01; x41]]);
    reflexivity.
Defined.

End Concrete3.

(** ** Chunk boundaries *)


Section Concrete4.

#[local] Existing Instance py_runtime.


End Concrete4.

Section Concrete5.

#[local] Existing Instance py_runtime.


End Concrete5.

(** ** Header validation *)

(** C8.  For every frame header the parser decodes, in any pass of the
    loop of [parse_frame]: a set RSV2 or RSV3 bit, or a set RSV1 bit while
    compression is not negotiated, raises the protocol error "non-zero
    reserved bits"; a control opcode (above 7) with fin = 0 raises a
    protocol error, which is "fragmented control frame" unless the
    reserved-bit check has already raised; a control opcode with a payload
    length flag above 125 raises a protocol error. *)
Theorem header_validation {RT : Runtime} (r : Reader) (b0 b1 : byte)
  (rest : bytes) (fuel : nat) (frames : list (Frame bytes)) :
  _state r = READ_HEADER ->
  let fin := Z.testbit (byte_val b0) 7 in
  let rsv1 := Z.testbit (byte_val b0) 6 in
  let rsv2 := Z.testbit (byte_val b0) 5 in
  let rsv3 := Z.testbit (byte_val b0) 4 in
  let opcode := byte_val b0 mod 16 in
  let length_flag := byte_val b1 mod 128 in
  let reserved := rsv2 || rsv3 || (rsv1 && negb (_compress r)) in
  let outcome := parse_loop (S fuel) r (b0 :: b1 :: rest) frames in
  (reserved = true ->
   outcome
   = Some (ParseError (protocol_error Msg_nonzero_reserved_bits) r))
  /\ (opcode > 7 -> fin = false ->
      outcome
      = Some
          (ParseError
             (protocol_error
                (if reserved then Msg_nonzero_reserved_bits
                 else Msg_fragmented_control_frame)) r))
  /\ (opcode > 7 -> length_flag > 125 ->
      exists text, outcome = Some (ParseError (protocol_error text) r)).
Proof.
  intros Hs. cbv zeta. cbn [parse_loop].
  pose proof (read_header_fields r b0 b1 rest Hs) as H. cbv zeta in H.
  set (reserved := Z.testbit (byte_val b0) 5 || Z.testbit (byte_val b0) 4
                   || (Z.testbit (byte_val b0) 6 && negb (_compress r))) in *.
  split; [|split].
  - intros Hr. rewrite Hr in H.
    rewrite (parse_pass_header_throw _ _ _ _ H). reflexivity.
  - intros Ho Hf. destruct reserved.
    + rewrite (parse_pass_header_throw _ _ _ _ H). reflexivity.
    + rewrite Hf in H.
      replace (byte_val b0 mod 16 >? 7) with true in H by lia.
      cbn [andb negb] in H.
      rewrite (parse_pass_header_throw _ _ _ _ H). reflexivity.
  - intros Ho Hl. destruct reserved.
    + rewrite (parse_pass_header_throw _ _ _ _ H). eauto.
    + replace (byte_val b0 mod 16 >? 7) with true in H by lia.
      replace (byte_val b1 mod 128 >? 125) with true in H by lia.
      cbn [andb] in H.
      destruct (negb (Z.testbit (byte_val b0) 7));
        rewrite (parse_pass_header_throw _ _ _ _ H); eauto.
Qed.

Section ConcreteHeaders.

#[local] Existing Instance py_runtime.

Lemma header_validation_witness :
  parse_loop 1 (init [] 0 false) [xc1; x00] []
  = Some (ParseError (protocol_error Msg_nonzero_reserved_bits)
            (init [] 0 false))
  /\ parse_loop 1 (init [] 0 true) [x09; x00] []
     = Some (ParseError (protocol_error Msg_fragmented_control_frame)
               (init [] 0 true))
  /\ exists text,
       parse_loop 1 (init [] 0 true) [x8a; x7e] []
       = Some (ParseError (protocol_error text) (init [] 0 true)).
Proof.
  split; [|split].
  - apply (proj1 (@header_validation py_runtime (init [] 0 false) xc1 x00
                    [] 0%nat [] eq_refl)).
    reflexivity.
  - apply (proj1 (proj2 (@header_validation py_runtime (init [] 0 true)
                           x09 x00 [] 0%nat [] eq_refl)));
      [reflexivity|reflexivity].
  - apply (proj2 (proj2 (@header_validation py_runtime (init [] 0 true)
                           x8a x7e [] 0%nat [] eq_refl)));
      reflexivity.
Defined.

End ConcreteHeaders.

(** ** The compression flag *)

Section Compression.

Context {RT : Runtime}.

(** The rule of lines 293-302 for a header that passes the checks before
    it: after a frame with fin = 1, or before the first frame, the flag is
    taken from RSV1; otherwise RSV1 = 1 raises and RSV1 = 0 keeps the
    flag. *)
Lemma compression_continuity_rule (r : Reader) (b0 b1 : byte) (rest : bytes) :
  _state r = READ_HEADER ->
  let fin := Z.testbit (byte_val b0) 7 in
  let rsv1 := Z.testbit (byte_val b0) 6 in
  let opcode := byte_val b0 mod 16 in
  Z.testbit (byte_val b0) 5 || Z.testbit (byte_val b0) 4
  || (rsv1 && negb (_compress r)) = false ->
  (opcode >? 7) && negb fin = false ->
  (opcode >? 7) && (byte_val b1 mod 128 >? 125) = false ->
  match read_header r (b0 :: b1 :: rest) with
  | Next _ r' rest' =>
      rest' = rest /\ _frame_fin r' = fin
      /\ _frame_opcode r' = Some opcode
      /\ _compressed r'
         = (if _frame_fin r || is_None (_compressed r) then Some rsv1
            else _compressed r)
      /\ (_frame_fin r || is_None (_compressed r) = true \/ rsv1 = false)
  | Throw e r' =>
      e = protocol_error Msg_nonzero_reserved_bits
      /\ _frame_fin r || is_None (_compressed r) = false /\ rsv1 = true
  | Break _ _ => False
  end.
Proof.
  intros Hs. cbv zeta. intros H1 H2 H3.
  pose proof (read_header_fields r b0 b1 rest Hs) as H. cbv zeta in H.
  rewrite H1, H2, H3 in H. rewrite H.
  destruct (_frame_fin r || is_None (_compressed r)) eqn:Hc.
  - crush_reader r. repeat split; auto.
  - destruct (Z.testbit (byte_val b0) 6); [auto|].
    crush_reader r. repeat split; auto.
Qed.

(** C5.  The code at the failing input.  With deflate negotiated, the
    first frame of a fragmented text message has RSV1 = 1, a ping follows,
    and the final continuation frame has RSV1 = 0: the continuation frame
    is emitted with [compressed = False], the flag having been taken anew
    from its own RSV1 bit because the ping before it had fin = 1.  A final
    continuation frame with RSV1 = 1 is accepted after the ping, where the
    same frame directly after the first fragment raises.  In L3 the
    binary message [42 01 AA], [80 01 BB] with a ping in between is
    delivered as the bytes [AA BB] as they came, where without the ping the
    payload is given to the inflater. *)
Theorem control_frame_resets_compression (q : DataQueue bytes) (max : Z) :
  match
    parse_frame (init q max true) [x41; x01; xaa; x89; x00; x80; x01; xbb]
  with
  | Frames frames _ =>
      frames
      = [mkFrame false (Some 1) [xaa] (Some true);
         mkFrame true (Some 9) [] (Some true);
         mkFrame true (Some 0) [xbb] (Some false)]
  | ParseError _ _ => False
  end
  /\ match
       parse_frame (init q max true)
         [x01; x01; xaa; x89; x00; xc0; x01; xbb]
     with
     | Frames frames _ =>
         frames
         = [mkFrame false (Some 1) [xaa] (Some false);
            mkFrame true (Some 9) [] (Some false);
            mkFrame true (Some 0) [xbb] (Some true)]
     | ParseError _ _ => False
     end
  /\ match
       parse_frame (init q max true) [x01; x01; xaa; xc0; x01; xbb]
     with
     | Frames _ _ => False
     | ParseError e _ => e = protocol_error Msg_nonzero_reserved_bits
     end
  /\ snd (run 0 true [[x42; x01; xaa; x89; x00; x80; x01; xbb]])
     = [q_feed_data (WSMessagePing [] EmptyString);
        q_feed_data (WSMessageBinary [xaa; xbb] EmptyString)]
  /\ snd (run 0 true [[x42; x01; xaa; x80; x01; xbb]])
     = match
         decompress_sync new_ZLibDecompressor
           [xaa; xbb; x00; x00; xff; xff] 0
       with
       | None => [q_set_exception zlib_error]
       | Some (_, payload_merged, unconsumed_tail) =>
           if nonempty unconsumed_tail
           then [q_set_exception
                   (WebSocketError WSCloseCode.MESSAGE_TOO_BIG
                      (Msg_decompressed_size_exceeds_limit
                         (0 + len unconsumed_tail) 0))]
           else [q_feed_data (WSMessageBinary payload_merged EmptyString)]
       end.
Proof.
  split; [|split; [|split; [|split]]]; try (vm_compute; reflexivity).
  vm_compute.
  match goal with
  | |- context [match ?x with Some _ => _ | None => _ end] =>
      destruct x as [[[d p] u]|]; [|reflexivity]
  end.
  destruct u; reflexivity.
Qed.

End Compression.

(** ** Close frames *)



(** ** Sequencing of data frames *)

Section ConcreteSequencing.

#[local] Existing Instance py_runtime.

(** C7.  The code at the failing inputs.  A text frame with fin = 0
    arrives while the partial buffer holds the fragment of a text message
    ([01 03 48 65 6C] then [01 02 6C 6F]): no error is raised, the payload
    is added to the buffer.  A continuation frame with fin = 0 arrives
    while no message opcode is recorded ([00 01 61]): no error is raised
    either.  The same frames with fin = 1 raise the protocol errors. *)
Theorem nonfin_frames_are_not_sequenced :
  feed_all (init [] 0 true) [[x01; x03; x48; x65; x6c]; [x01; x02; x6c; x6f]]
  = ([(false, []); (false, [])],
     set__partial [x48; x65; x6c; x6c; x6f]
       (set__opcode (Some 1)
          (set__frame_opcode (Some 1)
             (set__payload_length_flag 2
                (set__compressed (Some false) (init [] 0 true))))))
  /\ feed_all (init [] 0 true) [[x00; x01; x61]]
     = ([(false, [])],
        set__partial [x61]
          (set__frame_opcode (Some 0)
             (set__payload_length_flag 1
                (set__compressed (Some false) (init [] 0 true)))))
  /\ snd (run 0 true [[x01; x03; x48; x65; x6c]; [x81; x02; x6c; x6f]])
     = [q_set_exception (protocol_error (Msg_opcode_expected_zero 1))]
  /\ snd (run 0 true [[x80; x01; x61]])
     = [q_set_exception (protocol_error Msg_continuation_non_started)].
Proof. repeat split; vm_compute; reflexivity. Qed.

End ConcreteSequencing.

(** ** The size limit *)


Section ConcreteSizes.

#[local] Existing Instance py_runtime.


End ConcreteSizes.

(** ** Control frames between the fragments of a message *)


Section ConcreteControlFrames.

#[local] Existing Instance py_runtime.



End ConcreteControlFrames.

(** ** Payload buffers *)

(** C10.  On the store of bytearrays.  When [parse_frame] appends a
    complete frame to its result, the frame holds the bytearray that was
    the accumulator [_frame_payload], and the reader binds the attribute
    to a new bytearray, which is empty.  So the payload of a frame that a
    call of [parse_frame] has returned, and the payload a delivered
    message is built on, keep their content whatever calls of
    [feed_data], [parse_frame] and [feed_eof], and whatever handling of
    frames, come later. *)
Theorem emitted_payload_is_owned {RT : Runtime} :
  (forall (r : Store.SReader) buf (h : Store.heap) f r' buf' h',
      Store.well_formed r h ->
      Store.parse_pass r buf h = (Next (Some f) r' buf', h') ->
      f_payload f = _frame_payload r
      /\ _frame_payload r' = List.length h
      /\ _frame_payload r' <> f_payload f
      /\ Store.content h' (_frame_payload r') = [])
  /\ (forall (r : Store.SReader) buf (h : Store.heap) frames r1 h1 f s,
         Store.well_formed r h ->
         Store.parse_frame r buf h = (Frames frames r1, h1) ->
         In f frames ->
         Store.later (r1, h1) s ->
         Store.content (snd s) (f_payload f)
         = Store.content h1 (f_payload f))
  /\ (forall (r : Store.SReader) data (h : Store.heap) res r1 h1 l s,
         Store.well_formed r h ->
         Forall (Store.detached r h) (Store.queue_buffers (queue r)) ->
         Store.feed_data r data h = (res, r1, h1) ->
         In l (Store.queue_buffers (queue r1)) ->
         Store.later (r1, h1) s ->
         Store.content (snd s) l = Store.content h1 l).
Proof.
  split; [|split].
  - intros r buf h f r' buf' h' W H.
    pose proof (parse_pass_keeps r buf h W) as P. rewrite H in P.
    destruct P as (_ & P1 & P2 & P3 & P4).
    split; [exact P1|]. split; [exact P2|]. split; [|exact P3].
    destruct P4 as (_ & P4 & _). congruence.
  - intros r buf h frames r1 h1 f s W H Hin Hl.
    destruct (parse_frame_keeps_store r buf h _ h1 W H) as [K F].
    cbn [parsed_reader] in K. rewrite Forall_forall in F.
    pose proof (later_keeps _ _ Hl (proj1 K)) as (_ & _ & K2).
    apply K2. apply F. exact Hin.
  - intros r data h res r1 h1 l s W Hq H Hin Hl.
    destruct (feed_data_keeps r data h res r1 h1 W Hq H) as [K F].
    rewrite Forall_forall in F.
    pose proof (later_keeps _ _ Hl (proj1 K)) as (_ & _ & K2).
    apply K2. apply F. exact Hin.
Qed.

Section ConcreteStore.

#[local] Existing Instance py_runtime.

Lemma emitted_payload_is_owned_witness :
  Store.content
    [[]; [x21]; [x01; x02]; []]
    1%nat
  = Store.content [[]; [x21]; []] 1%nat.
Proof.
  apply (proj1 (proj2 (@emitted_payload_is_owned py_runtime))
           (fst (Store.init [] 0 true)) [x89; x01; x21]
           (snd (Store.init [] 0 true))
           [mkFrame true (Some 9) 1%nat (Some false)]
           (set__frame_payload 2%nat
              (set__frame_opcode (Some 9)
                 (set__frame_fin true
                    (set__payload_length_flag 1
                       (set__compressed (Some false)
                          (fst (Store.init [] 0 true)))))))
           [[]; [x21]; []]
           (mkFrame true (Some 9) 1%nat (Some false))
           (snd
              (fst
                 (Store.feed_data
                    (set__frame_payload 2%nat
                       (set__frame_opcode (Some 9)
                          (set__frame_fin true
                             (set__payload_length_flag 1
                                (set__compressed (Some false)
                                   (fst (Store.init [] 0 true)))))))
                    [x82; x02; x01; x02] [[]; [x21]; []])),
            [[]; [x21]; [x01; x02]; []])).
  - apply well_formed_init.
  - vm_compute. reflexivity.
  - left. reflexivity.
  - apply (Store.later_feed_data _ [[]; [x21]; []] [x82; x02; x01; x02]
             (false, [])
             (snd
                (fst
                   (Store.feed_data
                      (set__frame_payload 2%nat
                         (set__frame_opcode (Some 9)
                            (set__frame_fin true
                               (set__payload_length_flag 1
                                  (set__compressed (Some false)
                                     (fst (Store.init [] 0 true)))))))
                      [x82; x02; x01; x02] [[]; [x21]; []])))
             [[]; [x21]; [x01; x02]; []]);
      [vm_compute; reflexivity|apply Store.later_now].
Defined.

End ConcreteStore.

(** * Further properties of the reader *)

(** ** The loop of the frame parser *)

(** X1. The [while True:] loop of [parse_frame] ends: from every state of
    the reader and on every buffer it makes at most [len(buf) + 2] passes
    before it breaks or raises, and [parse_frame] returns what the loop
    gives within this bound. *)
Theorem parse_loop_terminates {RT : Runtime} (r : Reader) (buf : bytes)
  (frames : list (Frame bytes)) :
  (exists x, forall fuel,
      (passes buf <= fuel)%nat -> parse_loop fuel r buf frames = Some x)
  /\ parse_loop (passes (_tail r ++ buf)) (set__tail [] r) (_tail r ++ buf) []
     = Some (parse_frame r buf).
Proof.
  assert (W : forall (r0 : Reader) b, (weight r0 b < passes b)%nat).
  { intros r0 b. unfold weight, passes. destruct (_state r0); lia. }
  split.
  - destruct (parse_loop_total (passes buf) r buf frames (W r buf))
      as [x Hx].
    exists x. intros fuel Hf.
    destruct (parse_loop_total fuel r buf frames) as [y Hy];
      [pose proof (W r buf); lia|].
    rewrite Hy. f_equal.
    apply (parses_det r buf frames y x); [exists fuel|exists (passes buf)];
      assumption.
  - destruct (parse_loop_total (passes (_tail r ++ buf)) (set__tail [] r)
                (_tail r ++ buf) [] (W _ _)) as [x Hx].
    rewrite Hx. f_equal.
    apply (parses_det (set__tail [] r) (_tail r ++ buf) [] x
             (parse_frame r buf)).
    + exists (passes (_tail r ++ buf)). exact Hx.
    + apply parse_frame_parses.
Qed.

(** X3. Bytes that are fed in two calls of [parse_frame] are parsed as they
    are in one call: from every state of the reader, the frames of [c1 ++
    c2] are the frames of [c1] followed by the frames the reader then makes
    of [c2], the reader ends in the same state, and an error in [c1] is the
    error of the whole. *)
Theorem parse_frame_resumes {RT : Runtime} (r : Reader) (c1 c2 : bytes) :
  parse_frame r (c1 ++ c2)
  = match parse_frame r c1 with
    | Frames frames1 r1 => prepend frames1 (parse_frame r1 c2)
    | ParseError e r1 => ParseError e r1
    end.
Proof. apply parse_frame_app. Qed.

(** ** The two layers keep to their attributes *)

(** X4. [parse_frame] makes no call on the queue and leaves the latched
    error, the size limit, the data of the message in progress and the
    inflater as they are; and neither its frames nor what it does to the
    parser attributes depend on them. *)
Theorem parse_frame_leaves_assembly_state {RT : Runtime} (r : Reader)
  (buf : bytes) :
  let r' := parsed_reader (parse_frame r buf) in
  queue r' = queue r /\ _max_msg_size r' = _max_msg_size r
  /\ _exc r' = _exc r /\ _partial r' = _partial r /\ _opcode r' = _opcode r
  /\ _decompressobj r' = _decompressobj r
  /\ forall b : Reader,
       parse_frame (graft r b) buf
       = parsed_map (fun x => graft x b) (parse_frame r buf).
Proof.
  cbv zeta. pose proof (parse_frame_keeps r buf) as H.
  set (r' := parsed_reader (parse_frame r buf)) in *.
  repeat split; try (rewrite H; destruct r', r; reflexivity).
  intros b. apply parse_frame_graft.
Qed.

(** X5. The handling of frames in [_feed_data] leaves every attribute of the
    parser as it is, whether it returns or raises, and does not depend on
    them. *)
Theorem frame_handling_leaves_parser_state {RT : Runtime} (r : Reader)
  (frames : list (Frame bytes)) :
  let r' := result_reader (handle_frames r frames) in
  _state r' = _state r /\ _tail r' = _tail r
  /\ _frame_payload r' = _frame_payload r /\ _frame_fin r' = _frame_fin r
  /\ _frame_opcode r' = _frame_opcode r /\ _has_mask r' = _has_mask r
  /\ _frame_mask r' = _frame_mask r
  /\ _payload_length r' = _payload_length r
  /\ _payload_length_flag r' = _payload_length_flag r
  /\ _compressed r' = _compressed r /\ _compress r' = _compress r
  /\ forall a : Reader,
       handle_frames (graft a r) frames
       = result_map (graft a) (handle_frames r frames).
Proof.
  cbv zeta. pose proof (handle_frames_keeps r frames) as H.
  set (r' := result_reader (handle_frames r frames)) in *.
  repeat split; try (rewrite H; destruct r', r; reflexivity).
  intros a. apply handle_frames_graft.
Qed.

(** ** The wire format *)

(** X2. The parser reads the frame layout of the protocol. A stream of
    frames that are not compressed, each with a 7-bit, a 16-bit or a 64-bit
    length and with or without a masking key, fed to a reader that is
    between two frames, gives back the frames in order, each with its fin
    bit, its opcode and its payload unmasked, and leaves the reader between
    two frames. *)
Theorem wire_frames_round_trip {RT : Runtime} (ws : list WireFrame)
  (r : Reader) :
  idle r -> Forall wire_ok ws ->
  exists r',
    parse_frame r (encode_frames ws) = Frames (map raw_frame ws) r'
    /\ idle r'.
Proof. apply parse_frame_encode. Qed.

Section ConcreteWire.

#[local] Existing Instance py_runtime.

Lemma wire_frames_round_trip_witness :
  idle (init [] 0 true)
  /\ Forall wire_ok
       [mkWire true false 1 (Some (x37, xfa, x21, x3d)) [x48; x69];
        mkWire true false 9 None []]
  /\ exists r',
       parse_frame (init [] 0 true)
         (encode_frames
            [mkWire true false 1 (Some (x37, xfa, x21, x3d)) [x48; x69];
             mkWire true false 9 None []])
       = Frames
           (map raw_frame
              [mkWire true false 1 (Some (x37, xfa, x21, x3d)) [x48; x69];
               mkWire true false 9 None []]) r'
       /\ idle r'.
Proof.
  assert (I : idle (init [] 0 true)) by (repeat split; discriminate).
  assert (W : Forall wire_ok
                [mkWire true false 1 (Some (x37, xfa, x21, x3d)) [x48; x69];
                 mkWire true false 9 None []]).
  { repeat constructor; cbn; try lia; try reflexivity. }
  split; [exact I|]. split; [exact W|].
  exact (@wire_frames_round_trip py_runtime _ _ I W).
Defined.

End ConcreteWire.

(** ** What is left in the buffer *)

Section Tail.

Context {RT : Runtime}.

Lemma read_payload_length_short (r r' : Reader) buf buf' :
  read_payload_length r buf = Break r' buf' ->
  r' = r /\ buf' = buf /\ _state r = READ_PAYLOAD_LENGTH
  /\ 126 <= _payload_length_flag r
  /\ len buf < (if _payload_length_flag r =? 126 then 2 else 8).
Proof.
  unfold read_payload_length.
  destruct (state_eqb (_state r) READ_PAYLOAD_LENGTH) eqn:Hs;
    [|discriminate].
  assert (Hst : _state r = READ_PAYLOAD_LENGTH)
    by (destruct (_state r); try discriminate; reflexivity).
  cbv zeta. destruct (_payload_length_flag r =? 126) eqn:E.
  - destruct buf as [|b0 [|b1 rest]]; try discriminate;
      intros H; injection H as <- <-; repeat split; auto;
        rewrite ?len_cons, ?len_nil; lia.
  - destruct (_payload_length_flag r >? 126) eqn:E2; [|discriminate].
    destruct (len buf <? 8) eqn:E3; [|discriminate].
    intros H; injection H as <- <-. repeat split; auto; lia.
Qed.

Lemma read_payload_mask_short (r r' : Reader) buf buf' :
  read_payload_mask r buf = Break r' buf' ->
  r' = r /\ buf' = buf /\ _state r = READ_PAYLOAD_MASK /\ len buf < 4.
Proof.
  unfold read_payload_mask.
  destruct (state_eqb (_state r) READ_PAYLOAD_MASK) eqn:Hs; [|discriminate].
  assert (Hst : _state r = READ_PAYLOAD_MASK)
    by (destruct (_state r); try discriminate; reflexivity).
  destruct (len buf <? 4) eqn:E; [|discriminate].
  intros H; injection H as <- <-. repeat split; auto; lia.
Qed.

Lemma parse_pass_break (r r' : Reader) buf buf' :
  parse_pass r buf = Break r' buf' -> short_tail r' buf'.
Proof.
  rewrite parse_pass_split. unfold short_tail.
  destruct (flow_bind (read_header r buf) _) as [u3 r3 buf3|r3 buf3|e r3]
    eqn:H3; cbn [flow_bind]; [| |discriminate].
  - destruct (before_payload _ _ _ _ _ H3) as (_ & Hs & _).
    rewrite (read_payload_cases _ _ Hs).
    destruct (_payload_length r3 >? len buf3) eqn:E.
    + intros H; injection H as <- <-.
      replace (_state (take_payload r3 buf3)) with (_state r3)
        by (destruct r3; reflexivity).
      rewrite Hs. split; [reflexivity|].
      replace (_payload_length (take_payload r3 buf3))
        with (_payload_length r3 - len buf3) by (destruct r3; reflexivity).
      lia.
    + intros H. exfalso. revert H. apply emit_frame_no_break.
  - intros H; injection H as <- <-.
    destruct (read_header r buf) as [u1 r1 buf1|r1 buf1|e r1] eqn:H1;
      cbn [flow_bind] in H3; [| |discriminate].
    + destruct (read_payload_length r1 buf1) as [u2 r2 buf2|r2 buf2|e r2]
        eqn:H2; cbn [flow_bind] in H3; [| |discriminate].
      * destruct (read_payload_mask_short _ _ _ _ H3) as (-> & -> & Hs & L).
        rewrite Hs. exact L.
      * injection H3 as <- <-.
        destruct (read_payload_length_short _ _ _ _ H2)
          as (-> & -> & Hs & L1 & L2).
        rewrite Hs. auto.
    + injection H3 as <- <-.
      destruct (read_header_break _ _ _ _ H1) as (-> & -> & Hs & L).
      rewrite Hs. exact L.
Qed.

Lemma parse_loop_break (fuel : nat) :
  forall (r r' : Reader) buf frames frames',
    parse_loop fuel r buf frames = Some (Frames frames' r') ->
    short_tail r' (_tail r').
Proof.
  induction fuel as [|fuel IH]; intros r r' buf frames frames' H;
    [discriminate|].
  cbn [parse_loop] in H.
  destruct (parse_pass r buf) as [f r1 buf1|r1 buf1|e r1] eqn:Hp.
  - apply (IH _ _ _ _ _ H).
  - injection H as <- <-. pose proof (parse_pass_break _ _ _ _ Hp) as S.
    unfold short_tail in *.
    replace (_state (set__tail buf1 r1)) with (_state r1)
      by (destruct r1; reflexivity).
    replace (_payload_length_flag (set__tail buf1 r1))
      with (_payload_length_flag r1) by (destruct r1; reflexivity).
    replace (_payload_length (set__tail buf1 r1))
      with (_payload_length r1) by (destruct r1; reflexivity).
    replace (_tail (set__tail buf1 r1)) with buf1
      by (destruct r1; reflexivity).
    exact S.
  - discriminate.
Qed.

End Tail.

(** X6. When [parse_frame] returns, what it keeps in [_tail] is a part of a
    header field: less than 2 bytes before a header, less than 2 or less
    than 8 bytes of an extended length, less than 4 bytes of a masking key;
    inside a payload the tail is empty and the payload is not complete.
    Payload bytes are never kept in the tail, which has fewer than 8 bytes. *)
Theorem tail_is_short {RT : Runtime} (r r' : Reader) (buf : bytes)
  (frames : list (Frame bytes)) :
  parse_frame r buf = Frames frames r' ->
  short_tail r' (_tail r') /\ len (_tail r') < 8.
Proof.
  intros H. destruct (parse_frame_parses r buf) as [fuel Hf].
  rewrite H in Hf. pose proof (parse_loop_break _ _ _ _ _ _ Hf) as S.
  split; [exact S|]. unfold short_tail in S.
  destruct (_state r').
  - lia.
  - destruct S as [_ S]. destruct (_payload_length_flag r' =? 126); lia.
  - lia.
  - destruct S as [-> _]. rewrite len_nil. lia.
Qed.

Section ConcreteTail.

#[local] Existing Instance py_runtime.

Lemma tail_is_short_witness :
  parse_frame (init [] 0 true) [x81; xfe; x01]
  = Frames [] (parsed_reader (parse_frame (init [] 0 true) [x81; xfe; x01]))
  /\ short_tail
       (parsed_reader (parse_frame (init [] 0 true) [x81; xfe; x01])) [x01]
  /\ len [x01] < 8.
Proof.
  split; [vm_compute; reflexivity|].
  apply (@tail_is_short py_runtime (init [] 0 true)
           (parsed_reader (parse_frame (init [] 0 true) [x81; xfe; x01]))
           [x81; xfe; x01] []).
  vm_compute. reflexivity.
Defined.

End ConcreteTail.

(** ** Invariants of the parser *)

Section Coherence.

Context {RT : Runtime}.

Ltac split_all :=
  repeat first
    [ progress cbv beta iota zeta
    | match goal with
      | |- context [if ?c then _ else _] => destruct c eqn:?
      | |- context [match ?c with Some _ => _ | None => _ end] =>
          destruct c eqn:?
      | |- context [match ?c with [] => _ | _ :: _ => _ end] => destruct c
      end ].

Ltac coherent_leaf :=
  unfold coherent, header_error in *; reader_cbv;
  repeat match goal with
         | H : _ /\ _ |- _ => destruct H
         end;
  try solve [auto | intuition (congruence || discriminate)].

Lemma read_header_coherent (r : Reader) buf :
  coherent r ->
  match read_header r buf with
  | Next _ r' _ => coherent r'
  | Break r' _ => coherent r'
  | Throw e _ => header_error e
  end.
Proof.
  intros C. unfold read_header.
  destruct r as [q mx ex pa st op ff fo fp tl hm fm pl plf cp dobj cmp].
  reader_cbv.
  destruct st; cbn [state_eqb]; try exact C;
    split_all; coherent_leaf.
Qed.

Lemma read_payload_length_coherent (r : Reader) buf :
  coherent r ->
  match read_payload_length r buf with
  | Next _ r' _ => coherent r'
  | Break r' _ => coherent r'
  | Throw _ _ => False
  end.
Proof.
  intros C. unfold read_payload_length.
  destruct r as [q mx ex pa st op ff fo fp tl hm fm pl plf cp dobj cmp].
  reader_cbv.
  destruct st; cbn [state_eqb]; try exact C;
    split_all; coherent_leaf.
Qed.

Lemma read_payload_mask_coherent (r : Reader) buf :
  coherent r ->
  match read_payload_mask r buf with
  | Next _ r' _ => coherent r'
  | Break r' _ => coherent r'
  | Throw _ _ => False
  end.
Proof.
  intros C. unfold read_payload_mask.
  destruct r as [q mx ex pa st op ff fo fp tl hm fm pl plf cp dobj cmp].
  reader_cbv.
  destruct st; cbn [state_eqb]; try exact C;
    split_all; coherent_leaf.
Qed.

Lemma read_payload_coherent (r : Reader) buf :
  coherent r ->
  match read_payload r buf with
  | Next _ r' _ => coherent r'
  | Break r' _ => coherent r'
  | Throw _ _ => False
  end.
Proof.
  intros C. unfold read_payload.
  destruct r as [q mx ex pa st op ff fo fp tl hm fm pl plf cp dobj cmp].
  reader_cbv.
  destruct (state_eqb st READ_PAYLOAD) eqn:Hs; [|exact C].
  assert (Hst : st = READ_PAYLOAD)
    by (destruct st; try discriminate; reflexivity).
  subst st. destruct C as [C1 C2]. reader_cbv.
  destruct (pl >=? len buf); reader_cbv;
    (destruct (negb _);
     [split; [exact C1|intros N; exfalso; apply N; reflexivity]|]);
    (destruct hm;
     [destruct fm as [mask|];
      [split; intros; [discriminate|reflexivity]
      |apply (C1 eq_refl eq_refl); reflexivity]
     |split; intros; [discriminate|reflexivity]]).
Qed.

Lemma parse_pass_coherent (r : Reader) buf :
  coherent r ->
  match parse_pass r buf with
  | Next _ r' _ => coherent r'
  | Break r' _ => coherent r'
  | Throw e _ => header_error e
  end.
Proof.
  intros C. unfold parse_pass.
  pose proof (read_header_coherent r buf C) as H1.
  destruct (read_header r buf) as [u1 r1 buf1|r1 buf1|e r1];
    cbn [flow_bind]; [|exact H1..].
  pose proof (read_payload_length_coherent r1 buf1 H1) as H2.
  destruct (read_payload_length r1 buf1) as [u2 r2 buf2|r2 buf2|e r2];
    cbn [flow_bind]; [|exact H2|destruct H2].
  pose proof (read_payload_mask_coherent r2 buf2 H2) as H3.
  destruct (read_payload_mask r2 buf2) as [u3 r3 buf3|r3 buf3|e r3];
    cbn [flow_bind]; [|exact H3|destruct H3].
  pose proof (read_payload_coherent r3 buf3 H3) as H4.
  destruct (read_payload r3 buf3) as [f r4 buf4|r4 buf4|e r4];
    [exact H4|exact H4|destruct H4].
Qed.

Lemma parse_loop_coherent (fuel : nat) :
  forall (r : Reader) buf frames x,
    coherent r ->
    parse_loop fuel r buf frames = Some x ->
    match x with
    | Frames _ r' => coherent r'
    | ParseError e _ => header_error e
    end.
Proof.
  induction fuel as [|fuel IH]; intros r buf frames x C H; [discriminate|].
  cbn [parse_loop] in H. pose proof (parse_pass_coherent r buf C) as P.
  destruct (parse_pass r buf) as [f r1 buf1|r1 buf1|e r1].
  - apply (IH _ _ _ _ P H).
  - injection H as <-. destruct r1. exact P.
  - injection H as <-. exact P.
Qed.

Lemma parse_frame_coherent (r : Reader) buf :
  coherent r ->
  match parse_frame r buf with
  | Frames _ r' => coherent r'
  | ParseError e _ => header_error e
  end.
Proof.
  intros C. destruct (parse_frame_parses r buf) as [fuel H].
  apply (parse_loop_coherent fuel _ _ _ (parse_frame r buf)) in H;
    [exact H|].
  destruct r. exact C.
Qed.

End Coherence.

(** X7. A reader whose masking key is there when it reads the payload of a
    masked frame, as every reader is that was made by [__init__] and fed
    since: [parse_frame] keeps it so, its assertion on the masking key
    holds, and the only errors it raises are the three protocol errors of
    the header block; it raises nothing for a length or a payload, whatever
    their size. *)
Theorem parse_frame_raises_header_errors_only {RT : Runtime} (r : Reader)
  (buf : bytes) :
  coherent r ->
  match parse_frame r buf with
  | Frames _ r' => coherent r'
  | ParseError e _ =>
      e = protocol_error Msg_nonzero_reserved_bits
      \/ e = protocol_error Msg_fragmented_control_frame
      \/ e = protocol_error Msg_control_frame_too_large
  end.
Proof. apply parse_frame_coherent. Qed.

Section ConcreteCoherence.

#[local] Existing Instance py_runtime.

Lemma parse_frame_raises_header_errors_only_witness :
  coherent (init [] 0 true)
  /\ match parse_frame (init [] 0 true) [x81; x85; x01; x02] with
     | Frames _ r' => coherent r'
     | ParseError e _ =>
         e = protocol_error Msg_nonzero_reserved_bits
         \/ e = protocol_error Msg_fragmented_control_frame
         \/ e = protocol_error Msg_control_frame_too_large
     end.
Proof.
  assert (C : coherent (init [] 0 true))
    by (split; [discriminate|reflexivity]).
  split; [exact C|].
  exact (@parse_frame_raises_header_errors_only py_runtime (init [] 0 true)
           [x81; x85; x01; x02] C).
Defined.

End ConcreteCoherence.

(** ** What the handling of a frame can do *)

Section Effects.

Context {RT : Runtime}.

(** The outcome [x] of a step from [r]: it has put at most one message
    on the queue, and none when it raised; what it raises is an error of
    the reader. *)
Lemma merge_payload_effect (r : Reader) compressed payload :
  queue (snd (merge_payload compressed payload r)) = queue r
  /\ match fst (merge_payload compressed payload r) with
     | inl e => reader_error e
     | inr _ => True
     end.
Proof.
  unfold merge_payload. destruct (opt_truthy compressed); [|cbn; auto].
  destruct (decompress_sync _ _ _) as [[[d p] u]|].
  - destruct (nonempty u); destruct r; cbn; auto.
  - destruct r; cbn; auto.
Qed.

Lemma deliver_data_effect (r : Reader) opcode payload :
  match deliver_data opcode payload r with
  | Done r' => exists msg, queue r' = queue r ++ [q_feed_data msg]
  | Raised e r' => queue r' = queue r /\ reader_error e
  end.
Proof.
  unfold deliver_data. destruct (opcode =? OP_CODE_TEXT).
  - destruct (utf8_decode payload); [|cbn; auto].
    eexists. destruct r; reflexivity.
  - eexists. destruct r; reflexivity.
Qed.

Lemma handle_close_effect (r : Reader) fin opcode payload :
  match handle_close fin opcode payload r with
  | Done r' => exists msg, queue r' = queue r ++ [q_feed_data msg]
  | Raised e r' => queue r' = queue r /\ reader_error e
  end.
Proof.
  unfold handle_close. destruct (len payload >=? 2).
  - cbv zeta. destruct (_ && _); [cbn; auto|].
    destruct (utf8_decode _); [|cbn; auto].
    eexists. destruct r; reflexivity.
  - destruct (nonempty payload); [cbn; auto|].
    eexists. destruct r; reflexivity.
Qed.

Lemma finish_message_effect (r : Reader) opcode cont payload compressed :
  match finish_message r opcode cont payload compressed with
  | Done r' => exists msg, queue r' = queue r ++ [q_feed_data msg]
  | Raised e r' => queue r' = queue r /\ reader_error e
  end.
Proof.
  assert (Size : forall (r0 : Reader) op assembled,
             queue r0 = queue r ->
             match
               if truthy (_max_msg_size r0)
                  && (len assembled >=? _max_msg_size r0)
               then Raised
                      (message_too_big (len assembled) (_max_msg_size r0)) r0
               else
                 match merge_payload compressed assembled r0 with
                 | (inl e, r) => Raised e r
                 | (inr payload_merged, r) =>
                     deliver_data op payload_merged r
                 end
             with
             | Done r' => exists msg, queue r' = queue r ++ [q_feed_data msg]
             | Raised e r' => queue r' = queue r /\ reader_error e
             end).
  { intros r0 op assembled E.
    destruct (truthy (_max_msg_size r0) && _); [cbn; auto|].
    pose proof (merge_payload_effect r0 compressed assembled) as [M1 M2].
    destruct (merge_payload compressed assembled r0) as [[e|p] r1];
      cbn [fst snd] in *; [split; [congruence|exact M2]|].
    pose proof (deliver_data_effect r1 op p) as D.
    destruct (deliver_data op p r1) as [r2|e r2].
    - destruct D as [msg D]. exists msg. congruence.
    - destruct D as [D1 D2]. split; [congruence|exact D2]. }
  unfold finish_message. destruct cont.
  - destruct (_opcode r) as [op|]; [|cbn; auto].
    destruct (nonempty (_partial r)); apply Size; destruct r; reflexivity.
  - destruct (nonempty (_partial r)); [cbn; auto|]. apply Size; reflexivity.
Qed.

Lemma handle_frame_effect (r : Reader) frame :
  match handle_frame r frame with
  | Done r' =>
      queue r' = queue r \/ exists msg, queue r' = queue r ++ [q_feed_data msg]
  | Raised e r' => queue r' = queue r /\ reader_error e
  end.
Proof.
  unfold handle_frame.
  destruct (f_opcode frame) as [opcode|]; [|cbn; auto].
  destruct ((opcode =? OP_CODE_TEXT) || (opcode =? OP_CODE_BINARY)
            || (opcode =? OP_CODE_CONTINUATION)).
  - destruct (negb (f_fin frame)).
    + cbv zeta. destruct (truthy _ && _);
        destruct (negb (opcode =? OP_CODE_CONTINUATION)); destruct r; cbn;
          auto.
    + pose proof (finish_message_effect r opcode
                    (opcode =? OP_CODE_CONTINUATION) (f_payload frame)
                    (f_compressed frame)) as F.
      destruct (finish_message _ _ _ _ _); [right|]; exact F.
  - destruct (opcode =? OP_CODE_CLOSE).
    + pose proof (handle_close_effect r (f_fin frame) opcode
                    (f_payload frame)) as F.
      destruct (handle_close _ _ _ _); [right|]; exact F.
    + destruct (opcode =? OP_CODE_PING);
        [right; eexists; destruct r; reflexivity|].
      destruct (opcode =? OP_CODE_PONG);
        [right; eexists; destruct r; reflexivity|].
      cbn. auto.
Qed.

Lemma handle_frames_effect (frames : list (Frame bytes)) :
  forall r : Reader,
    (exists msgs,
        queue (result_reader (handle_frames r frames))
        = queue r ++ map q_feed_data msgs)
    /\ match handle_frames r frames with
       | Done _ => True
       | Raised e _ => reader_error e
       end.
Proof.
  induction frames as [|f frames IH]; intros r.
  - split; [exists []; cbn; rewrite app_nil_r; reflexivity|exact I].
  - cbn [handle_frames]. pose proof (handle_frame_effect r f) as H.
    destruct (handle_frame r f) as [r1|e r1].
    + destruct (IH r1) as [[msgs Q] E]. split; [|exact E].
      destruct H as [H|[msg H]]; rewrite Q, H.
      * exists msgs. reflexivity.
      * exists (msg :: msgs). rewrite <- app_assoc. reflexivity.
    + destruct H as [H1 H2]. split; [|exact H2].
      exists []. cbn. rewrite app_nil_r. exact H1.
Qed.

Lemma coherent_graft (a b : Reader) : coherent a -> coherent (graft a b).
Proof. destruct a, b. exact (fun H => H). Qed.

Lemma feed_all_invariant (P : Reader -> Prop) :
  (forall r data, P r -> P (snd (feed_data r data))) ->
  forall chunks r, P r -> P (snd (feed_all r chunks)).
Proof.
  intros Step. induction chunks as [|c chunks IH]; intros r H; [exact H|].
  cbn [feed_all]. specialize (Step r c H).
  destruct (feed_data r c) as [res r1]. cbn [snd] in Step.
  specialize (IH r1 Step).
  destruct (feed_all r1 chunks) as [ress r2]. exact IH.
Qed.

(** The cases of a call of [feed_data]. *)
Lemma feed_data_cases (r : Reader) data :
  (exists e, _exc r = Some e /\ feed_data r data = ((true, data), r))
  \/ (_exc r = None
      /\ exists frames rS,
           parse_frame r data = Frames frames rS
           /\ ((exists r1,
                  handle_frames rS frames = Done r1
                  /\ feed_data r data = (EMPTY_FRAME, r1))
               \/ (exists e r1,
                     handle_frames rS frames = Raised e r1
                     /\ feed_data r data = (EMPTY_FRAME_ERROR, latch e r1))))
  \/ (_exc r = None
      /\ exists e rS,
           parse_frame r data = ParseError e rS
           /\ feed_data r data = (EMPTY_FRAME_ERROR, latch e rS)).
Proof.
  destruct (_exc r) as [e|] eqn:He.
  - left. exists e. split; [reflexivity|].
    apply (feed_data_latched r data e He).
  - right. rewrite (feed_data_unlatched r data He). unfold _feed_data.
    destruct (parse_frame r data) as [frames rS|e rS].
    + left. split; [reflexivity|]. exists frames, rS. split; [reflexivity|].
      destruct (handle_frames rS frames) as [r1|e r1]; eauto 6.
    + right. split; [reflexivity|]. eauto.
Qed.

End Effects.

(** ** Calls of [feed_data], one after the other *)

Section Calls.

Context {RT : Runtime}.

Lemma latch_queue (exc : exn) (r : Reader) :
  queue (latch exc r) = queue r ++ [q_set_exception exc].
Proof. destruct r; reflexivity. Qed.

Lemma parse_frame_queue_value (r : Reader) data :
  queue (parsed_reader (parse_frame r data)) = queue r.
Proof.
  rewrite (parse_frame_keeps r data).
  destruct (parsed_reader (parse_frame r data)), r; reflexivity.
Qed.

(** A call that returns leaves the reader not latched, with a parser
    that is coherent and has nothing more to read. *)
Lemma feed_data_done (r rS r1 : Reader) data frames :
  _exc r = None ->
  parse_frame r data = Frames frames rS ->
  handle_frames rS frames = Done r1 ->
  _exc r1 = None /\ settled r1 /\ (coherent r -> coherent r1)
  /\ exists msgs, queue r1 = queue r ++ map q_feed_data msgs.
Proof.
  intros He Hp Hh.
  pose proof (parse_frame_exc r data) as E1. rewrite Hp in E1.
  pose proof (handle_frames_exc frames rS) as E2. rewrite Hh in E2.
  pose proof (handle_frames_keeps rS frames) as K. rewrite Hh in K.
  cbn [parsed_reader result_reader] in *.
  split; [congruence|]. split; [|split].
  - rewrite K. apply settled_graft. apply (parse_frame_settled _ _ _ _ Hp).
  - intros C. rewrite K. apply coherent_graft.
    pose proof (parse_frame_coherent r data C) as P. rewrite Hp in P.
    exact P.
  - destruct (handle_frames_effect frames rS) as [[msgs Q] _].
    rewrite Hh in Q. cbn [result_reader] in Q. exists msgs. rewrite Q.
    pose proof (parse_frame_queue_value r data) as Q1. rewrite Hp in Q1.
    cbn [parsed_reader] in Q1. rewrite Q1. reflexivity.
Qed.

Lemma feed_data_raised (r rS r1 : Reader) data frames e :
  parse_frame r data = Frames frames rS ->
  handle_frames rS frames = Raised e r1 ->
  reader_error e
  /\ exists msgs, queue r1 = queue r ++ map q_feed_data msgs.
Proof.
  intros Hp Hh. destruct (handle_frames_effect frames rS) as [[msgs Q] E].
  rewrite Hh in Q, E. cbn [result_reader] in Q. split; [exact E|].
  exists msgs. rewrite Q.
  pose proof (parse_frame_queue_value r data) as Q1. rewrite Hp in Q1.
  cbn [parsed_reader] in Q1. rewrite Q1. reflexivity.
Qed.

Lemma header_error_reader_error (e : exn) : header_error e -> reader_error e.
Proof. intros [->|[->| ->]]; cbn; auto. Qed.

End Calls.

(** X9. Whatever is fed to a reader made by [__init__], the error it latches
    is a [WebSocketError] with close code PROTOCOL_ERROR, MESSAGE_TOO_BIG or
    INVALID_TEXT, or an exception of the inflater. The assertion of
    [parse_frame] on the masking key never fails. *)
Theorem latched_error_kinds {RT : Runtime} (q : DataQueue bytes)
  (max_msg_size : Z) (compress : bool) (chunks : list bytes) :
  match _exc (snd (feed_all (init q max_msg_size compress) chunks)) with
  | Some (WebSocketError code _) =>
      code = WSCloseCode.PROTOCOL_ERROR \/ code = WSCloseCode.MESSAGE_TOO_BIG
      \/ code = WSCloseCode.INVALID_TEXT
  | Some AssertionError => False
  | Some zlib_error => True
  | None => True
  end.
Proof.
  set (P := fun r : Reader =>
              match _exc r with
              | Some e => reader_error e
              | None => coherent r
              end).
  assert (Step : forall r data, P r -> P (snd (feed_data r data))).
  { intros r data H. unfold P in *.
    destruct (feed_data_cases r data)
      as [(e & He & ->)
         |[(He & frames & rS & Hp & [(r1 & Hh & ->)|(e & r1 & Hh & ->)])
          |(He & e & rS & Hp & ->)]]; cbn [snd].
    - exact H.
    - rewrite He in H.
      destruct (feed_data_done r rS r1 data frames He Hp Hh)
        as (E & _ & C & _).
      rewrite E. exact (C H).
    - rewrite latch_exc.
      apply (feed_data_raised r rS r1 data frames e Hp Hh).
    - rewrite latch_exc. rewrite He in H.
      pose proof (parse_frame_coherent r data H) as C. rewrite Hp in C.
      apply header_error_reader_error, C. }
  assert (H : P (snd (feed_all (init q max_msg_size compress) chunks))).
  { apply (feed_all_invariant P Step). unfold P. cbn.
    split; [discriminate|reflexivity]. }
  unfold P in H.
  destruct (_exc (snd (feed_all (init q max_msg_size compress) chunks)))
    as [[code text| |]|]; try exact I; exact H.
Qed.

(** X12. The calls a reader makes on its queue, whatever it is fed:
    messages, and after them the one call of [set_exception] when it has
    latched an error. Nothing is delivered after an error, an error is
    reported once, and the reader never calls [feed_eof] by itself. *)
Theorem queue_holds_messages_then_error {RT : Runtime} (max_msg_size : Z)
  (compress : bool) (chunks : list bytes) :
  let r := snd (feed_all (init [] max_msg_size compress) chunks) in
  exists msgs, queue r = map q_feed_data msgs ++ reported r.
Proof.
  cbv zeta.
  set (P := fun r : Reader =>
              exists msgs, queue r = map q_feed_data msgs ++ reported r).
  assert (Step : forall r data, P r -> P (snd (feed_data r data))).
  { intros r data [msgs H]. unfold P.
    destruct (feed_data_cases r data)
      as [(e & He & ->)
         |[(He & frames & rS & Hp & [(r1 & Hh & ->)|(e & r1 & Hh & ->)])
          |(He & e & rS & Hp & ->)]]; cbn [snd].
    - exists msgs. exact H.
    - destruct (feed_data_done r rS r1 data frames He Hp Hh)
        as (E & _ & _ & msgs' & Q).
      exists (msgs ++ msgs'). unfold reported in *. rewrite E.
      rewrite He in H. rewrite Q, H, map_app, !app_nil_r. reflexivity.
    - destruct (feed_data_raised r rS r1 data frames e Hp Hh)
        as (_ & msgs' & Q).
      exists (msgs ++ msgs'). unfold reported in *.
      rewrite latch_exc, latch_queue. rewrite He in H.
      rewrite Q, H, map_app, !app_nil_r. reflexivity.
    - exists msgs. unfold reported in *. rewrite latch_exc, latch_queue.
      rewrite He in H.
      pose proof (parse_frame_queue_value r data) as Q. rewrite Hp in Q.
      cbn [parsed_reader] in Q. rewrite Q, H, app_nil_r. reflexivity. }
  apply (feed_all_invariant P Step). exists []. reflexivity.
Qed.

(** X20. The flag a call of [feed_data] returns tells whether the reader is
    latched when the call ends: it is [True] exactly when the reader holds
    an error, the one it had or the one this call has raised. *)
Theorem closed_flag_tells_latched {RT : Runtime} (r : Reader)
  (data : bytes) :
  fst (fst (feed_data r data)) = true
  <-> _exc (snd (feed_data r data)) <> None.
Proof.
  destruct (feed_data_cases r data)
    as [(e & He & ->)
       |[(He & frames & rS & Hp & [(r1 & Hh & ->)|(e & r1 & Hh & ->)])
        |(He & e & rS & Hp & ->)]]; cbn [fst snd EMPTY_FRAME
                                                EMPTY_FRAME_ERROR].
  - rewrite He. split; [discriminate|reflexivity].
  - destruct (feed_data_done r rS r1 data frames He Hp Hh) as (E & _).
    rewrite E. split; [discriminate|intros N; exfalso; apply N; reflexivity].
  - rewrite latch_exc. split; [discriminate|reflexivity].
  - rewrite latch_exc. split; [discriminate|reflexivity].
Qed.

(** X13. An empty chunk changes nothing. Fed to a reader after any call of
    [feed_data], or to a new reader, [b""] delivers nothing, raises nothing,
    leaves every attribute as it is, and returns the flag the call before it
    returned. *)
Theorem empty_chunk_is_noop {RT : Runtime} (r : Reader) (data : bytes)
  (q : DataQueue bytes) (max_msg_size : Z) (compress : bool) :
  feed_data (snd (feed_data r data)) []
  = ((fst (fst (feed_data r data)), []), snd (feed_data r data))
  /\ feed_data (init q max_msg_size compress) []
     = ((false, []), init q max_msg_size compress).
Proof.
  split; [|reflexivity].
  destruct (feed_data_cases r data)
    as [(e & He & ->)
       |[(He & frames & rS & Hp & [(r1 & Hh & ->)|(e & r1 & Hh & ->)])
        |(He & e & rS & Hp & ->)]]; cbn [fst snd EMPTY_FRAME
                                                EMPTY_FRAME_ERROR].
  - apply (feed_data_latched r [] e He).
  - destruct (feed_data_done r rS r1 data frames He Hp Hh) as (E & S & _).
    rewrite (feed_data_unlatched r1 [] E). unfold _feed_data.
    unfold settled in S. rewrite S. reflexivity.
  - apply (feed_data_latched _ [] e (latch_exc e r1)).
  - apply (feed_data_latched _ [] e (latch_exc e rS)).
Qed.

(** ** Without compression *)

Section Plain.

Context {RT : Runtime}.

Ltac split_all :=
  repeat first
    [ progress cbv beta iota zeta
    | match goal with
      | |- context [if ?c then _ else _] => destruct c eqn:?
      | |- context [match ?c with Some _ => _ | None => _ end] =>
          destruct c eqn:?
      | |- context [match ?c with [] => _ | _ :: _ => _ end] => destruct c
      end ].

Ltac plain_leaf :=
  unfold plain in *; reader_cbv;
  repeat match goal with
         | H : _ /\ _ |- _ => destruct H
         end;
  repeat split; try assumption; try reflexivity; try discriminate.

Lemma read_header_plain (r : Reader) buf :
  plain r ->
  match read_header r buf with
  | Next _ r' _ => plain r'
  | Break r' _ => plain r'
  | Throw e r' => plain r' /\ e <> zlib_error
  end.
Proof.
  intros P. unfold read_header.
  destruct r as [q mx ex pa st op ff fo fp tl hm fm pl plf cp dobj cmp].
  reader_cbv.
  destruct (state_eqb st READ_HEADER); [|exact P].
  destruct buf as [|b0 [|b1 rest]]; [exact P|exact P|].
  cbv zeta. destruct P as (P1 & P2 & P3). reader_cbv. subst cmp.
  destruct (truthy (Z.land (Z.shiftr (byte_val b0) 6) 1)) eqn:R1.
  - cbn [negb andb]. rewrite orb_true_r. plain_leaf.
  - cbn [negb andb]. split_all; plain_leaf.
Qed.

Lemma read_payload_length_plain (r : Reader) buf :
  plain r ->
  match read_payload_length r buf with
  | Next _ r' _ => plain r'
  | Break r' _ => plain r'
  | Throw e r' => plain r' /\ e <> zlib_error
  end.
Proof.
  intros P. unfold read_payload_length.
  destruct r as [q mx ex pa st op ff fo fp tl hm fm pl plf cp dobj cmp].
  reader_cbv.
  split_all; plain_leaf.
Qed.

Lemma read_payload_mask_plain (r : Reader) buf :
  plain r ->
  match read_payload_mask r buf with
  | Next _ r' _ => plain r'
  | Break r' _ => plain r'
  | Throw e r' => plain r' /\ e <> zlib_error
  end.
Proof.
  intros P. unfold read_payload_mask.
  destruct r as [q mx ex pa st op ff fo fp tl hm fm pl plf cp dobj cmp].
  reader_cbv.
  split_all; plain_leaf.
Qed.

Lemma read_payload_plain (r : Reader) buf :
  plain r ->
  match read_payload r buf with
  | Next f r' _ =>
      plain r'
      /\ match f with
         | Some f => f_compressed f <> Some true
         | None => True
         end
  | Break r' _ => plain r'
  | Throw e r' => plain r' /\ e <> zlib_error
  end.
Proof.
  intros P. unfold read_payload.
  destruct r as [q mx ex pa st op ff fo fp tl hm fm pl plf cp dobj cmp].
  reader_cbv.
  destruct (state_eqb st READ_PAYLOAD); [|split; [exact P|exact I]].
  destruct (pl >=? len buf); reader_cbv;
    (destruct (negb _); [exact P|]);
    (destruct hm;
     [destruct fm as [mask|]|]); plain_leaf.
Qed.

Lemma parse_pass_plain (r : Reader) buf :
  plain r ->
  match parse_pass r buf with
  | Next f r' _ =>
      plain r'
      /\ match f with
         | Some f => f_compressed f <> Some true
         | None => True
         end
  | Break r' _ => plain r'
  | Throw e r' => plain r' /\ e <> zlib_error
  end.
Proof.
  intros C. unfold parse_pass.
  pose proof (read_header_plain r buf C) as H1.
  destruct (read_header r buf) as [u1 r1 buf1|r1 buf1|e r1];
    cbn [flow_bind]; [|exact H1..].
  pose proof (read_payload_length_plain r1 buf1 H1) as H2.
  destruct (read_payload_length r1 buf1) as [u2 r2 buf2|r2 buf2|e r2];
    cbn [flow_bind]; [|exact H2..].
  pose proof (read_payload_mask_plain r2 buf2 H2) as H3.
  destruct (read_payload_mask r2 buf2) as [u3 r3 buf3|r3 buf3|e r3];
    cbn [flow_bind]; [|exact H3..].
  apply (read_payload_plain r3 buf3 H3).
Qed.

Lemma parse_loop_plain (fuel : nat) :
  forall (r : Reader) buf frames x,
    plain r ->
    Forall (fun f => f_compressed f <> Some true) frames ->
    parse_loop fuel r buf frames = Some x ->
    match x with
    | Frames fs r' =>
        plain r' /\ Forall (fun f => f_compressed f <> Some true) fs
    | ParseError e r' => plain r' /\ e <> zlib_error
    end.
Proof.
  induction fuel as [|fuel IH]; intros r buf frames x C F H; [discriminate|].
  cbn [parse_loop] in H. pose proof (parse_pass_plain r buf C) as P.
  destruct (parse_pass r buf) as [f r1 buf1|r1 buf1|e r1].
  - destruct P as [P1 P2]. apply (IH _ _ _ _ P1) in H; [exact H|].
    destruct f as [f|]; cbn [add_frame]; [|exact F].
    apply Forall_app. split; [exact F|]. constructor; [exact P2|constructor].
  - injection H as <-. split; [destruct r1; exact P|exact F].
  - injection H as <-. exact P.
Qed.

Lemma parse_frame_plain (r : Reader) buf :
  plain r ->
  match parse_frame r buf with
  | Frames fs r' =>
      plain r' /\ Forall (fun f => f_compressed f <> Some true) fs
  | ParseError e r' => plain r' /\ e <> zlib_error
  end.
Proof.
  intros C. destruct (parse_frame_parses r buf) as [fuel H].
  apply (parse_loop_plain fuel _ _ _ (parse_frame r buf)) in H;
    [exact H| |constructor].
  destruct r. exact C.
Qed.

(** A frame that is not marked compressed is handled without the
    inflater. *)
Lemma merge_payload_plain (r : Reader) compressed payload :
  compressed <> Some true ->
  merge_payload compressed payload r = (inr payload, r).
Proof.
  intros H. unfold merge_payload.
  destruct compressed as [[|]|]; [congruence|reflexivity..].
Qed.

Lemma deliver_data_inflater (r : Reader) opcode payload :
  _decompressobj (result_reader (deliver_data opcode payload r))
  = _decompressobj r
  /\ match deliver_data opcode payload r with
     | Raised e _ => e <> zlib_error
     | Done _ => True
     end.
Proof.
  unfold deliver_data. destruct (opcode =? OP_CODE_TEXT).
  - destruct (utf8_decode payload); destruct r; cbn; split; auto;
      discriminate.
  - destruct r; cbn; auto.
Qed.

Lemma handle_close_inflater (r : Reader) fin opcode payload :
  _decompressobj (result_reader (handle_close fin opcode payload r))
  = _decompressobj r
  /\ match handle_close fin opcode payload r with
     | Raised e _ => e <> zlib_error
     | Done _ => True
     end.
Proof.
  unfold handle_close. destruct (len payload >=? 2).
  - cbv zeta. destruct (_ && _); [cbn; split; [auto|discriminate]|].
    destruct (utf8_decode _); destruct r; cbn; split; auto; discriminate.
  - destruct (nonempty payload); destruct r; cbn; split; auto; discriminate.
Qed.

Lemma finish_message_plain (r : Reader) opcode cont payload compressed :
  compressed <> Some true ->
  _decompressobj
    (result_reader (finish_message r opcode cont payload compressed))
  = _decompressobj r
  /\ match finish_message r opcode cont payload compressed with
     | Raised e _ => e <> zlib_error
     | Done _ => True
     end.
Proof.
  intros Hc.
  assert (Size : forall (r0 : Reader) op assembled,
             _decompressobj r0 = _decompressobj r ->
             let x :=
               if truthy (_max_msg_size r0)
                  && (len assembled >=? _max_msg_size r0)
               then Raised
                      (message_too_big (len assembled) (_max_msg_size r0)) r0
               else
                 match merge_payload compressed assembled r0 with
                 | (inl e, r) => Raised e r
                 | (inr payload_merged, r) =>
                     deliver_data op payload_merged r
                 end in
             _decompressobj (result_reader x) = _decompressobj r
             /\ match x with
                | Raised e _ => e <> zlib_error
                | Done _ => True
                end).
  { intros r0 op assembled E. cbv zeta.
    destruct (truthy (_max_msg_size r0) && _);
      [cbn; split; [exact E|discriminate]|].
    rewrite (merge_payload_plain r0 compressed assembled Hc).
    destruct (deliver_data_inflater r0 op assembled) as [D1 D2].
    split; [congruence|exact D2]. }
  unfold finish_message. destruct cont.
  - destruct (_opcode r) as [op|]; [|cbn; split; [auto|discriminate]].
    destruct (nonempty (_partial r)); apply Size; destruct r; reflexivity.
  - destruct (nonempty (_partial r)); [cbn; split; [auto|discriminate]|].
    apply Size; reflexivity.
Qed.

Lemma handle_frame_plain (r : Reader) frame :
  f_compressed frame <> Some true ->
  _decompressobj (result_reader (handle_frame r frame)) = _decompressobj r
  /\ match handle_frame r frame with
     | Raised e _ => e <> zlib_error
     | Done _ => True
     end.
Proof.
  intros Hc. unfold handle_frame.
  destruct (f_opcode frame) as [opcode|]; [|cbn; split; [auto|discriminate]].
  destruct ((opcode =? OP_CODE_TEXT) || (opcode =? OP_CODE_BINARY)
            || (opcode =? OP_CODE_CONTINUATION)).
  - destruct (negb (f_fin frame)); [|apply finish_message_plain, Hc].
    cbv zeta. destruct (truthy _ && _);
      destruct (negb (opcode =? OP_CODE_CONTINUATION)); destruct r; cbn;
        split; auto; discriminate.
  - destruct (opcode =? OP_CODE_CLOSE); [apply handle_close_inflater|].
    destruct (opcode =? OP_CODE_PING); [destruct r; cbn; auto|].
    destruct (opcode =? OP_CODE_PONG); destruct r; cbn; split; auto;
      discriminate.
Qed.

Lemma handle_frames_plain (frames : list (Frame bytes)) :
  forall r : Reader,
    Forall (fun f => f_compressed f <> Some true) frames ->
    _decompressobj (result_reader (handle_frames r frames))
    = _decompressobj r
    /\ match handle_frames r frames with
       | Raised e _ => e <> zlib_error
       | Done _ => True
       end.
Proof.
  induction frames as [|f frames IH]; intros r F; [cbn; auto|].
  inversion F as [|f' fs' F1 F2]; subst. cbn [handle_frames].
  destruct (handle_frame_plain r f F1) as [H1 H2].
  destruct (handle_frame r f) as [r1|e r1]; cbn [result_reader] in *.
  - destruct (IH r1 F2) as [H3 H4]. split; [congruence|exact H4].
  - split; [exact H1|exact H2].
Qed.

Lemma plain_graft (a b : Reader) :
  plain a -> _decompressobj b = None -> plain (graft a b).
Proof. destruct a, b. unfold plain. cbn. tauto. Qed.

Lemma plain_latch (e : exn) (r : Reader) : plain r -> plain (latch e r).
Proof. destruct r. exact (fun H => H). Qed.

End Plain.

(** X8. A reader made with [compress=False] never marks a frame compressed,
    never makes an inflater and never inflates, whatever it is fed: a frame
    with RSV1 set is refused by the header block, and no exception of the
    inflater is ever latched. *)
Theorem no_inflater_without_compression {RT : Runtime}
  (q : DataQueue bytes) (max_msg_size : Z) (chunks : list bytes) :
  let r := snd (feed_all (init q max_msg_size false) chunks) in
  _decompressobj r = None /\ _compressed r <> Some true
  /\ _exc r <> Some zlib_error.
Proof.
  cbv zeta.
  set (P := fun r : Reader => plain r /\ _exc r <> Some zlib_error).
  assert (Step : forall r data, P r -> P (snd (feed_data r data))).
  { intros r data [H1 H2]. unfold P.
    pose proof (parse_frame_plain r data H1) as PP.
    destruct (feed_data_cases r data)
      as [(e & He & ->)
         |[(He & frames & rS & Hp & [(r1 & Hh & ->)|(e & r1 & Hh & ->)])
          |(He & e & rS & Hp & ->)]]; cbn [snd]; rewrite ?Hp in PP.
    - split; assumption.
    - destruct PP as [PS PF].
      destruct (handle_frames_plain frames rS PF) as [D _].
      pose proof (handle_frames_keeps rS frames) as K.
      pose proof (handle_frames_exc frames rS) as E1.
      pose proof (parse_frame_exc r data) as E2.
      rewrite Hh in D, K, E1. rewrite Hp in E2.
      cbn [result_reader parsed_reader] in *. split.
      + rewrite K. apply plain_graft; [exact PS|].
        rewrite D. apply PS.
      + congruence.
    - destruct PP as [PS PF].
      destruct (handle_frames_plain frames rS PF) as [D N].
      pose proof (handle_frames_keeps rS frames) as K.
      rewrite Hh in D, K, N. cbn [result_reader] in *. split.
      + apply plain_latch. rewrite K. apply plain_graft; [exact PS|].
        rewrite D. apply PS.
      + rewrite latch_exc. congruence.
    - destruct PP as [PS N]. split; [apply plain_latch, PS|].
      rewrite latch_exc. congruence. }
  assert (H : P (snd (feed_all (init q max_msg_size false) chunks))).
  { apply (feed_all_invariant P Step). split; [|discriminate].
    repeat split. discriminate. }
  destruct H as [(_ & H1 & H2) H3]. auto.
Qed.

(** ** The queue is only written *)

Section WriteOnly.

Context {RT : Runtime}.

Lemma parse_frame_requeue (q : DataQueue bytes) (r : Reader) data :
  parse_frame (requeue q r) data
  = parsed_map (requeue q) (parse_frame r data).
Proof.
  replace (requeue q r) with (graft r (requeue q r)) at 1
    by (destruct r; reflexivity).
  rewrite parse_frame_graft. pose proof (parse_frame_keeps r data) as K.
  destruct (parse_frame r data) as [frames rS|e rS];
    cbn [parsed_map parsed_reader] in *; f_equal; rewrite K at 2;
      destruct rS, r; reflexivity.
Qed.

Lemma latch_requeue (q : DataQueue bytes) (e : exn) (r : Reader) :
  latch e (requeue q r) = requeue q (latch e r).
Proof.
  destruct r. unfold latch, requeue, set_exception. cbn.
  rewrite app_assoc. reflexivity.
Qed.

Lemma feed_data_requeue (q : DataQueue bytes) (r : Reader) data :
  feed_data (requeue q r) data
  = (fst (feed_data r data), requeue q (snd (feed_data r data))).
Proof.
  assert (E : _exc (requeue q r) = _exc r) by (destruct r; reflexivity).
  destruct (feed_data_cases r data)
    as [(e & He & ->)
       |[(He & frames & rS & Hp & [(r1 & Hh & ->)|(e & r1 & Hh & ->)])
        |(He & e & rS & Hp & ->)]]; cbn [fst snd].
  - apply (feed_data_latched _ data e). congruence.
  - rewrite feed_data_unlatched by congruence. unfold _feed_data.
    rewrite parse_frame_requeue, Hp. cbn [parsed_map].
    rewrite handle_frames_requeue, Hh. reflexivity.
  - rewrite feed_data_unlatched by congruence. unfold _feed_data.
    rewrite parse_frame_requeue, Hp. cbn [parsed_map].
    rewrite handle_frames_requeue, Hh. cbn [result_map].
    rewrite latch_requeue. reflexivity.
  - rewrite feed_data_unlatched by congruence. unfold _feed_data.
    rewrite parse_frame_requeue, Hp. cbn [parsed_map].
    rewrite latch_requeue. reflexivity.
Qed.

Lemma requeue_own_queue (r : Reader) : requeue (queue r) (set_queue [] r) = r.
Proof. destruct r. unfold requeue. cbn. rewrite app_nil_r. reflexivity. Qed.

End WriteOnly.

(** X10. The reader never reads its queue and only adds to it: with other
    calls already on the queue, [feed_data] returns the same result and
    leaves the same reader, with the calls it makes after the ones that were
    there. *)
Theorem queue_is_write_only {RT : Runtime} (q : DataQueue bytes)
  (r : Reader) (data : bytes) :
  feed_data (requeue q r) data
  = (fst (feed_data r data), requeue q (snd (feed_data r data)))
  /\ exists calls, queue (snd (feed_data r data)) = queue r ++ calls.
Proof.
  split; [apply feed_data_requeue|].
  pose proof (feed_data_requeue (queue r) (set_queue [] r) data) as H.
  rewrite requeue_own_queue in H. rewrite H. cbn [snd].
  exists (queue (snd (feed_data (set_queue [] r) data))).
  destruct (snd (feed_data (set_queue [] r) data)). reflexivity.
Qed.

(** X11. [feed_eof] passes the end of the stream on to the queue and does
    nothing to the reader: it neither latches it nor stops it, and a call of
    [feed_data] after it returns what it returns without it and makes the
    same calls on the queue, after the [feed_eof] call. *)
Theorem feed_eof_does_not_stop_reader {RT : Runtime} (r : Reader)
  (data : bytes) :
  exists calls,
    queue (snd (feed_data r data)) = queue r ++ calls
    /\ feed_data (feed_eof r) data
       = (fst (feed_data r data),
          set_queue (queue r ++ q_feed_eof :: calls)
            (snd (feed_data r data))).
Proof.
  pose proof (feed_data_requeue (queue r) (set_queue [] r) data) as H.
  rewrite requeue_own_queue in H.
  pose proof (feed_data_requeue (queue r ++ [q_feed_eof]) (set_queue [] r)
                data) as H2.
  replace (requeue (queue r ++ [q_feed_eof]) (set_queue [] r))
    with (feed_eof r) in H2
    by (destruct r; unfold requeue, feed_eof; cbn; rewrite app_nil_r;
        reflexivity).
  rewrite H, H2. cbn [fst snd].
  exists (queue (snd (feed_data (set_queue [] r) data))).
  destruct (snd (feed_data (set_queue [] r) data)). unfold requeue. cbn.
  rewrite <- app_assoc. split; reflexivity.
Qed.

(** ** The end of a message *)

Section MessageEnd.

Context {RT : Runtime}.

Lemma merge_payload_assembly (r : Reader) compressed payload :
  _partial (snd (merge_payload compressed payload r)) = _partial r
  /\ _opcode (snd (merge_payload compressed payload r)) = _opcode r.
Proof.
  unfold merge_payload. destruct (opt_truthy compressed); [|auto].
  destruct (decompress_sync _ _ _) as [[[d p] u]|].
  - destruct (nonempty u); destruct r; cbn; auto.
  - destruct r; cbn; auto.
Qed.

Lemma deliver_data_assembly (r : Reader) opcode payload :
  _partial (result_reader (deliver_data opcode payload r)) = _partial r
  /\ _opcode (result_reader (deliver_data opcode payload r)) = _opcode r.
Proof.
  unfold deliver_data. destruct (opcode =? OP_CODE_TEXT).
  - destruct (utf8_decode payload); destruct r; cbn; auto.
  - destruct r; cbn; auto.
Qed.

Lemma finish_message_assembly (r : Reader) opcode cont payload compressed :
  match finish_message r opcode cont payload compressed with
  | Done r' =>
      _partial r' = []
      /\ (if cont then _opcode r <> None /\ _opcode r' = None
          else _partial r = [] /\ _opcode r' = _opcode r)
  | Raised _ _ => True
  end.
Proof.
  assert (Size : forall (r0 : Reader) op assembled,
             match
               if truthy (_max_msg_size r0)
                  && (len assembled >=? _max_msg_size r0)
               then Raised
                      (message_too_big (len assembled) (_max_msg_size r0)) r0
               else
                 match merge_payload compressed assembled r0 with
                 | (inl e, r) => Raised e r
                 | (inr payload_merged, r) =>
                     deliver_data op payload_merged r
                 end
             with
             | Done r' => _partial r' = _partial r0 /\ _opcode r' = _opcode r0
             | Raised _ _ => True
             end).
  { intros r0 op assembled.
    destruct (truthy (_max_msg_size r0) && _); [exact I|].
    pose proof (merge_payload_assembly r0 compressed assembled) as [M1 M2].
    destruct (merge_payload compressed assembled r0) as [[e|p] r1];
      cbn [fst snd] in *; [exact I|].
    pose proof (deliver_data_assembly r1 op p) as [D1 D2].
    destruct (deliver_data op p r1) as [r2|e r2]; [|exact I].
    cbn [result_reader] in *. split; congruence. }
  unfold finish_message. destruct cont.
  - destruct (_opcode r) as [op|] eqn:Ho; [|exact I].
    destruct (nonempty (_partial r)) eqn:Hp.
    + pose proof (Size (set__partial [] (set__opcode None r)) op
                    (_partial (set__opcode None r) ++ payload)) as S.
      destruct (if truthy _ && _ then _ else _) as [r'|e r']; [|exact I].
      destruct S as [S1 S2]. rewrite S1, S2.
      repeat split; try discriminate; destruct r; reflexivity.
    + pose proof (Size (set__opcode None r) op payload) as S.
      destruct (if truthy _ && _ then _ else _) as [r'|e r']; [|exact I].
      destruct S as [S1 S2]. rewrite S1, S2.
      apply nonempty_false in Hp.
      repeat split; try discriminate; destruct r; cbn in *; auto.
  - destruct (nonempty (_partial r)) eqn:Hp; [exact I|].
    pose proof (Size r opcode payload) as S.
    destruct (if truthy _ && _ then _ else _) as [r'|e r']; [|exact I].
    destruct S as [S1 S2]. apply nonempty_false in Hp.
    repeat split; congruence.
Qed.

End MessageEnd.

(** X15. A final data frame that is handled without error ends the message:
    it puts one message on the queue and leaves no data of it in [_partial];
    a final continuation frame needs a recorded opcode and clears it, and a
    final text or binary frame is only handled so when no message is in
    progress. *)
Theorem final_data_frame_ends_message {RT : Runtime} (r r' : Reader)
  (opcode : Z) (payload : bytes) (compressed : option bool) :
  opcode = OP_CODE_CONTINUATION \/ opcode = OP_CODE_TEXT
  \/ opcode = OP_CODE_BINARY ->
  handle_frame r (mkFrame true (Some opcode) payload compressed) = Done r' ->
  _partial r' = []
  /\ (exists msg, queue r' = queue r ++ [q_feed_data msg])
  /\ (if opcode =? OP_CODE_CONTINUATION
      then _opcode r <> None /\ _opcode r' = None
      else _partial r = [] /\ _opcode r' = _opcode r).
Proof.
  intros Hop H. rewrite (handle_fin_data_frame r opcode payload compressed Hop)
    in H.
  pose proof (finish_message_assembly r opcode
                (opcode =? OP_CODE_CONTINUATION) payload compressed) as A.
  pose proof (finish_message_effect r opcode
                (opcode =? OP_CODE_CONTINUATION) payload compressed) as E.
  rewrite H in A, E. destruct A as [A1 A2]. auto.
Qed.

Section ConcreteMessageEnd.

#[local] Existing Instance py_runtime.

Lemma final_data_frame_ends_message_witness :
  (OP_CODE_TEXT = OP_CODE_CONTINUATION \/ OP_CODE_TEXT = OP_CODE_TEXT
   \/ OP_CODE_TEXT = OP_CODE_BINARY)
  /\ handle_frame (init [] 0 true)
       (mkFrame true (Some OP_CODE_TEXT) [x48; x69] (Some false))
     = Done
         (_queue_feed_data (WSMessageText "Hi" EmptyString) (init [] 0 true))
  /\ _partial
       (_queue_feed_data (WSMessageText "Hi" EmptyString) (init [] 0 true))
     = []
  /\ (exists msg,
         queue
           (_queue_feed_data (WSMessageText "Hi" EmptyString)
              (init [] 0 true))
         = queue (init [] 0 true) ++ [q_feed_data msg])
  /\ (if OP_CODE_TEXT =? OP_CODE_CONTINUATION
      then _opcode (init [] 0 true) <> None
           /\ _opcode
                (_queue_feed_data (WSMessageText "Hi" EmptyString)
                   (init [] 0 true)) = None
      else _partial (init [] 0 true) = []
           /\ _opcode
                (_queue_feed_data (WSMessageText "Hi" EmptyString)
                   (init [] 0 true))
              = _opcode (init [] 0 true)).
Proof.
  assert (O : OP_CODE_TEXT = OP_CODE_CONTINUATION \/ OP_CODE_TEXT = OP_CODE_TEXT
              \/ OP_CODE_TEXT = OP_CODE_BINARY) by (right; left; reflexivity).
  assert (H : handle_frame (init [] 0 true)
                (mkFrame true (Some OP_CODE_TEXT) [x48; x69] (Some false))
              = Done
                  (_queue_feed_data (WSMessageText "Hi" EmptyString)
                     (init [] 0 true)))
    by (vm_compute; reflexivity).
  split; [exact O|]. split; [exact H|].
  exact (@final_data_frame_ends_message py_runtime _ _ _ _ _ O H).
Defined.

End ConcreteMessageEnd.

(** ** From the wire to the queue *)

Section EndToEnd.

Context {RT : Runtime}.

Lemma idle_init (max_msg_size : Z) (compress : bool) :
  idle (init [] max_msg_size compress).
Proof. repeat split; discriminate. Qed.

(** A stream of frames that are not compressed, cut into chunks in any
    way and fed to a new reader: what the queue and the latch hold is
    what the handling of the frames gives. *)
Lemma feed_frames_done (max_msg_size : Z) (compress : bool)
  (chunks : list bytes) (ws : list WireFrame) (r1 : Reader) :
  Forall wire_ok ws ->
  List.concat chunks = encode_frames ws ->
  handle_frames (init [] max_msg_size compress) (map raw_frame ws)
  = Done r1 ->
  observe (snd (feed_all (init [] max_msg_size compress) chunks))
  = (queue r1, None).
Proof.
  intros W Hc Hh. set (r0 := init [] max_msg_size compress) in *.
  destruct (parse_frame_encode ws r0 (idle_init _ _) W) as (ri & Pi & _).
  rewrite <- Hc in Pi.
  rewrite (feed_all_single chunks r0 _ ri (settled_init _ _ _) Pi).
  rewrite (feed_data_frames r0 ri r1 _ _ (eq_refl : _exc r0 = None) Pi Hh).
  cbn [snd]. rewrite graft_observe. unfold observe.
  pose proof (handle_frames_exc (map raw_frame ws) r0) as E.
  rewrite Hh in E. cbn [result_reader] in E. rewrite E. reflexivity.
Qed.

Lemma feed_frames_raised (max_msg_size : Z) (compress : bool)
  (chunks : list bytes) (ws : list WireFrame) (e : exn) (r1 : Reader) :
  Forall wire_ok ws ->
  List.concat chunks = encode_frames ws ->
  handle_frames (init [] max_msg_size compress) (map raw_frame ws)
  = Raised e r1 ->
  observe (snd (feed_all (init [] max_msg_size compress) chunks))
  = (queue r1 ++ [q_set_exception e], Some e).
Proof.
  intros W Hc Hh. set (r0 := init [] max_msg_size compress) in *.
  destruct (parse_frame_encode ws r0 (idle_init _ _) W) as (ri & Pi & _).
  rewrite <- Hc in Pi.
  rewrite (feed_all_single chunks r0 _ ri (settled_init _ _ _) Pi).
  rewrite (feed_data_unlatched r0 _ (eq_refl : _exc r0 = None)).
  unfold _feed_data. rewrite Pi.
  pose proof (parse_frame_keeps r0 (List.concat chunks)) as K.
  rewrite Pi in K. cbn [parsed_reader] in K. rewrite K.
  rewrite handle_frames_graft, Hh. cbn [result_map snd].
  rewrite latch_observe. destruct ri, r1; reflexivity.
Qed.

Lemma unknown_opcode_raises (r : Reader) (f : Frame bytes) (opcode : Z) :
  f_opcode f = Some opcode ->
  unknown_opcode opcode = true ->
  handle_frame r f
  = Raised (protocol_error (Msg_unexpected_opcode (Some opcode))) r.
Proof.
  intros Ho Hu. unfold handle_frame. rewrite Ho. unfold unknown_opcode in Hu.
  destruct (opcode =? OP_CODE_CONTINUATION); [discriminate|].
  destruct (opcode =? OP_CODE_TEXT); [discriminate|].
  destruct (opcode =? OP_CODE_BINARY); [discriminate|].
  destruct (opcode =? OP_CODE_CLOSE); [discriminate|].
  destruct (opcode =? OP_CODE_PING); [discriminate|].
  destruct (opcode =? OP_CODE_PONG); [discriminate|].
  reflexivity.
Qed.

End EndToEnd.

(** X14. A frame with an opcode the reader does not know (3 to 7, 11 to 15),
    whatever its fin bit, its masking and its payload, and however it is cut
    into chunks: the header block accepts it, the reader takes in its whole
    payload, and then latches the protocol error "Unexpected opcode" and
    delivers nothing. *)
Theorem unknown_opcode_is_refused {RT : Runtime} (max_msg_size : Z)
  (compress : bool) (w : WireFrame) (chunks : list bytes) :
  wire_ok w ->
  unknown_opcode (w_opcode w) = true ->
  List.concat chunks = encode_frame w ->
  observe (snd (feed_all (init [] max_msg_size compress) chunks))
  = ([q_set_exception
        (protocol_error (Msg_unexpected_opcode (Some (w_opcode w))))],
     Some (protocol_error (Msg_unexpected_opcode (Some (w_opcode w))))).
Proof.
  intros W Hu Hc.
  apply (feed_frames_raised max_msg_size compress chunks [w] _
           (init [] max_msg_size compress)).
  - constructor; [exact W|constructor].
  - rewrite encode_frames_one. exact Hc.
  - cbn [map handle_frames].
    rewrite (unknown_opcode_raises _ (raw_frame w) (w_opcode w) eq_refl Hu).
    reflexivity.
Qed.

(** X17. A ping or a pong is delivered with its payload as it is, whatever
    the size limit of the reader: the limit is for data messages, and a
    control frame with a payload of [max_msg_size] bytes or more is
    delivered. This holds however the frame is masked and cut into chunks. *)
Theorem ping_pong_delivery {RT : Runtime} (max_msg_size : Z)
  (compress : bool) (opcode : Z)
  (mask : option (byte * byte * byte * byte)) (payload : bytes)
  (chunks : list bytes) :
  opcode = OP_CODE_PING \/ opcode = OP_CODE_PONG ->
  len payload <= 125 ->
  List.concat chunks = encode_frame (mkWire true false opcode mask payload) ->
  observe (snd (feed_all (init [] max_msg_size compress) chunks))
  = ([q_feed_data
        (if opcode =? OP_CODE_PING then WSMessagePing payload EmptyString
         else WSMessagePong payload EmptyString)],
     None).
Proof.
  intros Hop Hl Hc.
  set (msg := if opcode =? OP_CODE_PING then WSMessagePing payload EmptyString
              else WSMessagePong payload EmptyString).
  apply (feed_frames_done max_msg_size compress chunks
           [mkWire true false opcode mask payload]
           (_queue_feed_data msg (init [] max_msg_size compress))).
  - constructor; [|constructor]. unfold wire_ok. cbn.
    unfold OP_CODE_PING, OP_CODE_PONG in Hop.
    pose proof (len_nonneg payload). repeat split; try lia; auto.
  - rewrite encode_frames_one. exact Hc.
  - subst msg. destruct Hop as [-> | ->]; reflexivity.
Qed.

(** X16. A text or binary message that is not compressed, in one frame or in
    any number of fragments, each masked or not, and cut into chunks in any
    way, with a payload below the size limit: a new reader delivers one
    message. A binary message holds the payloads of the fragments one after
    the other; a text message is their UTF-8 decoding, made on the whole
    payload, so that a character may be split between two fragments; when
    the payload is not UTF-8 the reader delivers nothing and latches
    INVALID_TEXT. *)
Theorem data_message_delivery {RT : Runtime} (max_msg_size : Z)
  (compress : bool) (opcode : Z) (first : piece) (more : list piece)
  (chunks : list bytes) :
  opcode = OP_CODE_TEXT \/ opcode = OP_CODE_BINARY ->
  Forall (fun p => len (snd p) < 2 ^ 64) (first :: more) ->
  truthy max_msg_size
  && (len (message_payload first more) >=? max_msg_size) = false ->
  List.concat chunks = encode_frames (data_message opcode first more) ->
  observe (snd (feed_all (init [] max_msg_size compress) chunks))
  = if opcode =? OP_CODE_TEXT then
      match utf8_decode (message_payload first more) with
      | Some text => ([q_feed_data (WSMessageText text EmptyString)], None)
      | None => ([q_set_exception invalid_text], Some invalid_text)
      end
    else
      ([q_feed_data
          (WSMessageBinary (message_payload first more) EmptyString)],
       None).
Proof.
  intros Hop Hp Hs Hc.
  set (r0 := init [] max_msg_size compress).
  inversion Hp as [|p ps Hfirst Hmore]; subst p ps.
  assert (W : Forall wire_ok (data_message opcode first more)).
  { unfold data_message. destruct more as [|p ps].
    - constructor; [|constructor]. apply fragment_ok; tauto.
    - constructor; [apply fragment_ok; tauto|].
      apply continuations_ok. exact Hmore. }
  destruct (handle_data_message r0 opcode first more Hop eq_refl) as [H _].
  cbv zeta in H. specialize (H Hs).
  replace (set__partial []
             match more with
             | [] => r0
             | _ :: _ => set__opcode None r0
             end) with r0 in H by (destruct more; reflexivity).
  unfold deliver_data in H.
  destruct (opcode =? OP_CODE_TEXT).
  - destruct (utf8_decode (message_payload first more)) as [text|].
    + apply (feed_frames_done max_msg_size compress chunks _ _ W Hc H).
    + apply (feed_frames_raised max_msg_size compress chunks _ _ _ W Hc H).
  - apply (feed_frames_done max_msg_size compress chunks _ _ W Hc H).
Qed.

Section ConcreteEndToEnd.

#[local] Existing Instance py_runtime.

Lemma unknown_opcode_is_refused_witness :
  wire_ok (mkWire true false 3 None [x01; x02])
  /\ unknown_opcode 3 = true
  /\ List.concat [[x83]; [x02; x01]; [x02]]
     = encode_frame (mkWire true false 3 None [x01; x02])
  /\ observe (snd (feed_all (init [] 0 true) [[x83]; [x02; x01]; [x02]]))
     = ([q_set_exception
           (protocol_error (Msg_unexpected_opcode (Some 3)))],
        Some (protocol_error (Msg_unexpected_opcode (Some 3)))).
Proof.
  assert (W : wire_ok (mkWire true false 3 None [x01; x02]))
    by (unfold wire_ok; cbn; repeat split; try lia; reflexivity).
  split; [exact W|]. split; [reflexivity|]. split; [reflexivity|].
  exact (@unknown_opcode_is_refused py_runtime 0 true
           (mkWire true false 3 None [x01; x02])
           [[x83]; [x02; x01]; [x02]] W eq_refl eq_refl).
Defined.

Lemma ping_pong_delivery_witness :
  (OP_CODE_PING = OP_CODE_PING \/ OP_CODE_PING = OP_CODE_PONG)
  /\ len [x61; x62; x63] <= 125
  /\ List.concat [[x89; x03; x61]; [x62; x63]]
     = encode_frame (mkWire true false OP_CODE_PING None [x61; x62; x63])
  /\ observe (snd (feed_all (init [] 2 true) [[x89; x03; x61]; [x62; x63]]))
     = ([q_feed_data (WSMessagePing [x61; x62; x63] EmptyString)], None).
Proof.
  assert (L : len [x61; x62; x63] <= 125) by (cbn; lia).
  split; [left; reflexivity|]. split; [exact L|]. split; [reflexivity|].
  exact (@ping_pong_delivery py_runtime 2 true OP_CODE_PING None
           [x61; x62; x63] [[x89; x03; x61]; [x62; x63]]
           (or_introl eq_refl) L eq_refl).
Defined.

Lemma data_message_delivery_witness :
  (OP_CODE_TEXT = OP_CODE_TEXT \/ OP_CODE_TEXT = OP_CODE_BINARY)
  /\ Forall (fun p : piece => len (snd p) < 2 ^ 64)
       [(None, [x48; xc3]); (None, [xa9])]
  /\ truthy 4
     && (len (message_payload (None, [x48; xc3]) [(None, [xa9])]) >=? 4)
     = false
  /\ List.concat [[x01; x02; x48]; [xc3; x80; x01; xa9]]
     = encode_frames
         (data_message OP_CODE_TEXT (None, [x48; xc3]) [(None, [xa9])])
  /\ observe
       (snd
          (feed_all (init [] 4 true)
             [[x01; x02; x48]; [xc3; x80; x01; xa9]]))
     = ([q_feed_data
           (WSMessageText (string_of_list_byte [x48; xc3; xa9]) EmptyString)],
        None).
Proof.
  assert (F : Forall (fun p : piece => len (snd p) < 2 ^ 64)
                [(None, [x48; xc3]); (None, [xa9])])
    by (repeat constructor; cbn; lia).
  split; [left; reflexivity|]. split; [exact F|]. split; [reflexivity|].
  split; [reflexivity|].
  exact (@data_message_delivery py_runtime 4 true OP_CODE_TEXT
           (None, [x48; xc3]) [(None, [xa9])]
           [[x01; x02; x48]; [xc3; x80; x01; xa9]]
           (or_introl eq_refl) F eq_refl eq_refl).
Defined.

End ConcreteEndToEnd.

(** ** Fragments *)

Section Fragments.

Context {RT : Runtime}.

Lemma handle_nonfin_frames (frames : list (Frame bytes)) :
  forall r : Reader,
    Forall nonfin_data frames ->
    match handle_frames r frames with
    | Done r' =>
        queue r' = queue r
        /\ _partial r' = _partial r ++ List.concat (map f_payload frames)
    | Raised e r' =>
        queue r' = queue r
        /\ exists size,
             e = message_too_big size (_max_msg_size r)
             /\ truthy (_max_msg_size r) && (size >=? _max_msg_size r) = true
    end.
Proof.
  induction frames as [|f frames IH]; intros r Hf.
  - cbn. rewrite app_nil_r. auto.
  - inversion Hf as [|f' fs' (Hfin & Hop) Hrest]; subst.
    cbn [handle_frames map List.concat].
    destruct f as [fin op payload compressed]. cbn in Hfin, Hop. subst fin.
    assert (exists o, op = Some o
                      /\ (o = OP_CODE_CONTINUATION \/ o = OP_CODE_TEXT
                          \/ o = OP_CODE_BINARY)) as (o & -> & Ho).
    { destruct Hop as [->|[->| ->]]; eauto. }
    rewrite handle_nonfin_data_frame by exact Ho. cbv zeta.
    cbn [f_payload].
    destruct (truthy (_max_msg_size r) && _) eqn:E.
    + split; [destruct (o =? OP_CODE_CONTINUATION); destruct r; reflexivity|].
      exists (len (_partial r ++ payload)). auto.
    + set (r1 := set__partial (_partial r ++ payload) _).
      assert (R : queue r1 = queue r /\ _partial r1 = _partial r ++ payload
                  /\ _max_msg_size r1 = _max_msg_size r).
      { subst r1. destruct (o =? OP_CODE_CONTINUATION); destruct r; cbn;
          auto. }
      destruct R as (R1 & R2 & R3). specialize (IH r1 Hrest).
      destruct (handle_frames r1 frames) as [r'|e r'].
      * destruct IH as [Q P]. rewrite Q, P, R1, R2, app_assoc. auto.
      * destruct IH as [Q S]. rewrite Q, R1, R3 in *. auto.
Qed.

Lemma compressed_frame_inflated (r : Reader) (opcode : Z) (payload : bytes) :
  opcode = OP_CODE_TEXT \/ opcode = OP_CODE_BINARY ->
  _partial r = [] ->
  truthy (_max_msg_size r) && (len payload >=? _max_msg_size r) = false ->
  handle_frame r (mkFrame true (Some opcode) payload (Some true))
  = match
      decompress_sync (inflater r) (payload ++ WS_DEFLATE_TRAILING)
        (_max_msg_size r)
    with
    | None => Raised zlib_error (set__decompressobj (Some (inflater r)) r)
    | Some (d, payload_merged, unconsumed_tail) =>
        if nonempty unconsumed_tail
        then Raised
               (WebSocketError WSCloseCode.MESSAGE_TOO_BIG
                  (Msg_decompressed_size_exceeds_limit
                     (_max_msg_size r + len unconsumed_tail)
                     (_max_msg_size r)))
               (set__decompressobj (Some d) r)
        else deliver_data opcode payload_merged
               (set__decompressobj (Some d) r)
    end.
Proof.
  intros Hop Hp Hs.
  rewrite handle_fin_data_frame by tauto.
  replace (opcode =? OP_CODE_CONTINUATION) with false
    by (destruct Hop as [-> | ->]; reflexivity).
  unfold finish_message. rewrite Hp. cbn [nonempty]. rewrite Hs.
  unfold merge_payload, inflater. cbn [opt_truthy].
  destruct (decompress_sync _ _ _) as [[[d p] u]|]; [|reflexivity].
  replace (_max_msg_size (set__decompressobj (Some d) r))
    with (_max_msg_size r) by (destruct r; reflexivity).
  destruct (nonempty u); reflexivity.
Qed.

End Fragments.

(** X18. Data frames with fin = 0 only accumulate: whatever their number and
    their opcodes, handling them puts nothing on the queue, and either adds
    every payload to [_partial] or raises MESSAGE_TOO_BIG for the size that
    reached the limit. A message is never delivered in parts. *)
Theorem fragments_only_accumulate {RT : Runtime} (r : Reader)
  (frames : list (Frame bytes)) :
  Forall nonfin_data frames ->
  match handle_frames r frames with
  | Done r' =>
      queue r' = queue r
      /\ _partial r' = _partial r ++ List.concat (map f_payload frames)
  | Raised e r' =>
      queue r' = queue r
      /\ exists size,
           e = message_too_big size (_max_msg_size r)
           /\ truthy (_max_msg_size r) && (size >=? _max_msg_size r) = true
  end.
Proof. apply handle_nonfin_frames. Qed.

(** X19. The inflater is kept between messages. After a compressed binary
    message that the inflater has taken in whole, the next compressed
    message is given, with the trailer [00 00 FF FF] after its payload and
    the size limit as the bound of the output, to the inflater in the state
    the first message left it in; the inflater raising is raised, and output
    beyond the bound is MESSAGE_TOO_BIG for the limit plus the bytes not yet
    inflated. *)
Theorem inflater_is_kept_between_messages {RT : Runtime} (r : Reader)
  (p1 p2 out1 : bytes) (d1 : ZLibDecompressor) :
  _partial r = [] ->
  truthy (_max_msg_size r) && (len p1 >=? _max_msg_size r) = false ->
  truthy (_max_msg_size r) && (len p2 >=? _max_msg_size r) = false ->
  decompress_sync (inflater r) (p1 ++ WS_DEFLATE_TRAILING) (_max_msg_size r)
  = Some (d1, out1, []) ->
  let r1 :=
    _queue_feed_data (WSMessageBinary out1 EmptyString)
      (set__decompressobj (Some d1) r) in
  handle_frames r
    [mkFrame true (Some OP_CODE_BINARY) p1 (Some true);
     mkFrame true (Some OP_CODE_BINARY) p2 (Some true)]
  = match
      decompress_sync d1 (p2 ++ WS_DEFLATE_TRAILING) (_max_msg_size r)
    with
    | None => Raised zlib_error r1
    | Some (d2, out2, unconsumed_tail) =>
        if nonempty unconsumed_tail
        then Raised
               (WebSocketError WSCloseCode.MESSAGE_TOO_BIG
                  (Msg_decompressed_size_exceeds_limit
                     (_max_msg_size r + len unconsumed_tail)
                     (_max_msg_size r)))
               (set__decompressobj (Some d2) r1)
        else Done
               (_queue_feed_data (WSMessageBinary out2 EmptyString)
                  (set__decompressobj (Some d2) r1))
    end.
Proof.
  intros Hp H1 H2 Hd. cbv zeta. cbn [handle_frames].
  rewrite (compressed_frame_inflated r OP_CODE_BINARY p1
             (or_intror eq_refl) Hp H1).
  rewrite Hd. cbn [nonempty].
  set (r1 := _queue_feed_data (WSMessageBinary out1 EmptyString)
               (set__decompressobj (Some d1) r)).
  change (deliver_data OP_CODE_BINARY out1 (set__decompressobj (Some d1) r))
    with (Done r1).
  cbv iota.
  assert (R : _partial r1 = [] /\ _max_msg_size r1 = _max_msg_size r
              /\ inflater r1 = d1).
  { subst r1. unfold inflater. destruct r; cbn in *. auto. }
  destruct R as (R1 & R2 & R3).
  rewrite (compressed_frame_inflated r1 OP_CODE_BINARY p2
             (or_intror eq_refl) R1) by (rewrite R2; exact H2).
  rewrite R2, R3.
  destruct (decompress_sync d1 _ _) as [[[d2 out2] u]|]; [|reflexivity].
  destruct (nonempty u); reflexivity.
Qed.

Section ConcreteFragments.

#[local] Existing Instance py_runtime.

Lemma fragments_only_accumulate_witness :
  Forall nonfin_data
    [mkFrame false (Some OP_CODE_TEXT) [x48] (Some false);
     mkFrame false (Some OP_CODE_CONTINUATION) [x69] (Some false)]
  /\ match
       handle_frames (init [] 0 true)
         [mkFrame false (Some OP_CODE_TEXT) [x48] (Some false);
          mkFrame false (Some OP_CODE_CONTINUATION) [x69] (Some false)]
     with
     | Done r' =>
         queue r' = queue (init [] 0 true)
         /\ _partial r'
            = _partial (init [] 0 true)
              ++ List.concat
                   (map f_payload
                      [mkFrame false (Some OP_CODE_TEXT) [x48] (Some false);
                       mkFrame false (Some OP_CODE_CONTINUATION) [x69]
                         (Some false)])
     | Raised e r' =>
         queue r' = queue (init [] 0 true)
         /\ exists size,
              e = message_too_big size (_max_msg_size (init [] 0 true))
              /\ truthy (_max_msg_size (init [] 0 true))
                 && (size >=? _max_msg_size (init [] 0 true)) = true
     end.
Proof.
  assert (F : Forall nonfin_data
                [mkFrame false (Some OP_CODE_TEXT) [x48] (Some false);
                 mkFrame false (Some OP_CODE_CONTINUATION) [x69]
                   (Some false)]).
  { constructor; [split; [reflexivity|right; left; reflexivity]|].
    constructor; [split; [reflexivity|left; reflexivity]|constructor]. }
  split; [exact F|].
  exact (@fragments_only_accumulate py_runtime (init [] 0 true) _ F).
Defined.

End ConcreteFragments.

Section ConcreteInflater.

#[local] Existing Instance copy_runtime.

Lemma inflater_is_kept_between_messages_witness :
  _partial (init [] 0 true) = []
  /\ truthy 0 && (len [x61] >=? 0) = false
  /\ truthy 0 && (len [x62] >=? 0) = false
  /\ decompress_sync (inflater (init [] 0 true))
       ([x61] ++ WS_DEFLATE_TRAILING) 0
     = Some (1%nat, [x61; x00; x00; xff; xff], [])
  /\ handle_frames (init [] 0 true)
       [mkFrame true (Some OP_CODE_BINARY) [x61] (Some true);
        mkFrame true (Some OP_CODE_BINARY) [x62] (Some true)]
     = Done
         (_queue_feed_data
            (WSMessageBinary [x62; x00; x00; xff; xff] EmptyString)
            (set__decompressobj (Some 2%nat)
               (_queue_feed_data
                  (WSMessageBinary [x61; x00; x00; xff; xff] EmptyString)
                  (set__decompressobj (Some 1%nat) (init [] 0 true))))).
Proof.
  split; [reflexivity|]. split; [reflexivity|]. split; [reflexivity|].
  split; [reflexivity|].
  exact (@inflater_is_kept_between_messages copy_runtime (init [] 0 true)
           [x61] [x62] [x61; x00; x00; xff; xff] 1%nat
           eq_refl eq_refl eq_refl eq_refl).
Defined.

End ConcreteInflater.

(** ** Sharing of bytearrays *)

(** X21. The reader that holds its bytearrays by identity, with [+=],
    [websocket_mask] and [clear] changing them in place, and the reader on
    byte values do the same: for every sequence of chunks fed to a new
    reader the calls return the same results, and the attributes and the
    messages on the queue, read through the content of the bytearrays at the
    end, are the same. No in-place change reaches a payload that has been
    handed out. *)
Theorem bytearray_sharing_is_not_observable {RT : Runtime}
  (max_msg_size : Z) (compress : bool) (chunks : list bytes) :
  let s := Store.init [] max_msg_size compress in
  let x := Store.feed_all (fst s) chunks (snd s) in
  feed_all (init [] max_msg_size compress) chunks
  = (fst (fst x), Store.value (snd x) (snd (fst x))).
Proof.
  cbv zeta.
  rewrite <- (feed_all_value chunks _ _ (init_sound max_msg_size compress)).
  reflexivity.
Qed.
